(** * MAGENTA metadata fetchers: coordinate resolution and command retries

    A shallow embedding of the coordinate-handling core shared by
    [scripts/01_magenta_fetch_mangrove.py] and
    [scripts/magenta_fetch_non_mangrove.py] (the two files define the
    functions below with identical bodies), together with the properties
    the design document states about them.

    Conventions of the embedding:
    - a Python [str] is a [string]; its characters are the code points
      U+0000..U+00FF;
    - a Python [float] is an IEEE-754 binary64 value, [spec_float] with
      [prec = 53] and [emax = 1024]; [float(str)] is the grammar of CPython
      with correct rounding;
    - a call that may raise returns [option]: [None] is a raised exception;
    - what the scripts obtain from the outside is a function given to the
      embedded code: the exit status of a child process, the answer of the
      ENA portal to a request, the number [pd.to_numeric] reads in a cell;
    - a table received from the portal is a list of column labels and a
      list of rows; [all_df] is a list of records with the five columns
      [fill_and_filter_geo] works on and the remaining columns apart. *)

From Stdlib Require Import ZArith QArith Qabs Qpower List Bool Ascii String Lia.
From Stdlib Require Import Floats.SpecFloat.
Import ListNotations.

Local Open Scope Z_scope.

(* ------------------------------------------------------------------ *)
(** * Subprocesses and retries *)
(* ------------------------------------------------------------------ *)

Module RunCmd.

Section WithShell.

(** [subprocess_call cmd k] is the exit status [subprocess.call(cmd,
    shell=True, env=SAFE_ENV)] returns at the [k]-th invocation made so far
    (counting from 0). *)
Variable subprocess_call : string -> nat -> Z.

(** The state threaded through [run_cmd] is the number of invocations
    already made.  [run_cmd_loop cmd n k last] is the [for] loop with [n]
    iterations still to run; it returns the value returned and the number
    of invocations made. *)
Fixpoint run_cmd_loop (cmd : string) (n k : nat) (last : Z) : Z * nat :=
  match n with
  | O => (last, k)
  | S n' =>
      let last := subprocess_call cmd k in
      if last =? 0 then (0, S k)
      else run_cmd_loop cmd n' (S k) last
  end.

(** [range(1, retries+1)] has [max 0 retries] elements. *)
Definition run_cmd_with (cmd : string) (retries : Z) : Z * nat :=
  run_cmd_loop cmd (Z.to_nat retries) 0%nat 1.

(** [def run_cmd(cmd, retries=3)] *)
Definition run_cmd (cmd : string) : Z * nat := run_cmd_with cmd 3.

End WithShell.

(** A shell whose command fails twice (exit 2, then 7) and then succeeds,
    and one whose command always exits 5. *)
Definition third_time_lucky (_ : string) (k : nat) : Z :=
  match k with 0%nat => 2 | 1%nat => 7 | _ => 0 end.

Definition always_5 (_ : string) (_ : nat) : Z := 5.

Section ShellFacts.

Variable call : string -> nat -> Z.

Lemma run_cmd_loop_calls cmd n : forall k last,
  (k <= snd (run_cmd_loop call cmd n k last) <= k + n)%nat.
Proof.
  induction n as [|n IH]; intros k last; simpl.
  - lia.
  - destruct (call cmd k =? 0); simpl.
    + lia.
    + specialize (IH (S k) (call cmd k)). lia.
Qed.

Lemma run_cmd_loop_success cmd n : forall k last j,
  (j < n)%nat ->
  call cmd (k + j) = 0 ->
  (forall i, (i < j)%nat -> call cmd (k + i) <> 0) ->
  run_cmd_loop call cmd n k last = (0, S (k + j)).
Proof.
  induction n as [|n IH]; intros k last j Hj Hz Hnz; [lia|].
  simpl. destruct j as [|j].
  - rewrite Nat.add_0_r in Hz. rewrite Hz. simpl.
    now rewrite Nat.add_0_r.
  - assert (H0 : call cmd k <> 0).
    { specialize (Hnz 0%nat). rewrite Nat.add_0_r in Hnz. apply Hnz. lia. }
    apply Z.eqb_neq in H0. rewrite H0.
    rewrite (IH (S k) _ j).
    + f_equal. lia.
    + lia.
    + now replace (S k + j)%nat with (k + S j)%nat by lia.
    + intros i Hi. replace (S k + i)%nat with (k + S i)%nat by lia.
      apply Hnz. lia.
Qed.

Lemma run_cmd_loop_failure cmd n : forall k last,
  (forall i, (i < n)%nat -> call cmd (k + i) <> 0) ->
  run_cmd_loop call cmd n k last =
    (match n with O => last | S n' => call cmd (k + n') end, (k + n)%nat).
Proof.
  induction n as [|n IH]; intros k last Hnz; simpl.
  - now rewrite Nat.add_0_r.
  - assert (H0 : call cmd k <> 0).
    { specialize (Hnz 0%nat). rewrite Nat.add_0_r in Hnz. apply Hnz. lia. }
    apply Z.eqb_neq in H0. rewrite H0.
    rewrite IH.
    + destruct n as [|n'].
      * now rewrite !Nat.add_0_r, Nat.add_1_r.
      * f_equal; [f_equal|]; lia.
    + intros i Hi. replace (S k + i)%nat with (k + S i)%nat by lia.
      apply Hnz. lia.
Qed.

(** C9.  [run_cmd] invokes the command at most [retries] times (3 by
    default); it returns 0 at the first attempt that exits 0, having made
    no attempt after it; when every attempt fails it has made exactly
    [retries] attempts, one right after the other, and returns the exit
    status of the last one. *)
Theorem run_cmd_retries (cmd : string) (retries : Z) :
  (snd (run_cmd_with call cmd retries) <= Z.to_nat retries)%nat /\
  (forall j,
      (j < Z.to_nat retries)%nat ->
      call cmd j = 0 ->
      (forall i, (i < j)%nat -> call cmd i <> 0) ->
      run_cmd_with call cmd retries = (0, S j)) /\
  (1 <= retries ->
   (forall i, (i < Z.to_nat retries)%nat -> call cmd i <> 0) ->
   run_cmd_with call cmd retries =
     (call cmd (Z.to_nat retries - 1), Z.to_nat retries)) /\
  run_cmd call cmd = run_cmd_with call cmd 3.
Proof.
  unfold run_cmd, run_cmd_with. repeat split.
  - pose proof (run_cmd_loop_calls cmd (Z.to_nat retries) 0 1). lia.
  - intros j Hj Hz Hnz.
    now rewrite (run_cmd_loop_success cmd _ 0 1 j).
  - intros Hpos Hnz.
    rewrite run_cmd_loop_failure by exact Hnz.
    destruct (Z.to_nat retries) as [|n] eqn:E; [lia|].
    simpl. now rewrite Nat.sub_0_r.
Qed.

(** With no attempt allowed the command is not run and the initial value
    of [last] is returned. *)
Lemma run_cmd_no_attempt (cmd : string) (retries : Z) :
  retries <= 0 -> run_cmd_with call cmd retries = (1, 0%nat).
Proof.
  intros H. unfold run_cmd_with.
  now replace (Z.to_nat retries) with 0%nat by lia.
Qed.

End ShellFacts.

Example run_cmd_third_time : run_cmd third_time_lucky "esearch" = (0, 3%nat).
Proof. reflexivity. Qed.

Example run_cmd_gives_up : run_cmd always_5 "esearch" = (5, 3%nat).
Proof. reflexivity. Qed.

Lemma run_cmd_retries_witness :
  run_cmd_with third_time_lucky "esearch" 3 = (0, 3%nat) /\
  run_cmd_with always_5 "esearch" 3 = (5, 3%nat).
Proof.
  split.
  - apply (proj1 (proj2 (run_cmd_retries third_time_lucky "esearch" 3)) 2%nat).
    + simpl. lia.
    + reflexivity.
    + intros i Hi. destruct i as [|[|i]]; simpl; [discriminate|discriminate|lia].
  - apply (proj1 (proj2 (proj2 (run_cmd_retries always_5 "esearch" 3)))).
    + lia.
    + intros i _. discriminate.
Defined.

End RunCmd.

(* ------------------------------------------------------------------ *)
(** * Binary64 numbers *)
(* ------------------------------------------------------------------ *)

Module Float64.

Definition prec : Z := 53.
Definition emax : Z := 1024.

Definition float : Set := spec_float.

Definition nan : float := S754_nan.

(** [np.isfinite] on a float. *)
Definition isfinite (x : float) : bool :=
  match x with
  | S754_zero _ | S754_finite _ _ _ => true
  | S754_infinity _ | S754_nan => false
  end.

Definition isnan (x : float) : bool :=
  match x with S754_nan => true | _ => false end.

(** [x <= y], [-x] and [abs(x)] on floats. *)
Definition le (x y : float) : bool := SFleb x y.
Definition neg (x : float) : float := SFopp x.
Definition abs (x : float) : float := SFabs x.

(** The sign bit. *)
Definition signbit (x : float) : bool :=
  match x with
  | S754_zero s | S754_infinity s | S754_finite s _ _ => s
  | S754_nan => false
  end.

(** The binary64 nearest to [(-1)^sign * n * 10^p], ties to even; this is
    what a decimal numeral denotes, in a program text as in [float(str)]. *)
Definition of_decimal (sign : bool) (n : N) (p : Z) : float :=
  match n with
  | N0 => S754_zero sign
  | Npos m =>
      if 0 <=? p
      then binary_round prec emax sign (m * Z.to_pos (10 ^ p)) 0
      else SFdiv prec emax (S754_finite sign m 0)
                           (S754_finite false (Z.to_pos (10 ^ (- p))) 0)
  end.

(** [float(z)] for a Python [int]: the nearest binary64, and
    [OverflowError] when that is beyond the largest one. *)
Definition of_int (z : Z) : option float :=
  match binary_normalize prec emax z 0 false with
  | S754_infinity _ => None
  | f => Some f
  end.

(** The literals of the source. *)
Definition f90 : float := Eval vm_compute in of_decimal false 900 (-1).
Definition f180 : float := Eval vm_compute in of_decimal false 1800 (-1).

(** A [spec_float] is a binary64 when its mantissa and exponent are the
    canonical ones. *)
Definition valid (x : float) : bool := valid_binary prec emax x.

(** The rational a finite float stands for. *)
Definition value (x : float) : Q :=
  match x with
  | S754_finite s m e =>
      (inject_Z (cond_Zopp s (Zpos m)) * 2 ^ e)%Q
  | _ => 0%Q
  end.

(** [value x * 2^1074], an integer for every binary64. *)
Definition scaled (x : float) : Z :=
  match x with
  | S754_finite s m e => cond_Zopp s (Zpos m * 2 ^ (e + 1074))
  | _ => 0
  end.

Example f90_is_90 : f90 = S754_finite false 6333186975989760 (-46) /\
                    (value f90 == 90)%Q.
Proof. split; reflexivity. Qed.

Example f180_is_180 : f180 = S754_finite false 6333186975989760 (-45) /\
                      (value f180 == 180)%Q.
Proof. split; reflexivity. Qed.

Lemma digits2_pos_size p : digits2_pos p = Pos.size p.
Proof. induction p; simpl; congruence. Qed.

Lemma digits2_bounds m :
  2 ^ (Zpos (digits2_pos m) - 1) <= Zpos m < 2 ^ Zpos (digits2_pos m).
Proof.
  rewrite digits2_pos_size. split.
  - pose proof (Pos.size_le m) as H.
    apply Pos2Z.pos_le_pos in H. rewrite Pos2Z.inj_pow in H.
    replace (Zpos (Pos.size m)) with (Z.succ (Zpos (Pos.size m) - 1)) in H by lia.
    rewrite Z.pow_succ_r in H by lia.
    change (Zpos m~0) with (2 * Zpos m) in H. lia.
  - pose proof (Pos.size_gt m) as H.
    apply Pos2Z.pos_lt_pos in H. now rewrite Pos2Z.inj_pow in H.
Qed.

Lemma valid_finite_bounds s m e :
  valid (S754_finite s m e) = true ->
  -1074 <= e <= 971 /\ Zpos m < 2 ^ 53 /\ (-1074 < e -> 2 ^ 52 <= Zpos m).
Proof.
  unfold valid, valid_binary, bounded, canonical_mantissa, fexp, SpecFloat.emin, prec, emax.
  intros H. apply andb_true_iff in H. destruct H as [Hc He].
  apply Z.eqb_eq in Hc. apply Z.leb_le in He.
  pose proof (digits2_bounds m) as [Hlo Hhi].
  set (d := Zpos (digits2_pos m)) in *.
  assert (Hd : d <= 53) by lia.
  repeat split; try lia.
  - apply Z.lt_le_trans with (1 := Hhi). apply Z.pow_le_mono_r; lia.
  - intros Hn. assert (d = 53) by lia. replace (52) with (d - 1) by lia. exact Hlo.
Qed.

Lemma pow2_Q (a : Z) : 0 <= a -> (inject_Z (2 ^ a) == 2 ^ a)%Q.
Proof. intros Ha. now rewrite Zpower_Qpower. Qed.

Lemma value_scaled x :
  valid x = true -> (value x == inject_Z (scaled x) * 2 ^ (-1074))%Q.
Proof.
  destruct x as [s|s| |s m e]; intros Hv; unfold value, scaled;
    try (rewrite Qmult_0_l; reflexivity).
  apply valid_finite_bounds in Hv. destruct Hv as [[He _] _].
  assert (Hc : cond_Zopp s (Zpos m * 2 ^ (e + 1074)) =
               cond_Zopp s (Zpos m) * 2 ^ (e + 1074)).
  { destruct s; unfold cond_Zopp; [now rewrite Z.mul_opp_l | reflexivity]. }
  rewrite Hc, inject_Z_mult, pow2_Q by lia.
  rewrite <- Qmult_assoc, <- Qpower_plus by discriminate.
  now replace (e + 1074 + -1074) with e by lia.
Qed.

Lemma scaled_pos m e : 0 <= e + 1074 -> 0 < Zpos m * 2 ^ (e + 1074).
Proof. intros H. apply Z.mul_pos_pos; [lia|]. apply Z.pow_pos_nonneg; lia. Qed.

Lemma scaled_lt m1 e1 m2 e2 :
  -1074 <= e1 -> e1 < e2 -> Zpos m1 < 2 ^ 53 -> 2 ^ 52 <= Zpos m2 ->
  Zpos m1 * 2 ^ (e1 + 1074) < Zpos m2 * 2 ^ (e2 + 1074).
Proof.
  intros H1 H12 Hm1 Hm2.
  replace (e2 + 1074) with ((e2 - e1 - 1) + 1 + (e1 + 1074)) by lia.
  rewrite (Z.pow_add_r 2 (e2 - e1 - 1 + 1) (e1 + 1074)) by lia.
  rewrite (Z.pow_add_r 2 (e2 - e1 - 1) 1) by lia.
  assert (Hp : 0 < 2 ^ (e1 + 1074)) by (apply Z.pow_pos_nonneg; lia).
  assert (Hq : 1 <= 2 ^ (e2 - e1 - 1)).
  { change 1 with (2 ^ 0). apply Z.pow_le_mono_r; lia. }
  rewrite Z.mul_assoc. apply Z.mul_lt_mono_pos_r; [exact Hp|].
  change (2 ^ 1) with 2.
  change (2 ^ 53) with (2 ^ 52 * 2) in Hm1.
  nia.
Qed.

Lemma compare_scaled x y :
  valid x = true -> valid y = true -> isfinite x = true -> isfinite y = true ->
  SFcompare x y = Some (scaled x ?= scaled y).
Proof.
  destruct x as [sx|sx| |sx mx ex]; destruct y as [sy|sy| |sy my ey];
    intros Hx Hy Fx Fy; try discriminate; unfold SFcompare, scaled.
  - reflexivity.
  - apply valid_finite_bounds in Hy. destruct Hy as [[He _] _].
    pose proof (scaled_pos my ey ltac:(lia)).
    f_equal. destruct sy; unfold cond_Zopp; symmetry;
      [apply Z.compare_gt_iff | apply Z.compare_lt_iff]; lia.
  - apply valid_finite_bounds in Hx. destruct Hx as [[He _] _].
    pose proof (scaled_pos mx ex ltac:(lia)).
    f_equal. destruct sx; unfold cond_Zopp; symmetry;
      [apply Z.compare_lt_iff | apply Z.compare_gt_iff]; lia.
  - apply valid_finite_bounds in Hx. destruct Hx as [[Hx1 _] [Hx2 Hx3]].
    apply valid_finite_bounds in Hy. destruct Hy as [[Hy1 _] [Hy2 Hy3]].
    pose proof (scaled_pos mx ex ltac:(lia)) as Px.
    pose proof (scaled_pos my ey ltac:(lia)) as Py.
    f_equal.
    destruct sx, sy; unfold cond_Zopp.
    + (* both negative *)
      destruct (Z.compare_spec ex ey) as [E|E|E].
      * subst ey. change (Pos.compare_cont Eq mx my) with (Pos.compare mx my).
        rewrite Z.compare_opp.
        rewrite <- Zmult_compare_compat_r
          by (apply Z.lt_gt, Z.pow_pos_nonneg; lia).
        rewrite <- Pos2Z.inj_compare. symmetry. apply Pos.compare_antisym.
      * pose proof (scaled_lt mx ex my ey ltac:(lia) E Hx2 (Hy3 ltac:(lia))).
        symmetry. apply Z.compare_gt_iff. lia.
      * pose proof (scaled_lt my ey mx ex ltac:(lia) E Hy2 (Hx3 ltac:(lia))).
        symmetry. apply Z.compare_lt_iff. lia.
    + symmetry. apply Z.compare_lt_iff. lia.
    + symmetry. apply Z.compare_gt_iff. lia.
    + destruct (Z.compare_spec ex ey) as [E|E|E].
      * subst ey. change (Pos.compare_cont Eq mx my) with (Pos.compare mx my).
        rewrite Pos2Z.inj_compare.
        apply Zmult_compare_compat_r, Z.lt_gt, Z.pow_pos_nonneg; lia.
      * pose proof (scaled_lt mx ex my ey ltac:(lia) E Hx2 (Hy3 ltac:(lia))).
        symmetry. apply Z.compare_lt_iff. lia.
      * pose proof (scaled_lt my ey mx ex ltac:(lia) E Hy2 (Hx3 ltac:(lia))).
        symmetry. apply Z.compare_gt_iff. lia.
Qed.

Lemma le_value x y :
  valid x = true -> valid y = true -> isfinite x = true -> isfinite y = true ->
  (le x y = true <-> (value x <= value y)%Q).
Proof.
  intros Hx Hy Fx Fy. unfold le, SFleb.
  rewrite (compare_scaled x y Hx Hy Fx Fy).
  rewrite (value_scaled x Hx), (value_scaled y Hy).
  assert (Hp : (0 < 2 ^ (-1074))%Q) by (apply Qpower_0_lt; reflexivity).
  rewrite Qmult_le_r by exact Hp.
  rewrite <- Zle_Qle.
  destruct (Z.compare_spec (scaled x) (scaled y)); split; intros; try lia; try reflexivity; discriminate.
Qed.

Lemma value_neg x : (value (neg x) == - value x)%Q.
Proof.
  destruct x as [s|s| |s m e]; try reflexivity.
  unfold neg, SFopp, value.
  assert (H : cond_Zopp (negb s) (Zpos m) = (- cond_Zopp s (Zpos m))%Z)
    by (destruct s; reflexivity).
  rewrite H, inject_Z_opp. ring.
Qed.

Lemma value_abs x : (value (abs x) == Qabs (value x))%Q.
Proof.
  destruct x as [s|s| |s m e]; try reflexivity.
  unfold abs, SFabs, value. rewrite Qabs_Qmult.
  assert (Hp : (0 < 2 ^ e)%Q) by (apply Qpower_0_lt; reflexivity).
  rewrite (Qabs_pos (2 ^ e)) by now apply Qlt_le_weak.
  apply Qmult_comp; [|reflexivity].
  destruct s; reflexivity.
Qed.

(** The sign bit of [-|x|] is set, that of [|x|] is clear. *)
Lemma abs_signbit x : signbit (abs x) = false.
Proof. now destruct x. Qed.

Lemma neg_abs_signbit x : isnan x = false -> signbit (neg (abs x)) = true.
Proof. destruct x; trivial; discriminate. Qed.

End Float64.

(* ------------------------------------------------------------------ *)
(** * Text: characters, [str.strip], [float(str)] and the two patterns *)
(* ------------------------------------------------------------------ *)

Module Text.

Import Float64.

(** The characters of a [str], in order. *)
Definition chars (s : string) : list ascii := list_ascii_of_string s.

Definition code (c : ascii) : N := N_of_ascii c.

(** [\d] of [re], and [str.isdecimal]: below U+0100 only 0-9. *)
Definition isdigit (c : ascii) : bool :=
  ((48 <=? code c) && (code c <=? 57))%N.

Definition digit_value (c : ascii) : N := (code c - 48)%N.

(** [str.isspace], the characters [str.strip()] removes. *)
Definition isspace (c : ascii) : bool :=
  (((9 <=? code c) && (code c <=? 13)) || ((28 <=? code c) && (code c <=? 32))
   || (code c =? 133) || (code c =? 160))%N.

(** The characters [float(str)] skips at both ends. *)
Definition float_space (c : ascii) : bool :=
  (((9 <=? code c) && (code c <=? 13)) || (code c =? 32)
   || (code c =? 133) || (code c =? 160))%N.

Fixpoint lstrip_with (sp : ascii -> bool) (l : list ascii) : list ascii :=
  match l with
  | c :: r => if sp c then lstrip_with sp r else l
  | [] => []
  end.

Definition strip_with (sp : ascii -> bool) (l : list ascii) : list ascii :=
  rev (lstrip_with sp (rev (lstrip_with sp l))).

(** [val.strip()] *)
Definition strip (l : list ascii) : list ascii := strip_with isspace l.

(** [c.upper()] for a letter a-z; other characters are unchanged.  The
    source applies [upper] to the second capture of the hemisphere pattern
    only, which is empty or one of [NnSsEeWw]. *)
Definition upper_char (c : ascii) : ascii :=
  if ((97 <=? code c) && (code c <=? 122))%N
  then ascii_of_N (code c - 32) else c.

Definition upper (l : list ascii) : list ascii := map upper_char l.

Definition lower_char (c : ascii) : ascii :=
  if ((65 <=? code c) && (code c <=? 90))%N
  then ascii_of_N (code c + 32) else c.

Fixpoint eqb_chars (a b : list ascii) : bool :=
  match a, b with
  | [], [] => true
  | x :: a', y :: b' => Ascii.eqb x y && eqb_chars a' b'
  | _, _ => false
  end.

(** ** Digits *)

(** The longest run of digits at the head of [l], and what follows it. *)
Fixpoint span_digits (l : list ascii) : list ascii * list ascii :=
  match l with
  | c :: r =>
      if isdigit c
      then let (d, r') := span_digits r in (c :: d, r')
      else ([], l)
  | [] => ([], [])
  end.

(** The number a run of digits writes, most significant digit first. *)
Definition digits_value (d : list ascii) : N :=
  fold_left (fun acc c => (10 * acc + digit_value c)%N) d 0%N.

Definition is_sign (c : ascii) : bool :=
  Ascii.eqb c "+" || Ascii.eqb c "-".

(** An optional sign at the head of [l]. *)
Definition take_sign (l : list ascii) : list ascii * list ascii :=
  match l with
  | c :: r => if is_sign c then ([c], r) else ([], l)
  | [] => ([], [])
  end.

Definition is_minus (sign : list ascii) : bool := eqb_chars sign ["-"%char].

(** ** [float(str)] *)

(** Underscores may only stand between two digits; they are removed.
    [prev] is the previous character, NUL at the start. *)
Fixpoint drop_underscores (prev : ascii) (l : list ascii)
  : option (list ascii) :=
  match l with
  | [] => if Ascii.eqb prev "_" then None else Some []
  | c :: r =>
      if Ascii.eqb c "_"
      then if isdigit prev then drop_underscores c r else None
      else if Ascii.eqb prev "_" && negb (isdigit c) then None
           else option_map (cons c) (drop_underscores c r)
  end.

(** The exponent part: nothing, or [e] or [E], an optional sign and at
    least one digit, up to the end of the text. *)
Definition parse_exponent (l : list ascii) : option Z :=
  match l with
  | [] => Some 0
  | c :: r =>
      if Ascii.eqb c "e" || Ascii.eqb c "E"
      then let (sg, r1) := take_sign r in
           match span_digits r1 with
           | ((_ :: _) as d, []) =>
               Some (if is_minus sg then - Z.of_N (digits_value d)
                     else Z.of_N (digits_value d))
           | _ => None
           end
      else None
  end.

(** A numeral without its sign: [inf], [infinity], [nan] in any case, or
    digits with an optional point (one digit at least) and an optional
    exponent. *)
Definition parse_unsigned (sign : bool) (l : list ascii) : option float :=
  let low := map lower_char l in
  if eqb_chars low (chars "inf") || eqb_chars low (chars "infinity")
  then Some (S754_infinity sign)
  else if eqb_chars low (chars "nan") then Some S754_nan
  else
    let (ip, l1) := span_digits l in
    let (fp, l2) :=
      match l1 with
      | c :: r => if Ascii.eqb c "." then span_digits r else ([], l1)
      | [] => ([], l1)
      end in
    match ip ++ fp with
    | [] => None
    | ds =>
        match parse_exponent l2 with
        | Some x =>
            Some (of_decimal sign (digits_value ds)
                             (x - Z.of_nat (List.length fp)))
        | None => None
        end
    end.

(** [float(s)] for a [str]; [None] is [ValueError]. *)
Definition float_of_chars (l : list ascii) : option float :=
  match drop_underscores zero (strip_with float_space l) with
  | None => None
  | Some l0 =>
      let (sg, l1) := take_sign l0 in
      parse_unsigned (is_minus sg) l1
  end.

(** ** The patterns of the coordinate extractor *)

(** [\d+] at the head of [l]. *)
Definition digits1 (l : list ascii) : option (list ascii * list ascii) :=
  match span_digits l with
  | ([], _) => None
  | (d, r) => Some (d, r)
  end.

(** [[+-]?\d+(?:\.\d+)?] at the head of [l]: the text matched and the rest.
    Each greedy choice stands, as whatever follows it in the pattern is
    optional; giving up the sign cannot help, as the digits would then have
    to start at the sign. *)
Definition match_number (l : list ascii)
  : option (list ascii * list ascii) :=
  let (sg, l1) := take_sign l in
  match digits1 l1 with
  | None => None
  | Some (ip, l2) =>
      match l2 with
      | c :: l3 =>
          if Ascii.eqb c "."
          then match digits1 l3 with
               | Some (fp, l4) => Some (sg ++ ip ++ c :: fp, l4)
               | None => Some (sg ++ ip, l2)
               end
          else Some (sg ++ ip, l2)
      | [] => Some (sg ++ ip, l2)
      end
  end.

Definition is_hemi (c : ascii) : bool :=
  existsb (Ascii.eqb c) (chars "NnSsEeWw").

Definition is_dot (c : ascii) : bool := Ascii.eqb c ".".

(** [([+-]?\d+(?:\.\d+)?)([NnSsEeWw]?)] at the head of [l]: the two
    captures and the rest. *)
Definition match_hemi (l : list ascii)
  : option ((list ascii * list ascii) * list ascii) :=
  match match_number l with
  | None => None
  | Some (num, r) =>
      match r with
      | c :: r' =>
          if is_hemi c then Some ((num, [c]), r') else Some ((num, []), r)
      | [] => Some ((num, []), [])
      end
  end.

(** [re.findall]: the matches from left to right, each search starting
    where the previous match ended, and one character further when there is
    no match at a position.  Neither pattern matches the empty text, so a
    match always advances; [fuel] bounds the number of positions tried. *)
Fixpoint findall_from {T : Type} (m : list ascii -> option (T * list ascii))
  (fuel : nat) (l : list ascii) : list T :=
  match fuel with
  | O => []
  | S fuel' =>
      match l with
      | [] => []
      | _ :: r =>
          match m l with
          | Some (t, rest) => t :: findall_from m fuel' rest
          | None => findall_from m fuel' r
          end
      end
  end.

Definition findall {T : Type} (m : list ascii -> option (T * list ascii))
  (l : list ascii) : list T :=
  findall_from m (List.length l) l.

(** [re.findall(r'([+-]?\d+(?:\.\d+)?)([NnSsEeWw]?)', l)] *)
Definition findall_hemi (l : list ascii) : list (list ascii * list ascii) :=
  findall match_hemi l.

(** [re.findall(r'([+-]?\d+(?:\.\d+)?)', l)] *)
Definition findall_number (l : list ascii) : list (list ascii) :=
  findall match_number l.

(** ** Notions used to state the properties *)

(** [l] does not start with a character satisfying [p]. *)
Definition not_headed (p : ascii -> bool) (l : list ascii) : Prop :=
  match l with c :: _ => p c = false | [] => True end.

Definition all_digits (d : list ascii) : Prop :=
  Forall (fun c => isdigit c = true) d.

(** The text of a number: sign, integer digits, fraction digits. *)
Definition frac (fp : list ascii) : list ascii :=
  match fp with [] => [] | _ => "."%char :: fp end.

Definition numeral (sg ip fp : list ascii) : list ascii :=
  sg ++ ip ++ frac fp.

Record numeral_ok (sg ip fp : list ascii) : Prop := {
  sign_ok : sg = [] \/ sg = ["+"%char] \/ sg = ["-"%char];
  int_ok : all_digits ip;
  int_nonempty : ip <> [];
  frac_ok : all_digits fp
}.

(** The characters of a numeral. *)
Definition numeral_char (c : ascii) : Prop :=
  isdigit c = true \/ is_sign c = true \/ c = "."%char.

Definition all_space (ws : list ascii) : Prop :=
  Forall (fun c => isspace c = true) ws.

Definition space_headed (ws : list ascii) : Prop :=
  match ws with c :: _ => isspace c = true | [] => True end.

(** ** [re.findall] *)

Section Findall.

Context {T : Type}.
Variable m : list ascii -> option (T * list ascii).

(** A match is never empty. *)
Hypothesis m_consumes : forall l t rest,
  m l = Some (t, rest) -> (List.length rest < List.length l)%nat.

Lemma findall_from_fuel : forall f1 f2 l,
  (List.length l <= f1)%nat -> (List.length l <= f2)%nat ->
  findall_from m f1 l = findall_from m f2 l.
Proof.
  induction f1 as [|f1 IH]; intros f2 l H1 H2.
  - destruct l; [|simpl in H1; lia]. now destruct f2.
  - destruct f2 as [|f2].
    + destruct l; [reflexivity|simpl in H2; lia].
    + destruct l as [|c r]; [reflexivity|]. simpl in H1, H2. simpl.
      destruct (m (c :: r)) as [[t rest]|] eqn:E.
      * apply m_consumes in E. simpl in E.
        f_equal. apply IH; lia.
      * apply IH; lia.
Qed.

(** Any fuel that covers the text gives the result of [findall]. *)
Lemma findall_from_enough fuel l :
  (List.length l <= fuel)%nat -> findall_from m fuel l = findall m l.
Proof. intros H. unfold findall. apply findall_from_fuel; lia. Qed.

Lemma findall_nil : findall m [] = [].
Proof. reflexivity. Qed.

Lemma findall_cons c r :
  findall m (c :: r) =
  match m (c :: r) with
  | Some (t, rest) => t :: findall m rest
  | None => findall m r
  end.
Proof.
  unfold findall at 1. simpl.
  destruct (m (c :: r)) as [[t rest]|] eqn:E.
  - apply m_consumes in E. simpl in E.
    f_equal. apply findall_from_enough. lia.
  - apply findall_from_enough. lia.
Qed.

(** What holds of every match holds of every element of the result. *)
Lemma findall_Forall (P : T -> Prop) :
  (forall l t rest, m l = Some (t, rest) -> P t) ->
  forall l, Forall P (findall m l).
Proof.
  intros HP l.
  remember (List.length l) as n eqn:Hn.
  revert l Hn. induction n as [n IH] using lt_wf_ind. intros l Hn.
  destruct l as [|c r]; [constructor|].
  rewrite findall_cons.
  destruct (m (c :: r)) as [[t rest]|] eqn:E.
  - constructor; [eapply HP; eauto|].
    apply m_consumes in E. simpl in E.
    eapply IH; [|reflexivity]. simpl in Hn. lia.
  - eapply IH; [|reflexivity]. simpl in Hn. lia.
Qed.

End Findall.

(** ** Characters *)

Lemma isdigit_facts c :
  isdigit c = true ->
  is_sign c = false /\ isspace c = false /\ float_space c = false /\
  is_hemi c = false /\ lower_char c = c /\
  Ascii.eqb c "_" = false /\ Ascii.eqb c "." = false /\
  Ascii.eqb c "i" = false /\ Ascii.eqb c "n" = false.
Proof.
  destruct c as [[] [] [] [] [] [] [] []]; vm_compute; intros H;
    try discriminate H; repeat split.
Qed.

Lemma is_sign_facts c :
  is_sign c = true ->
  (c = "+"%char \/ c = "-"%char) /\
  isdigit c = false /\ isspace c = false /\ float_space c = false /\
  is_hemi c = false /\ Ascii.eqb c "_" = false /\ Ascii.eqb c "." = false.
Proof.
  destruct c as [[] [] [] [] [] [] [] []]; vm_compute; intros H;
    try discriminate H; repeat split; auto.
Qed.

Lemma is_hemi_facts c :
  is_hemi c = true ->
  isdigit c = false /\ is_sign c = false /\ Ascii.eqb c "." = false /\
  In c (chars "NnSsEeWw").
Proof.
  destruct c as [[] [] [] [] [] [] [] []]; vm_compute; intros H;
    try discriminate H; repeat split; auto 10.
Qed.

Lemma isspace_facts c :
  isspace c = true ->
  isdigit c = false /\ is_sign c = false /\ Ascii.eqb c "." = false /\
  is_hemi c = false.
Proof.
  destruct c as [[] [] [] [] [] [] [] []]; vm_compute; intros H;
    try discriminate H; repeat split.
Qed.

Lemma dot_facts :
  isdigit "." = false /\ is_sign "." = false /\ float_space "." = false /\
  Ascii.eqb "." "_" = false /\ is_hemi "." = false.
Proof. repeat split. Qed.

(** ** Runs of digits *)

Lemma span_digits_spec l : forall d r,
  span_digits l = (d, r) ->
  l = d ++ r /\ all_digits d /\ not_headed isdigit r.
Proof.
  induction l as [|c l IH]; simpl; intros d r H.
  - injection H as <- <-. repeat split. constructor.
  - destruct (isdigit c) eqn:Ec.
    + destruct (span_digits l) as [d' r'] eqn:E.
      injection H as <- <-.
      destruct (IH d' r' eq_refl) as (-> & Hd & Hr).
      repeat split; [constructor; assumption | exact Hr].
    + injection H as <- <-. repeat split; [constructor | exact Ec].
Qed.

Lemma span_digits_app d r :
  all_digits d -> not_headed isdigit r -> span_digits (d ++ r) = (d, r).
Proof.
  intros Hd Hr. induction Hd as [|c d Hc Hd IH]; simpl.
  - destruct r as [|c r]; [reflexivity|]. simpl in *. now rewrite Hr.
  - now rewrite Hc, IH.
Qed.

Lemma digits1_spec l d r :
  digits1 l = Some (d, r) ->
  l = d ++ r /\ d <> [] /\ all_digits d /\ not_headed isdigit r.
Proof.
  unfold digits1. destruct (span_digits l) as [d' r'] eqn:E.
  apply span_digits_spec in E. destruct E as (-> & Hd & Hr).
  destruct d' as [|c d']; [discriminate|].
  intros H. injection H as <- <-. repeat split; try assumption. discriminate.
Qed.

Lemma digits1_none l : digits1 l = None -> not_headed isdigit l.
Proof.
  unfold digits1. destruct l as [|c l]; simpl; [trivial|].
  destruct (isdigit c); [|trivial].
  destruct (span_digits l); discriminate.
Qed.

Lemma digits1_app d r :
  d <> [] -> all_digits d -> not_headed isdigit r ->
  digits1 (d ++ r) = Some (d, r).
Proof.
  intros Hne Hd Hr. unfold digits1. rewrite span_digits_app by assumption.
  destruct d; [contradiction|reflexivity].
Qed.

(** ** Numerals *)

Lemma take_sign_spec l sg r :
  take_sign l = (sg, r) ->
  l = sg ++ r /\ (sg = [] \/ sg = ["+"%char] \/ sg = ["-"%char]) /\
  (sg = [] -> not_headed is_sign r).
Proof.
  destruct l as [|c l]; simpl.
  - intros H. injection H as <- <-. repeat split; auto.
  - destruct (is_sign c) eqn:E; intros H; injection H as <- <-.
    + apply is_sign_facts in E. destruct E as ([-> | ->] & _);
        repeat split; auto; discriminate.
    + repeat split; auto.
Qed.

(** What [match_number] returns is a numeral at the head of the text. *)
Lemma match_number_spec l num rest :
  match_number l = Some (num, rest) ->
  l = num ++ rest /\
  exists sg ip fp, numeral_ok sg ip fp /\ num = numeral sg ip fp.
Proof.
  unfold match_number.
  destruct (take_sign l) as [sg l1] eqn:Es.
  apply take_sign_spec in Es. destruct Es as (-> & Hsg & _).
  destruct (digits1 l1) as [[ip l2]|] eqn:Ei; [|discriminate].
  apply digits1_spec in Ei. destruct Ei as (-> & Hne & Hip & _).
  assert (Hint : forall r, Some (sg ++ ip, r) = Some (num, rest) ->
            sg ++ ip ++ r = num ++ rest /\
            exists sg' ip' fp, numeral_ok sg' ip' fp /\ num = numeral sg' ip' fp).
  { intros r H. injection H as <- <-. split; [now rewrite app_assoc|].
    exists sg, ip, []. split; [constructor; auto; constructor|].
    unfold numeral. simpl. now rewrite app_nil_r. }
  destruct l2 as [|c l3]; [apply Hint|].
  destruct (Ascii.eqb c ".") eqn:Ec; [|apply Hint].
  destruct (digits1 l3) as [[fp l4]|] eqn:Ef; [|apply Hint].
  apply Ascii.eqb_eq in Ec. subst c.
  apply digits1_spec in Ef. destruct Ef as (-> & Hnf & Hfp & _).
  intros H. injection H as <- <-. split.
  - now rewrite <- !app_assoc.
  - exists sg, ip, fp. split; [constructor; auto|].
    unfold numeral, frac. destruct fp; [contradiction|reflexivity].
Qed.

Lemma numeral_nonempty sg ip fp :
  numeral_ok sg ip fp -> numeral sg ip fp <> [].
Proof.
  intros [_ _ Hne _] H. unfold numeral in H.
  apply app_eq_nil in H. destruct H as [_ H].
  apply app_eq_nil in H. destruct H as [H _]. contradiction.
Qed.

Lemma match_number_consumes l num rest :
  match_number l = Some (num, rest) ->
  (List.length rest < List.length l)%nat.
Proof.
  intros H. apply match_number_spec in H.
  destruct H as (-> & sg & ip & fp & Hok & ->).
  apply numeral_nonempty in Hok.
  rewrite length_app. destruct (numeral sg ip fp); [contradiction|simpl; lia].
Qed.

Lemma match_hemi_spec l num hemi rest :
  match_hemi l = Some ((num, hemi), rest) ->
  exists r, match_number l = Some (num, r) /\ r = hemi ++ rest /\
    ((hemi = [] /\ not_headed is_hemi rest) \/
     (exists c, hemi = [c] /\ is_hemi c = true)).
Proof.
  unfold match_hemi. destruct (match_number l) as [[n r]|]; [|discriminate].
  destruct r as [|c r'].
  - intros H. injection H as <- <- <-. exists []. repeat split.
    left. split; [reflexivity|exact I].
  - destruct (is_hemi c) eqn:E; intros H; injection H as <- <- <-;
      exists (c :: r'); repeat split.
    + right. now exists c.
    + left. split; [reflexivity|exact E].
Qed.

Lemma match_hemi_consumes l t rest :
  match_hemi l = Some (t, rest) ->
  (List.length rest < List.length l)%nat.
Proof.
  destruct t as [num hemi]. intros H.
  apply match_hemi_spec in H. destruct H as (r & Hm & -> & _).
  apply match_number_consumes in Hm. rewrite length_app in Hm. lia.
Qed.

(** ** [float] of a numeral *)

Lemma lstrip_with_id sp l : not_headed sp l -> lstrip_with sp l = l.
Proof. destruct l as [|c l]; simpl; [reflexivity|]. now intros ->. Qed.

Lemma Forall_not_headed (p : ascii -> bool) l :
  Forall (fun c => p c = false) l -> not_headed p l.
Proof. intros H. destruct H; simpl; trivial. Qed.

Lemma strip_with_id sp l :
  Forall (fun c => sp c = false) l -> strip_with sp l = l.
Proof.
  intros H. unfold strip_with.
  rewrite (lstrip_with_id sp l) by now apply Forall_not_headed.
  rewrite lstrip_with_id; [apply rev_involutive|].
  apply Forall_not_headed, Forall_rev, H.
Qed.

Lemma drop_underscores_id l : forall prev,
  Ascii.eqb prev "_" = false ->
  Forall (fun c => Ascii.eqb c "_" = false) l ->
  drop_underscores prev l = Some l.
Proof.
  induction l as [|c l IH]; intros prev Hp Hl; simpl.
  - now rewrite Hp.
  - inversion Hl as [|? ? Hc Hl']; subst.
    rewrite Hc, Hp. simpl. now rewrite IH.
Qed.

Lemma numeral_chars sg ip fp :
  numeral_ok sg ip fp -> Forall numeral_char (numeral sg ip fp).
Proof.
  intros [Hsg Hip _ Hfp]. unfold numeral.
  apply Forall_app; split; [|apply Forall_app; split].
  - destruct Hsg as [-> | [-> | ->]]; repeat constructor;
      right; left; reflexivity.
  - eapply Forall_impl; [|exact Hip]. intros c Hc. now left.
  - unfold frac. destruct fp; [constructor|].
    constructor; [right; right; reflexivity|].
    eapply Forall_impl; [|exact Hfp]. intros c Hc. now left.
Qed.

Lemma numeral_char_facts c :
  numeral_char c ->
  float_space c = false /\ isspace c = false /\ Ascii.eqb c "_" = false /\
  is_hemi c = false.
Proof.
  intros [H | [H | ->]].
  - apply isdigit_facts in H. tauto.
  - apply is_sign_facts in H. tauto.
  - repeat split.
Qed.

Lemma is_minus_sign sg :
  sg = [] \/ sg = ["+"%char] \/ sg = ["-"%char] ->
  is_minus sg = true <-> sg = ["-"%char].
Proof.
  intros [-> | [-> | ->]]; vm_compute; split; intros H;
    try discriminate; reflexivity.
Qed.

Lemma take_sign_numeral sg ip fp :
  numeral_ok sg ip fp ->
  take_sign (numeral sg ip fp) = (sg, ip ++ frac fp).
Proof.
  intros [Hsg Hip Hne _]. unfold numeral.
  destruct Hsg as [-> | [-> | ->]]; try reflexivity.
  destruct ip as [|c ip]; [contradiction|]. simpl.
  inversion Hip as [|? ? Hc _]; subst.
  apply isdigit_facts in Hc. destruct Hc as (Hs & _). now rewrite Hs.
Qed.

Lemma not_keyword c l kw :
  isdigit c = true ->
  (kw = chars "inf" \/ kw = chars "infinity" \/ kw = chars "nan") ->
  eqb_chars (map lower_char (c :: l)) kw = false.
Proof.
  intros Hc Hkw. apply isdigit_facts in Hc.
  destruct Hc as (_ & _ & _ & _ & Hl & _ & _ & Hi & Hn).
  simpl. rewrite Hl.
  destruct Hkw as [-> | [-> | ->]]; simpl; now rewrite ?Hi, ?Hn.
Qed.

Lemma frac_not_headed_digit fp : not_headed isdigit (frac fp).
Proof. destruct fp; simpl; trivial. Qed.

(** [float] of a numeral is the nearest binary64 of the decimal it writes;
    it does not raise. *)
Lemma float_of_numeral sg ip fp :
  numeral_ok sg ip fp ->
  float_of_chars (numeral sg ip fp) =
  Some (of_decimal (is_minus sg) (digits_value (ip ++ fp))
                   (- Z.of_nat (List.length fp))).
Proof.
  intros Hok. unfold float_of_chars.
  pose proof (numeral_chars sg ip fp Hok) as Hch.
  rewrite strip_with_id
    by (eapply Forall_impl; [|exact Hch]; intros c Hc;
        now apply numeral_char_facts in Hc).
  rewrite drop_underscores_id;
    [|reflexivity|
     eapply Forall_impl; [|exact Hch]; intros c Hc;
     now apply numeral_char_facts in Hc].
  rewrite take_sign_numeral by exact Hok.
  destruct Hok as [_ Hip Hne Hfp].
  unfold parse_unsigned.
  destruct ip as [|c ip]; [contradiction|].
  inversion Hip as [|? ? Hc Hip']; subst.
  change ((c :: ip) ++ frac fp) with (c :: (ip ++ frac fp)).
  rewrite !(not_keyword c) by auto. simpl orb. cbv iota.
  change (c :: (ip ++ frac fp)) with ((c :: ip) ++ frac fp).
  rewrite (span_digits_app (c :: ip) (frac fp) Hip (frac_not_headed_digit fp)).
  destruct fp as [|f fp].
  - unfold frac, parse_exponent. rewrite app_nil_r. reflexivity.
  - unfold frac. rewrite Ascii.eqb_refl.
    rewrite <- (app_nil_r (f :: fp)) at 1.
    rewrite (span_digits_app (f :: fp) [] Hfp I).
    unfold parse_exponent. reflexivity.
Qed.

(** ** The two scans find the same numbers *)

Lemma findall_number_cons c r :
  findall_number (c :: r) =
  match match_number (c :: r) with
  | Some (t, rest) => t :: findall_number rest
  | None => findall_number r
  end.
Proof. apply findall_cons, match_number_consumes. Qed.

Lemma findall_hemi_cons c r :
  findall_hemi (c :: r) =
  match match_hemi (c :: r) with
  | Some (t, rest) => t :: findall_hemi rest
  | None => findall_hemi r
  end.
Proof. apply findall_cons, match_hemi_consumes. Qed.

(** No number starts at a character that is neither a sign nor a digit. *)
Lemma match_number_none c r :
  is_sign c = false -> isdigit c = false -> match_number (c :: r) = None.
Proof.
  intros Hs Hd. unfold match_number, take_sign, digits1. rewrite Hs.
  simpl. now rewrite Hd.
Qed.

(** The numbers captured by the hemisphere pattern are the matches of the
    plain pattern: a hemisphere letter starts no number. *)
Lemma findall_hemi_numbers l :
  map fst (findall_hemi l) = findall_number l.
Proof.
  remember (List.length l) as n eqn:Hn.
  revert l Hn. induction n as [n IH] using lt_wf_ind. intros l Hn.
  destruct l as [|c r]; [reflexivity|].
  rewrite findall_hemi_cons, findall_number_cons.
  destruct (match_hemi (c :: r)) as [[[num hemi] rest]|] eqn:E.
  - pose proof (match_hemi_consumes _ _ _ E) as Hlen.
    apply match_hemi_spec in E.
    destruct E as (r0 & Hm & -> & Hh). rewrite Hm. simpl. f_equal.
    destruct Hh as [[-> _] | (h & -> & Hh)].
    + simpl. eapply IH; [|reflexivity]. lia.
    + simpl. rewrite findall_number_cons.
      apply is_hemi_facts in Hh. destruct Hh as (Hd & Hs & _).
      rewrite match_number_none by assumption.
      eapply IH; [|reflexivity]. lia.
  - unfold match_hemi in E.
    destruct (match_number (c :: r)) as [[num r0]|].
    + destruct r0 as [|h r0]; [discriminate|]. destruct (is_hemi h); discriminate.
    + eapply IH; [|reflexivity]. simpl in Hn. lia.
Qed.

(** ** [str.strip] does not change what the plain scan finds *)

Lemma lstrip_split l :
  exists ws, all_space ws /\ l = ws ++ lstrip_with isspace l.
Proof.
  induction l as [|c l (ws & Hws & IH)]; simpl.
  - exists []. split; [constructor|reflexivity].
  - destruct (isspace c) eqn:E.
    + exists (c :: ws). split; [constructor; assumption|]. simpl. now f_equal.
    + exists []. split; [constructor|reflexivity].
Qed.

Lemma strip_split l :
  exists ws1 ws2, all_space ws1 /\ all_space ws2 /\
    l = ws1 ++ strip l ++ ws2.
Proof.
  destruct (lstrip_split l) as (ws1 & H1 & E1).
  destruct (lstrip_split (rev (lstrip_with isspace l))) as (ws2 & H2 & E2).
  exists ws1, (rev ws2). repeat split; [assumption|now apply Forall_rev|].
  unfold strip, strip_with. rewrite E1 at 1. f_equal.
  rewrite <- rev_app_distr, <- E2. now rewrite rev_involutive.
Qed.

Lemma findall_number_spaces ws : all_space ws -> findall_number ws = [].
Proof.
  induction 1 as [|c ws Hc _ IH]; [reflexivity|].
  rewrite findall_number_cons.
  apply isspace_facts in Hc. destruct Hc as (Hd & Hs & _).
  now rewrite match_number_none.
Qed.

Lemma findall_number_lspaces ws l :
  all_space ws -> findall_number (ws ++ l) = findall_number l.
Proof.
  induction 1 as [|c ws Hc _ IH]; [reflexivity|].
  simpl. rewrite findall_number_cons.
  apply isspace_facts in Hc. destruct Hc as (Hd & Hs & _).
  now rewrite match_number_none.
Qed.

Lemma span_digits_then l ws :
  space_headed ws ->
  span_digits (l ++ ws) =
  (fst (span_digits l), snd (span_digits l) ++ ws).
Proof.
  intros Hws. induction l as [|c l IH]; simpl.
  - destruct ws as [|w ws]; [reflexivity|]. simpl in Hws |- *.
    apply isspace_facts in Hws. destruct Hws as (Hd & _). now rewrite Hd.
  - destruct (isdigit c); [|reflexivity].
    rewrite IH. now destruct (span_digits l).
Qed.

Lemma digits1_then l ws :
  space_headed ws ->
  digits1 (l ++ ws) =
  match digits1 l with
  | Some (d, r) => Some (d, r ++ ws)
  | None => None
  end.
Proof.
  intros Hws. unfold digits1. rewrite span_digits_then by exact Hws.
  destruct (span_digits l) as [[|c d] r]; reflexivity.
Qed.

(** White space after the text does not change the number at its head. *)
Lemma match_number_then c l ws :
  space_headed ws ->
  match_number ((c :: l) ++ ws) =
  match match_number (c :: l) with
  | Some (num, rest) => Some (num, rest ++ ws)
  | None => None
  end.
Proof.
  intros Hws. unfold match_number.
  assert (Hts : take_sign ((c :: l) ++ ws) =
                (fst (take_sign (c :: l)), snd (take_sign (c :: l)) ++ ws)).
  { simpl. now destruct (is_sign c). }
  rewrite Hts. destruct (take_sign (c :: l)) as [sg l1]. simpl fst. simpl snd.
  rewrite digits1_then by exact Hws.
  destruct (digits1 l1) as [[ip l2]|]; [|reflexivity].
  destruct l2 as [|d l3].
  - simpl. destruct ws as [|w ws]; [reflexivity|]. simpl in Hws |- *.
    apply isspace_facts in Hws. destruct Hws as (_ & _ & Hdot & _).
    now rewrite Hdot.
  - simpl. destruct (Ascii.eqb d "."); [|reflexivity].
    rewrite digits1_then by exact Hws.
    destruct (digits1 l3) as [[fp l4]|]; reflexivity.
Qed.

Lemma findall_number_rspaces l ws :
  all_space ws -> findall_number (l ++ ws) = findall_number l.
Proof.
  intros Hws.
  remember (List.length l) as n eqn:Hn.
  revert l Hn. induction n as [n IH] using lt_wf_ind. intros l Hn.
  destruct l as [|c r].
  - simpl. now apply findall_number_spaces.
  - change ((c :: r) ++ ws) with (c :: (r ++ ws)).
    rewrite !findall_number_cons.
    change (c :: (r ++ ws)) with ((c :: r) ++ ws).
    rewrite match_number_then by (destruct Hws; simpl; trivial).
    destruct (match_number (c :: r)) as [[num rest]|] eqn:E.
    + f_equal. apply match_number_consumes in E.
      eapply IH; [|reflexivity]. lia.
    + eapply IH; [|reflexivity]. simpl in Hn. lia.
Qed.

Lemma findall_number_strip l :
  findall_number (strip l) = findall_number l.
Proof.
  destruct (strip_split l) as (ws1 & ws2 & H1 & H2 & E).
  rewrite E at 2.
  rewrite findall_number_lspaces by exact H1.
  now rewrite findall_number_rspaces.
Qed.

(** ** Texts made of numerals *)

(** A numeral at the head of a text is what [match_number] finds, when no
    digit and no point follows it. *)
Lemma match_number_numeral sg ip fp rest :
  numeral_ok sg ip fp ->
  not_headed isdigit rest -> not_headed is_dot rest ->
  match_number (numeral sg ip fp ++ rest) = Some (numeral sg ip fp, rest).
Proof.
  intros Hok Hd Hp. pose proof Hok as [Hsg Hip Hne Hfp].
  unfold match_number.
  assert (Hts : take_sign (numeral sg ip fp ++ rest) =
                (sg, ip ++ frac fp ++ rest)).
  { unfold numeral. rewrite <- !app_assoc.
    destruct Hsg as [-> | [-> | ->]]; try reflexivity.
    destruct ip as [|c ip]; [contradiction|]. simpl.
    inversion Hip as [|? ? Hc _]; subst.
    apply isdigit_facts in Hc. destruct Hc as (Hs & _). now rewrite Hs. }
  rewrite Hts.
  assert (Hfr : not_headed isdigit (frac fp ++ rest)).
  { destruct fp; [exact Hd|reflexivity]. }
  rewrite (digits1_app ip (frac fp ++ rest) Hne Hip Hfr).
  unfold numeral. destruct fp as [|f fp].
  - cbn [frac app]. rewrite app_nil_r.
    destruct rest as [|c rest]; [reflexivity|].
    simpl in Hp. unfold is_dot in Hp. now rewrite Hp.
  - cbn [frac app]. rewrite Ascii.eqb_refl.
    change (f :: fp ++ rest) with ((f :: fp) ++ rest).
    rewrite (digits1_app (f :: fp) rest ltac:(discriminate) Hfp Hd).
    reflexivity.
Qed.

Lemma match_hemi_numeral sg ip fp h rest :
  numeral_ok sg ip fp -> is_hemi h = true ->
  match_hemi (numeral sg ip fp ++ h :: rest) =
  Some ((numeral sg ip fp, [h]), rest).
Proof.
  intros Hok Hh. unfold match_hemi.
  pose proof (is_hemi_facts h Hh) as (Hd & _ & Hp & _).
  rewrite match_number_numeral by assumption. now rewrite Hh.
Qed.

Lemma findall_hemi_match l t rest :
  match_hemi l = Some (t, rest) -> findall_hemi l = t :: findall_hemi rest.
Proof.
  destruct l as [|c r]; [discriminate|].
  intros H. now rewrite findall_hemi_cons, H.
Qed.

(** Characters that start no number are skipped. *)
Lemma findall_hemi_skip sep l :
  Forall (fun c => is_sign c = false /\ isdigit c = false) sep ->
  findall_hemi (sep ++ l) = findall_hemi l.
Proof.
  induction 1 as [|c sep [Hs Hd] _ IH]; [reflexivity|].
  simpl. rewrite findall_hemi_cons. unfold match_hemi.
  now rewrite match_number_none.
Qed.

Lemma strip_with_ends sp l :
  not_headed sp l -> not_headed sp (rev l) -> strip_with sp l = l.
Proof.
  intros H1 H2. unfold strip_with.
  rewrite (lstrip_with_id sp l H1), (lstrip_with_id sp (rev l) H2).
  apply rev_involutive.
Qed.

End Text.

(* ------------------------------------------------------------------ *)
(** * Coordinate extractor and validator *)
(* ------------------------------------------------------------------ *)

Module Geo.

Import Float64 Text.

(** The Python values that reach these functions: [None], a float (NaN
    is pandas' missing value), an integer, a string. *)
Inductive pyval : Type :=
| VNone
| VFloat (x : float)
| VInt (z : Z)
| VStr (s : string).

(** [np.nan] *)
Definition np_nan : pyval := VFloat nan.

Definition is_not_none (v : pyval) : bool :=
  match v with VNone => false | _ => true end.

(** [pd.isna(v)] on a scalar. *)
Definition pd_isna (v : pyval) : bool :=
  match v with
  | VNone => true
  | VFloat x => isnan x
  | VInt _ | VStr _ => false
  end.

(** [float(v)]; [None] is the exception it raises ([TypeError],
    [OverflowError] or [ValueError]). *)
Definition py_float (v : pyval) : option float :=
  match v with
  | VNone => None
  | VFloat x => Some x
  | VInt z => of_int z
  | VStr s => float_of_chars (chars s)
  end.

(** One round of the loop of [_parse_ns_ew]: the value appended to [nums]
    for the number [x] captured with the letter [hemi]. *)
Definition hemi_adjust (hemi : list ascii) (x : float) : float :=
  if eqb_chars (upper hemi) (chars "S") then neg (abs x)
  else if eqb_chars (upper hemi) (chars "N") then abs x
  else if eqb_chars (upper hemi) (chars "W") then neg (abs x)
  else if eqb_chars (upper hemi) (chars "E") then abs x
  else x.

(** The loop [for num, hemi in tokens] started with the list [nums];
    [None] when a [float(num)] raises. *)
Fixpoint parse_tokens (tokens : list (list ascii * list ascii))
  (nums : list float) : option (list float) :=
  match tokens with
  | [] => Some nums
  | (num, hemi) :: rest =>
      match float_of_chars num with
      | None => None
      | Some x => parse_tokens rest (nums ++ [hemi_adjust hemi x])
      end
  end.

(** [def _parse_ns_ew(val)] *)
Definition _parse_ns_ew (val : pyval) : option (pyval * pyval) :=
  match val with
  | VStr s =>
      let tokens := findall_hemi (strip (chars s)) in
      match parse_tokens tokens [] with
      | None => None
      | Some (x :: y :: _) => Some (VFloat x, VFloat y)
      | Some _ => Some (VNone, VNone)
      end
  | _ => Some (VNone, VNone)
  end.

(** The [return] statement of [_extract_lat_lon_from_text] that produced
    the result, in the order of the source. *)
Inductive branch : Type :=
| NotAString
| HemisphereScan
| PlainScan
| NotFound.

(** [def _extract_lat_lon_from_text(s)], with the [return] taken. *)
Definition extract_traced (s : pyval) : option (branch * (pyval * pyval)) :=
  match s with
  | VStr t =>
      match _parse_ns_ew s with
      | None => None
      | Some (lat, lon) =>
          if is_not_none lat && is_not_none lon
          then Some (HemisphereScan, (lat, lon))
          else
            match findall_number (chars t) with
            | a :: b :: _ =>
                match float_of_chars a with
                | None => None
                | Some x =>
                    match float_of_chars b with
                    | None => None
                    | Some y => Some (PlainScan, (VFloat x, VFloat y))
                    end
                end
            | _ => Some (NotFound, (np_nan, np_nan))
            end
      end
  | _ => Some (NotAString, (np_nan, np_nan))
  end.

Definition _extract_lat_lon_from_text (s : pyval) : option (pyval * pyval) :=
  option_map snd (extract_traced s).

(** The body of the [try] of [_valid_lat_lon]. *)
Definition valid_lat_lon_try (lat lon : pyval) : option bool :=
  if pd_isna lat || pd_isna lon then Some false
  else
    match py_float lat with
    | None => None
    | Some lat =>
        match py_float lon with
        | None => None
        | Some lon =>
            Some (isfinite lat && isfinite lon
                  && (le (neg f90) lat && le lat f90)
                  && (le (neg f180) lon && le lon f180))
        end
    end.

(** [def _valid_lat_lon(lat, lon)]: [except Exception: return False]. *)
Definition _valid_lat_lon (lat lon : pyval) : bool :=
  match valid_lat_lon_try lat lon with
  | Some b => b
  | None => false
  end.

(** ** Notions used to state the properties *)

(** A token is a numeral with no letter or one hemisphere letter. *)
Definition token_ok (t : list ascii * list ascii) : Prop :=
  (exists sg ip fp, numeral_ok sg ip fp /\ fst t = numeral sg ip fp) /\
  (snd t = [] \/ exists c, snd t = [c] /\ is_hemi c = true).

(** The sign convention in the words of the design: a letter S or W makes
    the value [-|x|], a letter N or E makes it [|x|], no letter leaves [x]. *)
Inductive hemisphere_rule : list ascii -> float -> float -> Prop :=
| rule_south_west c x :
    In c (chars "SsWw") -> hemisphere_rule [c] x (neg (abs x))
| rule_north_east c x :
    In c (chars "NnEe") -> hemisphere_rule [c] x (abs x)
| rule_no_letter x :
    hemisphere_rule [] x x.

(** [-b <= x <= b] in the order of the floats. *)
Definition within (b x : float) : Prop :=
  le (neg b) x = true /\ le x b = true.

(** 12.5 and -77.0. *)
Definition f12_5 : float := Eval vm_compute in of_decimal false 125 (-1).
Definition fm77 : float := Eval vm_compute in of_decimal true 77 0.

(** The text [<num><hemi><sep><num><hemi>], where [sep] holds no sign and
    no digit. *)
Definition hemi_pair (n1 : list ascii) (h1 : ascii) (sep n2 : list ascii)
  (h2 : ascii) : list ascii :=
  n1 ++ h1 :: sep ++ n2 ++ [h2].

(** The floats the literals [23.5], [45.2], [91.0] and [10.0] denote. *)
Definition f23_5 : float := Eval vm_compute in of_decimal false 235 (-1).
Definition f45_2 : float := Eval vm_compute in of_decimal false 452 (-1).
Definition f91 : float := Eval vm_compute in of_decimal false 910 (-1).
Definition f10 : float := Eval vm_compute in of_decimal false 100 (-1).

(** ** Tokens of the hemisphere scan *)

Lemma findall_hemi_tokens l : Forall token_ok (findall_hemi l).
Proof.
  apply findall_Forall.
  - intros l0 t rest. apply match_hemi_consumes.
  - intros l0 [num hemi] rest H.
    apply match_hemi_spec in H. destruct H as (r & Hm & _ & Hh).
    apply match_number_spec in Hm. destruct Hm as (_ & Hnum).
    split; [exact Hnum|]. simpl.
    destruct Hh as [[-> _] | Hh]; [now left | now right].
Qed.

Lemma token_float t :
  token_ok t -> exists x, float_of_chars (fst t) = Some x.
Proof.
  intros [(sg & ip & fp & Hok & ->) _]. eexists.
  now apply float_of_numeral.
Qed.

Lemma hemi_adjust_rule hemi x :
  (hemi = [] \/ exists c, hemi = [c] /\ is_hemi c = true) ->
  hemisphere_rule hemi x (hemi_adjust hemi x).
Proof.
  intros [-> | (c & -> & Hc)].
  - apply rule_no_letter.
  - apply is_hemi_facts in Hc. destruct Hc as (_ & _ & _ & Hin).
    simpl in Hin.
    repeat (destruct Hin as [<- | Hin];
            [first [ apply rule_south_west; simpl; tauto
                   | apply rule_north_east; simpl; tauto ] |]).
    contradiction.
Qed.

(** The sign convention in numbers. *)
Lemma hemisphere_rule_value h x r :
  hemisphere_rule h x r ->
  match h with
  | [] => r = x
  | c :: _ =>
      if existsb (Ascii.eqb c) (chars "SsWw")
      then (value r == - Qabs (value x))%Q /\
           (isnan x = false -> signbit r = true)
      else (value r == Qabs (value x))%Q /\ signbit r = false
  end.
Proof.
  intros [c x0 Hc | c x0 Hc | x0].
  - simpl in Hc.
    assert (E : existsb (Ascii.eqb c) (chars "SsWw") = true).
    { apply existsb_exists. exists c. split; [exact Hc|apply Ascii.eqb_refl]. }
    rewrite E. split; [|apply neg_abs_signbit].
    now rewrite value_neg, value_abs.
  - assert (E : existsb (Ascii.eqb c) (chars "SsWw") = false).
    { simpl in Hc. repeat (destruct Hc as [<- | Hc]; [reflexivity|]).
      contradiction. }
    rewrite E. split; [apply value_abs|apply abs_signbit].
  - reflexivity.
Qed.

(** The loop of [_parse_ns_ew] does not raise on the tokens of the scan,
    and appends one value per token. *)
Lemma parse_tokens_total tokens :
  Forall token_ok tokens ->
  forall nums, exists vals,
    parse_tokens tokens nums = Some (nums ++ vals) /\
    Forall2 (fun t v => exists x, float_of_chars (fst t) = Some x /\
                                  v = hemi_adjust (snd t) x) tokens vals.
Proof.
  induction 1 as [|[num hemi] tokens Ht _ IH]; intros nums.
  - exists []. split; [simpl; now rewrite app_nil_r | constructor].
  - destruct (token_float _ Ht) as (x & Hx). simpl in Hx.
    destruct (IH (nums ++ [hemi_adjust hemi x])) as (vals & Hp & Hv).
    exists (hemi_adjust hemi x :: vals). split.
    + simpl. rewrite Hx, Hp. now rewrite <- app_assoc.
    + constructor; [|exact Hv]. exists x. now split.
Qed.

(** What [_parse_ns_ew] returns on a string, from the tokens found. *)
Lemma parse_ns_ew_str s :
  match findall_hemi (strip (chars s)) with
  | (n1, h1) :: (n2, h2) :: _ =>
      exists x1 x2,
        float_of_chars n1 = Some x1 /\ float_of_chars n2 = Some x2 /\
        _parse_ns_ew (VStr s) =
          Some (VFloat (hemi_adjust h1 x1), VFloat (hemi_adjust h2 x2))
  | _ => _parse_ns_ew (VStr s) = Some (VNone, VNone)
  end.
Proof.
  unfold _parse_ns_ew.
  pose proof (findall_hemi_tokens (strip (chars s))) as Htok.
  destruct (parse_tokens_total _ Htok []) as (vals & Hp & Hv).
  rewrite Hp. simpl.
  destruct Hv as [|[n1 h1] v1 tokens vals (x1 & Hx1 & ->) Hv]; [reflexivity|].
  destruct Hv as [|[n2 h2] v2 tokens vals (x2 & Hx2 & ->) Hv]; [reflexivity|].
  exists x1, x2. simpl in Hx1, Hx2. now repeat split.
Qed.

(** What [_extract_lat_lon_from_text] returns on a string, and by which
    [return], from the tokens of the hemisphere scan. *)
Lemma extract_traced_str s :
  match findall_hemi (strip (chars s)) with
  | (n1, h1) :: (n2, h2) :: _ =>
      exists x1 x2,
        float_of_chars n1 = Some x1 /\ float_of_chars n2 = Some x2 /\
        extract_traced (VStr s) =
          Some (HemisphereScan,
                (VFloat (hemi_adjust h1 x1), VFloat (hemi_adjust h2 x2)))
  | _ => extract_traced (VStr s) = Some (NotFound, (np_nan, np_nan))
  end.
Proof.
  pose proof (parse_ns_ew_str s) as Hp.
  pose proof (findall_hemi_numbers (strip (chars s))) as Hn.
  rewrite findall_number_strip in Hn.
  unfold extract_traced.
  destruct (findall_hemi (strip (chars s))) as [|[n1 h1] [|[n2 h2] rest]].
  - rewrite Hp. simpl. now rewrite <- Hn.
  - rewrite Hp. simpl. now rewrite <- Hn.
  - destruct Hp as (x1 & x2 & H1 & H2 & Hp). exists x1, x2.
    rewrite Hp. now repeat split.
Qed.

Lemma findall_hemi_pair sg1 ip1 fp1 h1 sep sg2 ip2 fp2 h2 :
  numeral_ok sg1 ip1 fp1 -> numeral_ok sg2 ip2 fp2 ->
  is_hemi h1 = true -> is_hemi h2 = true ->
  Forall (fun c => is_sign c = false /\ isdigit c = false) sep ->
  findall_hemi (strip (hemi_pair (numeral sg1 ip1 fp1) h1 sep
                                 (numeral sg2 ip2 fp2) h2)) =
  [(numeral sg1 ip1 fp1, [h1]); (numeral sg2 ip2 fp2, [h2])].
Proof.
  intros Hok1 Hok2 Hh1 Hh2 Hsep. unfold hemi_pair.
  assert (Hstrip : forall l, strip (numeral sg1 ip1 fp1 ++ l ++ [h2]) =
                             numeral sg1 ip1 fp1 ++ l ++ [h2]).
  { intros l. apply strip_with_ends.
    - pose proof (numeral_chars _ _ _ Hok1) as Hch.
      pose proof (numeral_nonempty _ _ _ Hok1) as Hne.
      destruct (numeral sg1 ip1 fp1) as [|c n]; [contradiction|].
      inversion Hch as [|? ? Hc _]; subst. simpl.
      now apply numeral_char_facts in Hc.
    - rewrite !rev_app_distr. simpl.
      destruct h2 as [[] [] [] [] [] [] [] []]; try discriminate Hh2;
        reflexivity. }
  assert (E : numeral sg1 ip1 fp1 ++ h1 :: sep ++ numeral sg2 ip2 fp2 ++ [h2] =
              numeral sg1 ip1 fp1 ++ (h1 :: sep ++ numeral sg2 ip2 fp2) ++ [h2]).
  { simpl. now rewrite <- app_assoc. }
  rewrite E, Hstrip, <- E.
  rewrite (findall_hemi_match _ _ _
             (match_hemi_numeral sg1 ip1 fp1 h1 _ Hok1 Hh1)).
  rewrite findall_hemi_skip by exact Hsep.
  rewrite (findall_hemi_match _ _ _
             (match_hemi_numeral sg2 ip2 fp2 h2 [] Hok2 Hh2)).
  reflexivity.
Qed.

(** ** The validator *)

Lemma valid_lat_lon_floats x y :
  _valid_lat_lon (VFloat x) (VFloat y) =
  isfinite x && isfinite y && (le (neg f90) x && le x f90)
  && (le (neg f180) y && le y f180).
Proof.
  unfold _valid_lat_lon, valid_lat_lon_try. simpl.
  destruct x, y; reflexivity.
Qed.

Lemma within_value b x :
  valid b = true -> isfinite b = true ->
  valid x = true -> isfinite x = true ->
  within b x <-> (- value b <= value x <= value b)%Q.
Proof.
  intros Vb Fb Vx Fx. unfold within.
  assert (Vn : valid (neg b) = true) by (destruct b; exact Vb).
  assert (Fn : isfinite (neg b) = true) by (destruct b; exact Fb).
  rewrite (le_value (neg b) x Vn Vx Fn Fx), (le_value x b Vx Vb Fx Fb).
  now rewrite value_neg.
Qed.

Lemma within_bound b (n : Q) x :
  valid b = true -> isfinite b = true -> (value b == n)%Q ->
  valid x = true -> isfinite x = true ->
  within b x <-> (- n <= value x <= n)%Q.
Proof.
  intros Vb Fb En Vx Fx.
  rewrite (within_value b x Vb Fb Vx Fx). now rewrite En.
Qed.

(** C2.  [_valid_lat_lon] answers [True] exactly when both values are
    present (neither [None] nor NaN), convert to a float, are finite and
    lie in [-90, 90] and [-180, 180]; an exception raised while converting
    is answered [False].  For two binary64 values the bounds are those of
    the numbers they stand for. *)
Theorem valid_lat_lon_iff :
  (forall lat lon : pyval,
      _valid_lat_lon lat lon = true <->
      exists x y,
        pd_isna lat = false /\ pd_isna lon = false /\
        py_float lat = Some x /\ py_float lon = Some y /\
        isfinite x = true /\ isfinite y = true /\
        within f90 x /\ within f180 y) /\
  (forall lat lon : pyval,
      valid_lat_lon_try lat lon = None -> _valid_lat_lon lat lon = false) /\
  (forall x y : float,
      valid x = true -> valid y = true ->
      (_valid_lat_lon (VFloat x) (VFloat y) = true <->
       isfinite x = true /\ isfinite y = true /\
       (-90 <= value x <= 90)%Q /\ (-180 <= value y <= 180)%Q)).
Proof.
  split; [|split].
  - intros lat lon. unfold _valid_lat_lon, valid_lat_lon_try, within.
    destruct (pd_isna lat) eqn:Ilat; simpl.
    { split; [discriminate|]. intros (x & y & H & _). discriminate. }
    destruct (pd_isna lon) eqn:Ilon; simpl.
    { split; [discriminate|]. intros (x & y & _ & H & _). discriminate. }
    destruct (py_float lat) as [x|].
    2:{ split; [discriminate|]. intros (a & b & _ & _ & H & _). discriminate. }
    destruct (py_float lon) as [y|].
    2:{ split; [discriminate|]. intros (a & b & _ & _ & _ & H & _). discriminate. }
    rewrite !andb_true_iff. split.
    + intros [[[Fx Fy] [L1 L2]] [L3 L4]]. exists x, y. tauto.
    + intros (x' & y' & _ & _ & Hx & Hy & H).
      injection Hx as <-. injection Hy as <-. tauto.
  - intros lat lon H. unfold _valid_lat_lon. now rewrite H.
  - intros x y Vx Vy. rewrite valid_lat_lon_floats.
    rewrite !andb_true_iff.
    split.
    + intros [[[Fx Fy] [L1 L2]] [L3 L4]].
      split; [exact Fx|]. split; [exact Fy|].
      split.
      * apply (within_bound f90 90 x eq_refl eq_refl (proj2 f90_is_90) Vx Fx).
        now split.
      * apply (within_bound f180 180 y eq_refl eq_refl (proj2 f180_is_180) Vy Fy).
        now split.
    + intros (Fx & Fy & Hx & Hy).
      apply (within_bound f90 90 x eq_refl eq_refl (proj2 f90_is_90) Vx Fx) in Hx.
      apply (within_bound f180 180 y eq_refl eq_refl (proj2 f180_is_180) Vy Fy) in Hy.
      destruct Hx, Hy. tauto.
Qed.

Lemma valid_lat_lon_iff_witness :
  _valid_lat_lon (VFloat f12_5) (VFloat fm77) = true.
Proof.
  apply (proj2 (proj2 valid_lat_lon_iff) f12_5 fm77 eq_refl eq_refl).
  repeat split; vm_compute; discriminate.
Defined.

(** ** The extractor *)

(** C3.  When the hemisphere scan of the stripped text finds two tokens or
    more, the extractor returns the numbers of the first two, in order, each
    under the sign convention of its letter: [-|x|] for S or W, [|x|] for N
    or E, [x] itself without a letter.  A text [<num><hemi> <num><hemi>]
    has exactly these two tokens, so each sign is that of the letter.  In
    numbers, [-|x|] has the sign bit set and [|x|] has it clear.  The text
    [23.5S 45.2W] gives [(-23.5, -45.2)]. *)
Theorem extract_sign_convention :
  (forall s n1 h1 n2 h2 rest,
      findall_hemi (strip (chars s)) = (n1, h1) :: (n2, h2) :: rest ->
      exists x1 x2 lat lon,
        float_of_chars n1 = Some x1 /\ float_of_chars n2 = Some x2 /\
        hemisphere_rule h1 x1 lat /\ hemisphere_rule h2 x2 lon /\
        _parse_ns_ew (VStr s) = Some (VFloat lat, VFloat lon) /\
        _extract_lat_lon_from_text (VStr s) = Some (VFloat lat, VFloat lon)) /\
  (forall sg1 ip1 fp1 h1 sep sg2 ip2 fp2 h2,
      numeral_ok sg1 ip1 fp1 -> numeral_ok sg2 ip2 fp2 ->
      is_hemi h1 = true -> is_hemi h2 = true ->
      Forall (fun c => is_sign c = false /\ isdigit c = false) sep ->
      exists lat lon,
        hemisphere_rule [h1]
          (of_decimal (is_minus sg1) (digits_value (ip1 ++ fp1))
                      (- Z.of_nat (List.length fp1))) lat /\
        hemisphere_rule [h2]
          (of_decimal (is_minus sg2) (digits_value (ip2 ++ fp2))
                      (- Z.of_nat (List.length fp2))) lon /\
        _extract_lat_lon_from_text
          (VStr (string_of_list_ascii
                   (hemi_pair (numeral sg1 ip1 fp1) h1 sep
                              (numeral sg2 ip2 fp2) h2))) =
          Some (VFloat lat, VFloat lon)) /\
  (forall h x r,
      hemisphere_rule h x r ->
      match h with
      | [] => r = x
      | c :: _ =>
          if existsb (Ascii.eqb c) (chars "SsWw")
          then (value r == - Qabs (value x))%Q /\
               (isnan x = false -> signbit r = true)
          else (value r == Qabs (value x))%Q /\ signbit r = false
      end) /\
  _extract_lat_lon_from_text (VStr "23.5S 45.2W") =
    Some (VFloat (neg f23_5), VFloat (neg f45_2)).
Proof.
  assert (General : forall s n1 h1 n2 h2 rest,
      findall_hemi (strip (chars s)) = (n1, h1) :: (n2, h2) :: rest ->
      exists x1 x2 lat lon,
        float_of_chars n1 = Some x1 /\ float_of_chars n2 = Some x2 /\
        hemisphere_rule h1 x1 lat /\ hemisphere_rule h2 x2 lon /\
        _parse_ns_ew (VStr s) = Some (VFloat lat, VFloat lon) /\
        _extract_lat_lon_from_text (VStr s) = Some (VFloat lat, VFloat lon)).
  { intros s n1 h1 n2 h2 rest Htok.
    pose proof (findall_hemi_tokens (strip (chars s))) as Hok.
    pose proof (parse_ns_ew_str s) as Hp.
    pose proof (extract_traced_str s) as He.
    rewrite Htok in Hok, Hp, He.
    destruct Hp as (x1 & x2 & H1 & H2 & Hp).
    destruct He as (y1 & y2 & H1' & H2' & He).
    rewrite H1 in H1'. rewrite H2 in H2'.
    injection H1' as <-. injection H2' as <-.
    inversion Hok as [|? ? [_ Hh1] Hok']; subst.
    inversion Hok' as [|? ? [_ Hh2] _]; subst.
    exists x1, x2, (hemi_adjust h1 x1), (hemi_adjust h2 x2).
    repeat split; try assumption.
    - now apply hemi_adjust_rule.
    - now apply hemi_adjust_rule.
    - unfold _extract_lat_lon_from_text. now rewrite He. }
  split; [exact General|].
  split; [|split; [exact hemisphere_rule_value|reflexivity]].
  intros sg1 ip1 fp1 h1 sep sg2 ip2 fp2 h2 Hok1 Hok2 Hh1 Hh2 Hsep.
  pose proof (findall_hemi_pair sg1 ip1 fp1 h1 sep sg2 ip2 fp2 h2
                Hok1 Hok2 Hh1 Hh2 Hsep) as Htok.
  set (t := hemi_pair (numeral sg1 ip1 fp1) h1 sep (numeral sg2 ip2 fp2) h2)
    in *.
  assert (Hc : chars (string_of_list_ascii t) = t)
    by apply list_ascii_of_string_of_list_ascii.
  rewrite <- Hc in Htok.
  destruct (General _ _ _ _ _ _ Htok)
    as (x1 & x2 & lat & lon & H1 & H2 & R1 & R2 & _ & He).
  rewrite (float_of_numeral _ _ _ Hok1) in H1.
  rewrite (float_of_numeral _ _ _ Hok2) in H2.
  injection H1 as <-. injection H2 as <-.
  exists lat, lon. now repeat split.
Qed.

Lemma extract_sign_convention_witness :
  exists x1 x2 lat lon,
    float_of_chars (chars "23.5") = Some x1 /\
    float_of_chars (chars "45.2") = Some x2 /\
    hemisphere_rule (chars "S") x1 lat /\
    hemisphere_rule (chars "W") x2 lon /\
    _parse_ns_ew (VStr "23.5S 45.2W") = Some (VFloat lat, VFloat lon) /\
    _extract_lat_lon_from_text (VStr "23.5S 45.2W") =
      Some (VFloat lat, VFloat lon).
Proof.
  apply (proj1 extract_sign_convention "23.5S 45.2W"%string
           (chars "23.5") (chars "S") (chars "45.2") (chars "W") []).
  reflexivity.
Defined.

(** C4.  A text in which the plain pattern finds fewer than two numbers
    gives the pair (NaN, NaN), pandas' missing value twice, from the last
    [return]; so does a value that is no string.  No zero is made up. *)
Theorem extract_not_found :
  (forall s,
      (List.length (findall_number (chars s)) < 2)%nat ->
      extract_traced (VStr s) = Some (NotFound, (np_nan, np_nan)) /\
      _extract_lat_lon_from_text (VStr s) = Some (np_nan, np_nan)) /\
  (forall v, (forall s, v <> VStr s) ->
      _extract_lat_lon_from_text v = Some (np_nan, np_nan)) /\
  pd_isna np_nan = true /\
  (forall sign, np_nan <> VFloat (S754_zero sign)).
Proof.
  repeat split.
  - pose proof (extract_traced_str s) as He.
    pose proof (findall_hemi_numbers (strip (chars s))) as Hn.
    rewrite findall_number_strip in Hn. rewrite <- Hn in H.
    destruct (findall_hemi (strip (chars s))) as [|[n1 h1] [|[n2 h2] rest]];
      [exact He | exact He | simpl in H; lia].
  - pose proof (extract_traced_str s) as He.
    pose proof (findall_hemi_numbers (strip (chars s))) as Hn.
    rewrite findall_number_strip in Hn. rewrite <- Hn in H.
    unfold _extract_lat_lon_from_text.
    destruct (findall_hemi (strip (chars s))) as [|[n1 h1] [|[n2 h2] rest]];
      [now rewrite He | now rewrite He | simpl in H; lia].
  - intros v Hv. destruct v; try reflexivity. now elim (Hv s).
  - discriminate.
Qed.

Lemma extract_not_found_witness :
  _extract_lat_lon_from_text (VStr "Lima, sector 12") = Some (np_nan, np_nan).
Proof.
  apply (proj1 extract_not_found "Lima, sector 12"%string).
  vm_compute. lia.
Defined.

(** C10.  The plain scan never supplies the result.  On every string the
    extractor returns what [_parse_ns_ew] found, or (NaN, NaN) when that is
    (None, None); the plain pattern finds two numbers exactly when the
    hemisphere scan finds two tokens, so the result is the first two
    numbers under the sign convention when the text holds two numbers, and
    (NaN, NaN) otherwise. *)
Theorem extract_is_parse_ns_ew (s : string) :
  (forall r, extract_traced (VStr s) <> Some (PlainScan, r)) /\
  _extract_lat_lon_from_text (VStr s) =
    match _parse_ns_ew (VStr s) with
    | Some (VFloat x, VFloat y) => Some (VFloat x, VFloat y)
    | _ => Some (np_nan, np_nan)
    end /\
  map fst (findall_hemi (strip (chars s))) = findall_number (chars s) /\
  match findall_number (chars s) with
  | n1 :: n2 :: _ =>
      exists h1 h2 rest x1 x2,
        findall_hemi (strip (chars s)) = (n1, h1) :: (n2, h2) :: rest /\
        float_of_chars n1 = Some x1 /\ float_of_chars n2 = Some x2 /\
        _extract_lat_lon_from_text (VStr s) =
          Some (VFloat (hemi_adjust h1 x1), VFloat (hemi_adjust h2 x2))
  | _ => _extract_lat_lon_from_text (VStr s) = Some (np_nan, np_nan)
  end.
Proof.
  pose proof (parse_ns_ew_str s) as Hp.
  pose proof (extract_traced_str s) as He.
  pose proof (findall_hemi_numbers (strip (chars s))) as Hn.
  rewrite findall_number_strip in Hn. rewrite <- Hn.
  unfold _extract_lat_lon_from_text.
  destruct (findall_hemi (strip (chars s))) as [|[n1 h1] [|[n2 h2] rest]].
  - rewrite He, Hp. repeat split; try assumption. discriminate.
  - rewrite He, Hp. repeat split; try assumption. discriminate.
  - destruct Hp as (x1 & x2 & H1 & H2 & Hp).
    destruct He as (y1 & y2 & H1' & H2' & He).
    rewrite H1 in H1'. rewrite H2 in H2'.
    injection H1' as <-. injection H2' as <-.
    rewrite He, Hp. repeat split; try assumption; try discriminate.
    simpl. exists h1, h2, rest, x1, x2. now repeat split.
Qed.

(** C5, as stated, fails on [91.0, 10.0]: the pair does not come from the
    plain scan. *)
Lemma extract_91_10_not_plain_scan :
  ~ (extract_traced (VStr "91.0, 10.0") =
       Some (PlainScan, (VFloat f91, VFloat f10))).
Proof. vm_compute. discriminate. Qed.

(** C5, amended.  When the hemisphere scan finds fewer than two tokens the
    extractor goes on to the plain scan and would return its first two
    numbers as they are written; that scan then finds fewer than two
    numbers as well, and the result is (NaN, NaN).  The text [91.0, 10.0]
    gives [(91.0, 10.0)] from the hemisphere scan, whose two tokens carry
    no letter, and the validator rejects the pair. *)
Theorem extract_fallback :
  (forall s,
      (List.length (findall_hemi (strip (chars s))) < 2)%nat ->
      extract_traced (VStr s) =
        match findall_number (chars s) with
        | a :: b :: _ =>
            match float_of_chars a, float_of_chars b with
            | Some x, Some y => Some (PlainScan, (VFloat x, VFloat y))
            | _, _ => None
            end
        | _ => Some (NotFound, (np_nan, np_nan))
        end /\
      (List.length (findall_number (chars s)) < 2)%nat /\
      extract_traced (VStr s) = Some (NotFound, (np_nan, np_nan))) /\
  extract_traced (VStr "91.0, 10.0") =
    Some (HemisphereScan, (VFloat f91, VFloat f10)) /\
  findall_hemi (strip (chars "91.0, 10.0")) =
    [(chars "91.0", []); (chars "10.0", [])] /\
  _valid_lat_lon (VFloat f91) (VFloat f10) = false.
Proof.
  split; [|repeat split].
  intros s Hlen.
  pose proof (extract_traced_str s) as He.
  pose proof (findall_hemi_numbers (strip (chars s))) as Hn.
  rewrite findall_number_strip in Hn.
  assert (Hnum : (List.length (findall_number (chars s)) < 2)%nat).
  { rewrite <- Hn, length_map. exact Hlen. }
  destruct (findall_hemi (strip (chars s))) as [|[n1 h1] [|[n2 h2] rest]];
    [| |simpl in Hlen; lia].
  - rewrite He, <- Hn. simpl. repeat split; assumption.
  - rewrite He, <- Hn. simpl. repeat split; assumption.
Qed.

Lemma extract_fallback_witness :
  extract_traced (VStr "Lima, sector 12") = Some (NotFound, (np_nan, np_nan)).
Proof.
  apply (proj1 extract_fallback "Lima, sector 12"%string).
  vm_compute. lia.
Defined.

End Geo.

(* ------------------------------------------------------------------ *)
(** * Coordinate lookups at the ENA portal *)
(* ------------------------------------------------------------------ *)

Module Ena.

Import Float64 Text Geo.

(** A table read with [dtype=str]: its column labels and its rows.  A row
    gives the text of its cells by column label; a cell with no text is
    missing (NaN). *)
Record DataFrame : Type := {
  columns : list string;
  rows : list (list (string * string))
}.

(** [pd.DataFrame(columns=cols)] *)
Definition DataFrame_of_columns (cols : list string) : DataFrame :=
  {| columns := cols; rows := [] |}.

(** [df.empty]: no column or no row. *)
Definition empty (df : DataFrame) : bool :=
  match columns df, rows df with
  | [], _ | _, [] => true
  | _, _ => false
  end.

Definition lookup (k : string) (kvs : list (string * string))
  : option string :=
  option_map snd (find (fun kv => String.eqb (fst kv) k) kvs).

(** The elements of [l] not in [seen], each once, in order of first
    appearance. *)
Fixpoint unique_from (seen l : list string) : list string :=
  match l with
  | [] => []
  | x :: r =>
      if existsb (String.eqb x) seen then unique_from seen r
      else x :: unique_from (x :: seen) r
  end.

(** [Series.unique()], [Index.union] without sorting. *)
Definition unique (l : list string) : list string := unique_from [] l.

(** [df.rename(columns=m)] *)
Definition rename (m : list (string * string)) (df : DataFrame) : DataFrame :=
  let f c := match lookup c m with Some c' => c' | None => c end in
  {| columns := map f (columns df);
     rows := map (map (fun kv => (f (fst kv), snd kv))) (rows df) |}.

(** [pd.concat(dfs, ignore_index=True, sort=False)] for frames whose column
    labels are distinct: the columns in order of first appearance, the rows
    one frame after the other. *)
Definition pd_concat (dfs : list DataFrame) : DataFrame :=
  {| columns := unique (flat_map columns dfs);
     rows := flat_map rows dfs |}.

(** The parameters of a request; [format] is always [tsv], [limit] 0. *)
Record Params : Type := {
  result : string;
  query : string;
  fields : list string
}.

(** What the [try] block gets from a request: an exception (time-out,
    error status, a body that cannot be decoded or parsed), or the body,
    empty or read as a table. *)
Inductive response : Type :=
| Failed
| Body (content : option DataFrame).

Definition quote : string := String "034"%char EmptyString.

(** [" OR ".join([f'{field}="{r}"' for r in chunk])] *)
Definition accession_query (field : string) (chunk : list string) : string :=
  String.concat " OR "
    (map (fun r => (field ++ "=" ++ quote ++ r ++ quote)%string) chunk).

(** [l[i:i+size]] for [i] in [range(0, len(l), size)], with [size > 0];
    [fuel] bounds the number of chunks. *)
Fixpoint chunks_from (fuel size : nat) (l : list string)
  : list (list string) :=
  match fuel with
  | O => []
  | S fuel' =>
      match l with
      | [] => []
      | _ => firstn size l :: chunks_from fuel' size (skipn size l)
      end
  end.

(** The chunks of the loop; [None] is the [ValueError] of [range] with a
    zero step, and a negative step gives an empty range. *)
Definition chunks (size : Z) (l : list string) : option (list (list string)) :=
  if size =? 0 then None
  else if size <? 0 then Some []
  else Some (chunks_from (List.length l) (Z.to_nat size) l).

(** [[r for r in ids if isinstance(r, str) and r.strip()]] *)
Definition str_ids (ids : list pyval) : list string :=
  flat_map (fun v =>
              match v with
              | VStr s => match strip (chars s) with [] => [] | _ => [s] end
              | _ => []
              end) ids.

Definition run_renames : list (string * string) :=
  [("run_accession", "Run"); ("lat", "latitude"); ("lon", "longitude");
   ("location", "geographic_location")]%string.

Definition sample_renames : list (string * string) :=
  [("sample_accession", "Sample"); ("lat", "latitude"); ("lon", "longitude");
   ("location", "geographic_location")]%string.

Definition run_params (chunk : list string) : Params :=
  {| result := "read_run";
     query := accession_query "run_accession" chunk;
     fields := ["run_accession"; "lat"; "lon"; "location"]%string |}.

Definition sample_params (chunk : list string) : Params :=
  {| result := "sample";
     query := accession_query "sample_accession" chunk;
     fields := ["sample_accession"; "lat"; "lon"; "location";
                "country"]%string |}.

Section Portal.

(** [requests.get(url, ...)], [raise_for_status] and [pd.read_csv] on the
    body, for the URL made of the given parameters. *)
Variable requests_get : Params -> response.

(** One round of the loop over the chunks: the [try] block and its
    [except Exception], which only prints a warning. *)
Definition try_chunk (params : list string -> Params)
  (renames : list (string * string)) (chunk : list string)
  (records : list DataFrame) : list DataFrame :=
  match requests_get (params chunk) with
  | Failed => records
  | Body None => records
  | Body (Some dfc) =>
      if empty dfc then records else records ++ [rename renames dfc]
  end.

Fixpoint enrich_loop (params : list string -> Params)
  (renames : list (string * string)) (todo : list (list string))
  (records : list DataFrame) : list DataFrame :=
  match todo with
  | [] => records
  | chunk :: todo' =>
      enrich_loop params renames todo'
                  (try_chunk params renames chunk records)
  end.

(** The common body of the two lookups. *)
Definition enrich_coords (params : list string -> Params)
  (renames : list (string * string)) (schema : list string)
  (ids : list pyval) (chunk_size : Z) : option DataFrame :=
  match chunks chunk_size (str_ids ids) with
  | None => None
  | Some todo =>
      match enrich_loop params renames todo [] with
      | [] => Some (DataFrame_of_columns schema)
      | records => Some (pd_concat records)
      end
  end.

Definition run_schema : list string :=
  ["Run"; "latitude"; "longitude"; "geographic_location"]%string.

Definition sample_schema : list string :=
  ["Sample"; "latitude"; "longitude"; "geographic_location"]%string.

(** [def enrich_coords_from_ena_by_runs(run_ids, chunk_size=200)] *)
Definition enrich_coords_from_ena_by_runs (run_ids : list pyval)
  (chunk_size : Z) : option DataFrame :=
  enrich_coords run_params run_renames run_schema run_ids chunk_size.

(** [def enrich_coords_from_ena_by_samples(sample_ids, chunk_size=200)] *)
Definition enrich_coords_from_ena_by_samples (sample_ids : list pyval)
  (chunk_size : Z) : option DataFrame :=
  enrich_coords sample_params sample_renames sample_schema sample_ids
                chunk_size.

(** The frames appended to [records] for a list of chunks: one for each
    chunk whose request gives a table that is not empty. *)
Definition fetched (params : list string -> Params)
  (renames : list (string * string)) (todo : list (list string))
  : list DataFrame :=
  flat_map (fun chunk =>
              match requests_get (params chunk) with
              | Body (Some dfc) =>
                  if empty dfc then [] else [rename renames dfc]
              | _ => []
              end) todo.

End Portal.

(** A portal that knows the run ERR1 and raises for any other request. *)
Definition err1_frame : DataFrame :=
  {| columns := ["run_accession"; "lat"; "lon"; "location"]%string;
     rows := [[("run_accession", "ERR1"); ("lat", "-12.05");
               ("lon", "-77.04")]%string] |}.

Definition err1_portal (p : Params) : response :=
  if String.eqb (query p) (accession_query "run_accession" ["ERR1"%string])
  then Body (Some err1_frame) else Failed.

Lemma chunks_from_concat size : forall fuel l,
  (0 < size)%nat -> (List.length l <= fuel)%nat ->
  List.concat (chunks_from fuel size l) = l /\
  Forall (fun c => c <> [] /\ (List.length c <= size)%nat)
         (chunks_from fuel size l).
Proof.
  induction fuel as [|fuel IH]; intros l Hs Hl.
  - destruct l; [split; [reflexivity|constructor]|simpl in Hl; lia].
  - destruct l as [|x l]; [split; [reflexivity|constructor]|].
    cbn [chunks_from]. set (l0 := x :: l) in *.
    destruct (IH (skipn size l0) Hs) as [Hc Hf].
    { rewrite length_skipn. subst l0. cbn [List.length] in *. lia. }
    split.
    + cbn [List.concat]. rewrite Hc. apply firstn_skipn.
    + constructor; [|exact Hf]. split.
      * subst l0. destruct size; [lia|]. discriminate.
      * apply firstn_le_length.
Qed.

Section PortalFacts.

Variable requests_get : Params -> response.

Lemma enrich_loop_fetched params renames todo : forall records,
  enrich_loop requests_get params renames todo records =
  records ++ fetched requests_get params renames todo.
Proof.
  induction todo as [|chunk todo IH]; intros records; simpl.
  - now rewrite app_nil_r.
  - rewrite IH. unfold try_chunk.
    destruct (requests_get (params chunk)) as [|[dfc|]];
      [reflexivity| |reflexivity].
    destruct (empty dfc); [reflexivity|]. now rewrite <- app_assoc.
Qed.



Lemma enrich_coords_spec params renames schema ids chunk_size :
  chunk_size <> 0 ->
  exists todo df,
    chunks chunk_size (str_ids ids) = Some todo /\
    (0 < chunk_size -> List.concat todo = str_ids ids) /\
    enrich_coords requests_get params renames schema ids chunk_size = Some df /\
    rows df = flat_map rows (fetched requests_get params renames todo) /\
    (fetched requests_get params renames todo = [] ->
     df = DataFrame_of_columns schema) /\
    (fetched requests_get params renames todo <> [] ->
     df = pd_concat (fetched requests_get params renames todo)).
Proof.
  intros Hcs. unfold enrich_coords, chunks.
  destruct (chunk_size =? 0) eqn:E0; [apply Z.eqb_eq in E0; contradiction|].
  set (todo := if chunk_size <? 0 then []
               else chunks_from (List.length (str_ids ids))
                                (Z.to_nat chunk_size) (str_ids ids)).
  assert (Ht : (if chunk_size <? 0 then Some []
                else Some (chunks_from (List.length (str_ids ids))
                             (Z.to_nat chunk_size) (str_ids ids))) = Some todo).
  { subst todo. now destruct (chunk_size <? 0). }
  rewrite Ht. rewrite enrich_loop_fetched. simpl app.
  exists todo.
  destruct (fetched requests_get params renames todo) as [|f fs] eqn:Ef.
  - exists (DataFrame_of_columns schema). repeat split.
    + intros Hpos. subst todo.
      destruct (Z.ltb_spec chunk_size 0); [lia|].
      apply chunks_from_concat; lia.
    + intros H. now elim H.
  - exists (pd_concat (f :: fs)). repeat split.
    + intros Hpos. subst todo.
      destruct (Z.ltb_spec chunk_size 0); [lia|].
      apply chunks_from_concat; lia.
    + discriminate.
Qed.


End PortalFacts.

Example enrich_err1 :
  enrich_coords_from_ena_by_runs err1_portal
    [VStr "ERR0"; VStr "ERR1"; VFloat nan; VStr "  "; VStr "ERR2"] 1 =
  Some {| columns := run_schema;
          rows := [[("Run", "ERR1"); ("latitude", "-12.05");
                    ("longitude", "-77.04")]%string] |}
  /\ enrich_coords_from_ena_by_samples err1_portal [VStr "SAMEA1"] 200 =
     Some {| columns := sample_schema; rows := [] |}.
Proof. split; reflexivity. Qed.


End Ena.

(* ------------------------------------------------------------------ *)
(** * The enrichment resolver *)
(* ------------------------------------------------------------------ *)

Module Resolver.

Import Float64 Text Geo Ena.

(** One row of [all_df], after the loop that adds the columns that are not
    there.  The accessions and the location text are text or missing; a
    coordinate is any cell value; [others] are the remaining columns. *)
Record Row : Type := {
  Run : option string;
  Sample : option string;
  latitude : pyval;
  longitude : pyval;
  geographic_location : option string;
  others : list (string * string)
}.

(** One row of [enr[[key, "latitude", "longitude", "geographic_location"]]]. *)
Record Hit : Type := {
  hit_key : option string;
  hit_latitude : option string;
  hit_longitude : option string;
  hit_location : option string
}.

Definition no_hit : Hit :=
  {| hit_key := None; hit_latitude := None; hit_longitude := None;
     hit_location := None |}.

(** A text cell as a Python value. *)
Definition cell_value (c : option string) : pyval :=
  match c with Some s => VStr s | None => np_nan end.

Definition notna (c : option string) : bool :=
  match c with Some _ => true | None => false end.

(** [Series.dropna().tolist()] on a text column. *)
Definition dropna (l : list (option string)) : list string :=
  flat_map (fun c => match c with Some s => [s] | None => [] end) l.

(** [v.fillna(other)], cell by cell. *)
Definition fillna (v other : pyval) : pyval :=
  if pd_isna v then other else v.

Definition fillna_text (v other : option string) : option string :=
  match v with Some _ => v | None => other end.

(** [enr[[key, "latitude", "longitude", "geographic_location"]]]; [None] is
    the [KeyError] for a column that is not there. *)
Definition select (key : string) (enr : DataFrame) : option (list Hit) :=
  if forallb (fun c => existsb (String.eqb c) (columns enr))
             [key; "latitude"; "longitude"; "geographic_location"]%string
  then Some (map (fun r =>
                    {| hit_key := lookup key r;
                       hit_latitude := lookup "latitude" r;
                       hit_longitude := lookup "longitude" r;
                       hit_location := lookup "geographic_location" r |})
                 (rows enr))
  else None.

(** Keys as [merge] compares them: missing matches missing. *)
Definition key_eqb (a b : option string) : bool :=
  match a, b with
  | Some x, Some y => String.eqb x y
  | None, None => true
  | _, _ => false
  end.

(** A row of the merged frame after the three [fillna] and [drop]. *)
Definition fill_from (r : Row) (h : Hit) : Row :=
  {| Run := Run r;
     Sample := Sample r;
     latitude := fillna (latitude r) (cell_value (hit_latitude h));
     longitude := fillna (longitude r) (cell_value (hit_longitude h));
     geographic_location :=
       fillna_text (geographic_location r) (hit_location h);
     others := others r |}.

(** [all_df.merge(hits, on=key, how="left", suffixes=("", sfx))] and the
    loop over the three columns: each row once per hit with its key, in
    the order of the hits, or once with missing values when there is none. *)
Definition merge_fill (key_of : Row -> option string) (hits : list Hit)
  (df : list Row) : list Row :=
  flat_map (fun r =>
              match filter (fun h => key_eqb (key_of r) (hit_key h)) hits with
              | [] => [fill_from r no_hit]
              | matches => map (fill_from r) matches
              end) df.

(** [all_df["latitude"].isna() | all_df["longitude"].isna()] *)
Definition needs_geo (r : Row) : bool :=
  pd_isna (latitude r) || pd_isna (longitude r).

Definition runs_to_enrich (df : list Row) : list string :=
  unique (dropna (map Run (filter (fun r => notna (Run r) && needs_geo r) df))).

Definition samples_to_enrich (df : list Row) : list string :=
  unique (dropna (map Sample
                    (filter (fun r => needs_geo r && notna (Sample r)) df))).

Fixpoint traverse {A B : Type} (f : A -> option B) (l : list A)
  : option (list B) :=
  match l with
  | [] => Some []
  | x :: r =>
      match f x with
      | None => None
      | Some y =>
          match traverse f r with
          | None => None
          | Some ys => Some (y :: ys)
          end
      end
  end.

(** Stage 3 on one row of [still_missing2]. *)
Definition parse_row (r : Row) : option Row :=
  if needs_geo r then
    match _extract_lat_lon_from_text (cell_value (geographic_location r)) with
    | None => None
    | Some (lat_parsed, lon_parsed) =>
        Some {| Run := Run r;
                Sample := Sample r;
                latitude := fillna (latitude r) lat_parsed;
                longitude := fillna (longitude r) lon_parsed;
                geographic_location := geographic_location r;
                others := others r |}
    end
  else Some r.

(** [if still_missing2.any(): ...] *)
Definition fill_by_parse (df : list Row) : option (list Row) :=
  if existsb needs_geo df then traverse parse_row df else Some df.

Section WithCollaborators.

(** The portal, as in [Ena]. *)
Variable requests_get : Params -> response.

(** [pd.to_numeric(column, errors="coerce")] on one cell: the number of
    the cell, NaN when it has none. *)
Variable coerce : pyval -> float.

(** Stages 1 and 2: the lookup for the identifiers [ids], if any, and the
    merge of what it returns, if anything. *)
Definition fill_by_lookup
  (enrich : list pyval -> Z -> option DataFrame)
  (key_of : Row -> option string) (key : string)
  (ids : list string) (df : list Row) : option (list Row) :=
  match ids with
  | [] => Some df
  | _ =>
      match enrich (map VStr ids) 200 with
      | None => None
      | Some enr =>
          if empty enr then Some df
          else match select key enr with
               | None => None
               | Some hits => Some (merge_fill key_of hits df)
               end
      end
  end.

Definition fill_by_run (df : list Row) : option (list Row) :=
  fill_by_lookup (enrich_coords_from_ena_by_runs requests_get)
                 Run "Run" (runs_to_enrich df) df.

Definition fill_by_sample (df : list Row) : option (list Row) :=
  fill_by_lookup (enrich_coords_from_ena_by_samples requests_get)
                 Sample "Sample" (samples_to_enrich df) df.

(** The three fill passes, in order. *)
Definition fill_missing (df : list Row) : option (list Row) :=
  match fill_by_run df with
  | None => None
  | Some df1 =>
      match fill_by_sample df1 with
      | None => None
      | Some df2 => fill_by_parse df2
      end
  end.

Definition to_numeric (r : Row) : Row :=
  {| Run := Run r;
     Sample := Sample r;
     latitude := VFloat (coerce (latitude r));
     longitude := VFloat (coerce (longitude r));
     geographic_location := geographic_location r;
     others := others r |}.

Definition valid_row (r : Row) : bool :=
  _valid_lat_lon (latitude r) (longitude r).

(** [def fill_and_filter_geo(all_df)]; [None] is an exception. *)
Definition fill_and_filter_geo (df : list Row) : option (list Row) :=
  match fill_missing df with
  | None => None
  | Some filled => Some (filter valid_row (map to_numeric filled))
  end.

End WithCollaborators.

(** ** Notions used to state the properties *)

(** [r'] is [r] with nothing changed but, possibly, a coordinate or a
    location text that [r] does not have. *)
Record keeps (r r' : Row) : Prop := {
  keeps_Run : Run r' = Run r;
  keeps_Sample : Sample r' = Sample r;
  keeps_others : others r' = others r;
  keeps_latitude : pd_isna (latitude r) = false -> latitude r' = latitude r;
  keeps_longitude :
    pd_isna (longitude r) = false -> longitude r' = longitude r;
  keeps_location :
    forall s, geographic_location r = Some s ->
              geographic_location r' = Some s
}.

(** [df'] is [df] with each row replaced by one or more rows that keep it. *)
Definition expands (df df' : list Row) : Prop :=
  exists groups,
    df' = List.concat groups /\
    Forall2 (fun r g => g <> [] /\ Forall (keeps r) g) df groups.


(** What the validator accepts, for two floats. *)
Definition in_bounds (x y : float) : Prop :=
  isnan x = false /\ isnan y = false /\
  isfinite x = true /\ isfinite y = true /\
  within f90 x /\ within f180 y /\
  (valid x = true -> (-90 <= value x <= 90)%Q) /\
  (valid y = true -> (-180 <= value y <= 180)%Q).

(** A record with no location text that misses a coordinate. *)
Definition unlocated (r : Row) : Prop :=
  needs_geo r = true /\ geographic_location r = None.

(** The tables the portal sends for the requests [params chunk] carry the
    fields asked for. *)
Definition answers_fields (requests_get : Params -> response)
  (params : list string -> Params) : Prop :=
  forall chunk dfc,
    requests_get (params chunk) = Body (Some dfc) ->
    incl (fields (params chunk)) (columns dfc).

(** The label [df.rename(columns=renames)] gives the column [c]. *)
Definition renamed (renames : list (string * string)) (c : string) : string :=
  match lookup c renames with Some c' => c' | None => c end.

(** ** A frame and collaborators to run the resolver on *)

(** An instance of [to_numeric]: the number [float] reads in the cell. *)
Definition coerce_as_float (v : pyval) : float :=
  match v with
  | VNone => nan
  | VFloat x => x
  | VInt z => match of_int z with Some x => x | None => nan end
  | VStr s => match float_of_chars (chars s) with Some x => x | None => nan end
  end.

(** A portal that answers every request by run with the row of ERR1, and
    raises for a request by sample. *)
Definition run_portal (p : Params) : response :=
  if String.eqb (result p) "read_run" then Body (Some err1_frame) else Failed.

Definition new_row (run : string) (lat lon : pyval) (loc : option string)
  : Row :=
  {| Run := Some run; Sample := None; latitude := lat; longitude := lon;
     geographic_location := loc; others := [("source", "ENA")]%string |}.

Definition demo_df : list Row :=
  [ new_row "ERR1" np_nan np_nan None;
    new_row "ERR2" np_nan np_nan (Some "23.5S 45.2W"%string);
    new_row "ERR3" np_nan np_nan (Some "91.0, 10.0"%string);
    new_row "ERR4" np_nan VNone None;
    new_row "ERR5" (VStr "10.5") np_nan (Some "1N 2E"%string) ].

Definition f2 : float := Eval vm_compute in of_decimal false 2 0.
Definition f10_5 : float := Eval vm_compute in of_decimal false 105 (-1).
Definition f12_05 : float := Eval vm_compute in of_decimal false 1205 (-2).
Definition f77_04 : float := Eval vm_compute in of_decimal false 7704 (-2).

Definition demo_filled : list Row :=
  [ new_row "ERR1" (VStr "-12.05") (VStr "-77.04") None;
    new_row "ERR2" (VFloat (neg f23_5)) (VFloat (neg f45_2))
            (Some "23.5S 45.2W"%string);
    new_row "ERR3" (VFloat f91) (VFloat f10) (Some "91.0, 10.0"%string);
    new_row "ERR4" np_nan np_nan None;
    new_row "ERR5" (VStr "10.5") (VFloat f2) (Some "1N 2E"%string) ].

Definition demo_out : list Row :=
  [ new_row "ERR1" (VFloat (neg f12_05)) (VFloat (neg f77_04)) None;
    new_row "ERR2" (VFloat (neg f23_5)) (VFloat (neg f45_2))
            (Some "23.5S 45.2W"%string);
    new_row "ERR5" (VFloat f10_5) (VFloat f2) (Some "1N 2E"%string) ].

(** ** First source wins *)

Lemma keeps_refl r : keeps r r.
Proof. constructor; auto. Qed.

Lemma fillna_present v other : pd_isna v = false -> fillna v other = v.
Proof. unfold fillna. now intros ->. Qed.

Lemma fillna_isna v other :
  pd_isna (fillna v other) = false ->
  pd_isna v = false \/ pd_isna other = false.
Proof. unfold fillna. destruct (pd_isna v) eqn:E; auto. Qed.

Lemma keeps_trans r1 r2 r3 : keeps r1 r2 -> keeps r2 r3 -> keeps r1 r3.
Proof.
  intros [A1 A2 A3 A4 A5 A6] [B1 B2 B3 B4 B5 B6]. constructor.
  - congruence.
  - congruence.
  - congruence.
  - intros H. rewrite <- (A4 H). apply B4. now rewrite (A4 H).
  - intros H. rewrite <- (A5 H). apply B5. now rewrite (A5 H).
  - intros s H. apply B6, A6, H.
Qed.

Lemma fill_from_keeps r h : keeps r (fill_from r h).
Proof.
  constructor; simpl; auto using fillna_present.
  intros s ->. reflexivity.
Qed.

Lemma expands_refl df : expands df df.
Proof.
  exists (map (fun r => [r]) df). split.
  - induction df as [|r df IH]; simpl; [reflexivity|]. now f_equal.
  - induction df as [|r df IH]; simpl; constructor; [|exact IH].
    split; [discriminate|]. constructor; [apply keeps_refl|constructor].
Qed.

Lemma expands_app a a' b b' :
  expands a a' -> expands b b' -> expands (a ++ b) (a' ++ b').
Proof.
  intros (ga & -> & Ha) (gb & -> & Hb). exists (ga ++ gb). split.
  - now rewrite concat_app.
  - now apply Forall2_app.
Qed.

(** A group of rows that keep [r], each expanded in turn, is a group of
    rows that keep [r]. *)
Lemma expands_group r g df' :
  g <> [] -> Forall (keeps r) g -> expands g df' ->
  df' <> [] /\ Forall (keeps r) df'.
Proof.
  intros Hne Hg (groups & -> & H2). split.
  - destruct H2 as [|x gx g' gs [Hx _] _]; [contradiction|].
    simpl. destruct gx; [contradiction|discriminate].
  - clear Hne. induction H2 as [|x gx g' gs [_ Hx] _ IH]; simpl.
    + constructor.
    + inversion Hg as [|? ? Hrx Hg']; subst.
      apply Forall_app. split; [|now apply IH].
      eapply Forall_impl; [|exact Hx]. intros r'. now apply keeps_trans.
Qed.

Lemma expands_trans df1 df2 df3 :
  expands df1 df2 -> expands df2 df3 -> expands df1 df3.
Proof.
  intros (g12 & -> & H12). revert df3.
  induction H12 as [|r g df1 gs [Hne Hg] _ IH]; intros df3 H23.
  - destruct H23 as (g23 & -> & H). inversion H. subst. apply expands_refl.
  - simpl in H23. destruct H23 as (g23 & -> & H).
    apply Forall2_app_inv_l in H.
    destruct H as (ga & gb & Ha & Hb & ->).
    rewrite concat_app.
    destruct (expands_group r g (List.concat ga) Hne Hg) as [Hne' Hk].
    { exists ga. now split. }
    destruct (IH (List.concat gb)) as (gs' & Egs & Hgs).
    { exists gb. now split. }
    exists (List.concat ga :: gs'). split.
    + simpl. now rewrite Egs.
    + constructor; [now split|exact Hgs].
Qed.

Lemma merge_fill_expands key_of hits df :
  expands df (merge_fill key_of hits df).
Proof.
  unfold merge_fill.
  exists (map (fun r =>
                 match filter (fun h => key_eqb (key_of r) (hit_key h)) hits with
                 | [] => [fill_from r no_hit]
                 | matches => map (fill_from r) matches
                 end) df).
  split; [now rewrite flat_map_concat_map|].
  induction df as [|r df IH]; simpl; constructor; [|exact IH].
  destruct (filter _ hits) as [|h hs]; (split; [discriminate|]).
  - constructor; [apply fill_from_keeps|constructor].
  - change (fill_from r h :: map (fill_from r) hs)
      with (map (fill_from r) (h :: hs)).
    apply Forall_forall. intros r' Hin. apply in_map_iff in Hin.
    destruct Hin as (h' & <- & _). apply fill_from_keeps.
Qed.

Lemma parse_row_keeps r r' : parse_row r = Some r' -> keeps r r'.
Proof.
  unfold parse_row. destruct (needs_geo r).
  - destruct (_extract_lat_lon_from_text _) as [[lat lon]|]; [|discriminate].
    intros H. injection H as <-.
    constructor; simpl; auto using fillna_present.
  - intros H. injection H as <-. apply keeps_refl.
Qed.

Lemma traverse_Forall2 {A B : Type} (f : A -> option B) (P : A -> B -> Prop) :
  (forall a b, f a = Some b -> P a b) ->
  forall l l', traverse f l = Some l' -> Forall2 P l l'.
Proof.
  intros HP. induction l as [|a l IH]; simpl; intros l' H.
  - injection H as <-. constructor.
  - destruct (f a) as [b|] eqn:E; [|discriminate].
    destruct (traverse f l) as [bs|]; [|discriminate].
    injection H as <-. constructor; [now apply HP|now apply IH].
Qed.

Lemma Forall2_keeps_expands df df' :
  Forall2 keeps df df' -> expands df df'.
Proof.
  intros H. exists (map (fun r => [r]) df'). split.
  - clear H. induction df' as [|r l IH]; simpl; [reflexivity|]. now f_equal.
  - induction H as [|r r' df df' Hk _ IH]; simpl; constructor; [|exact IH].
    split; [discriminate|]. constructor; [exact Hk|constructor].
Qed.

Lemma fill_by_parse_keeps df df' :
  fill_by_parse df = Some df' -> Forall2 keeps df df'.
Proof.
  unfold fill_by_parse. destruct (existsb needs_geo df).
  - apply traverse_Forall2, parse_row_keeps.
  - intros H. injection H as <-.
    induction df; constructor; [apply keeps_refl|assumption].
Qed.

Section CollaboratorFacts.

Variable requests_get : Params -> response.
Variable coerce : pyval -> float.

Lemma fill_by_lookup_expands enrich key_of key ids df df' :
  fill_by_lookup enrich key_of key ids df = Some df' -> expands df df'.
Proof.
  unfold fill_by_lookup. destruct ids as [|i ids].
  - intros H. injection H as <-. apply expands_refl.
  - destruct (enrich _ _) as [enr|]; [|discriminate].
    destruct (empty enr).
    + intros H. injection H as <-. apply expands_refl.
    + destruct (select key enr) as [hits|]; [|discriminate].
      intros H. injection H as <-. apply merge_fill_expands.
Qed.

(** C6.  Each fill pass keeps every record and every value it has: the
    lookup by run, the lookup by sample and the parse of the location text
    return each row of their input once or more (a lookup that returns
    several rows for one key repeats the row), with the same accessions and
    other columns, and with the latitude, the longitude and the location
    text of the input row wherever the input row has one.  Only missing
    fields are filled.  So do the three passes in a row. *)
Theorem first_source_wins (df df' : list Row) :
  (fill_by_run requests_get df = Some df' -> expands df df') /\
  (fill_by_sample requests_get df = Some df' -> expands df df') /\
  (fill_by_parse df = Some df' -> Forall2 keeps df df') /\
  (fill_missing requests_get df = Some df' -> expands df df').
Proof.
  repeat split.
  - apply fill_by_lookup_expands.
  - apply fill_by_lookup_expands.
  - apply fill_by_parse_keeps.
  - unfold fill_missing.
    destruct (fill_by_run requests_get df) as [df1|] eqn:E1; [|discriminate].
    destruct (fill_by_sample requests_get df1) as [df2|] eqn:E2;
      [|discriminate].
    intros E3.
    apply fill_by_lookup_expands in E1, E2.
    apply fill_by_parse_keeps, Forall2_keeps_expands in E3.
    eauto using expands_trans.
Qed.

(** ** The final filter *)

(** [to_numeric] treats missing values as pandas does: they stay missing,
    and numbers stay what they are. *)
Hypothesis coerce_missing :
  forall v, pd_isna v = true -> isnan (coerce v) = true.
Hypothesis coerce_float : forall x, coerce (VFloat x) = x.

Lemma valid_floats_in_bounds x y :
  _valid_lat_lon (VFloat x) (VFloat y) = true -> in_bounds x y.
Proof.
  rewrite valid_lat_lon_floats, !andb_true_iff.
  intros [[[Fx Fy] [L1 L2]] [L3 L4]].
  assert (Wx : within f90 x) by now split.
  assert (Wy : within f180 y) by now split.
  split; [now destruct x|]. split; [now destruct y|].
  split; [exact Fx|]. split; [exact Fy|].
  split; [exact Wx|]. split; [exact Wy|]. split; intros V.
  - apply (within_bound f90 90 x eq_refl eq_refl (proj2 f90_is_90) V Fx), Wx.
  - apply (within_bound f180 180 y eq_refl eq_refl (proj2 f180_is_180) V Fy), Wy.
Qed.

Lemma valid_row_to_numeric r :
  valid_row (to_numeric coerce r) = true ->
  in_bounds (coerce (latitude r)) (coerce (longitude r)).
Proof. apply valid_floats_in_bounds. Qed.

Lemma nan_invalid x y :
  isnan x = true \/ isnan y = true ->
  _valid_lat_lon (VFloat x) (VFloat y) = false.
Proof.
  rewrite valid_lat_lon_floats.
  intros [H | H]; [destruct x | destruct y]; try discriminate H;
    now rewrite ?andb_false_r.
Qed.

(** A row that still misses a coordinate does not pass the filter. *)
Lemma missing_row_invalid r :
  needs_geo r = true -> valid_row (to_numeric coerce r) = false.
Proof.
  unfold needs_geo, valid_row. simpl. intros H.
  apply nan_invalid. apply orb_true_iff in H.
  destruct H as [H | H]; [left | right]; now apply coerce_missing.
Qed.

(** ** Lookups that all fail *)

Lemma fetched_all_failed params renames todo :
  (forall p, requests_get p = Failed) ->
  fetched requests_get params renames todo = [].
Proof.
  intros Hf. induction todo as [|c todo IH]; [reflexivity|].
  unfold fetched in *. simpl. now rewrite Hf, IH.
Qed.

Lemma fill_by_lookup_all_failed params renames schema key_of key ids df :
  (forall p, requests_get p = Failed) ->
  fill_by_lookup (enrich_coords requests_get params renames schema)
                 key_of key ids df = Some df.
Proof.
  intros Hf. unfold fill_by_lookup. destruct ids as [|i ids]; [reflexivity|].
  destruct (enrich_coords_spec requests_get params renames schema
              (map VStr (i :: ids)) 200 ltac:(discriminate))
    as (todo & enr & _ & _ & -> & _ & Hnil & _).
  rewrite (Hnil (fetched_all_failed params renames todo Hf)).
  now destruct schema.
Qed.

Lemma parse_row_unlocated r :
  unlocated r ->
  exists r', parse_row r = Some r' /\ needs_geo r' = true.
Proof.
  intros [Hn Hl]. unfold parse_row. rewrite Hn, Hl. simpl.
  eexists. split; [reflexivity|].
  unfold needs_geo in *. simpl. unfold fillna.
  apply orb_true_iff in Hn. apply orb_true_iff.
  destruct Hn as [-> | ->]; [left | right]; reflexivity.
Qed.

Lemma traverse_unlocated df :
  Forall unlocated df ->
  exists df', traverse parse_row df = Some df' /\
              Forall (fun r => needs_geo r = true) df'.
Proof.
  induction 1 as [|r df Hr _ (df' & Ht & Hf)]; simpl.
  - exists []. split; [reflexivity|constructor].
  - destruct (parse_row_unlocated r Hr) as (r' & -> & Hn). rewrite Ht.
    exists (r' :: df'). split; [reflexivity|now constructor].
Qed.

Lemma filter_none {A : Type} (p : A -> bool) l :
  Forall (fun a => p a = false) l -> filter p l = [].
Proof. induction 1 as [|a l Ha _ IH]; simpl; [reflexivity|]. now rewrite Ha. Qed.


(** End to end: when every request fails, records with no location text
    and a missing coordinate all go. *)
Lemma unlocated_records_dropped df :
  (forall p, requests_get p = Failed) ->
  Forall unlocated df ->
  fill_and_filter_geo requests_get coerce df = Some [].
Proof.
  intros Hf Hu. unfold fill_and_filter_geo, fill_missing.
  unfold fill_by_run, fill_by_sample,
    enrich_coords_from_ena_by_runs, enrich_coords_from_ena_by_samples.
  rewrite !fill_by_lookup_all_failed by exact Hf.
  destruct (traverse_unlocated df Hu) as (df' & Ht & Hn).
  assert (Hp : fill_by_parse df = Some df' ).
  { unfold fill_by_parse. destruct (existsb needs_geo df) eqn:E; [exact Ht|].
    destruct Hu as [|r df [Hr _] _]; [exact Ht|].
    simpl in E. now rewrite Hr in E. }
  rewrite Hp. f_equal. apply filter_none.
  apply Forall_map. eapply Forall_impl; [|exact Hn].
  intros r. apply missing_row_invalid.
Qed.

(** C1.  The output of [fill_and_filter_geo] is made of the rows of the
    filled frame, coordinates turned to numbers, that pass the validator,
    and of nothing else.  Every row of the output has two numbers for
    coordinates, neither NaN nor infinite, the latitude in [-90, 90] and
    the longitude in [-180, 180].  A row that still misses a coordinate
    after the three passes is not in the output; when all lookups fail,
    the records with no location text and a missing coordinate are all
    dropped. *)
Theorem output_coordinates_valid (df out : list Row) :
  fill_and_filter_geo requests_get coerce df = Some out ->
  (exists filled,
      fill_missing requests_get df = Some filled /\
      out = filter valid_row (map (to_numeric coerce) filled) /\
      forall r, In r filled -> needs_geo r = true ->
                ~ In (to_numeric coerce r) out) /\
  Forall (fun r =>
            valid_row r = true /\
            exists x y,
              latitude r = VFloat x /\ longitude r = VFloat y /\
              in_bounds x y) out /\
  ((forall p, requests_get p = Failed) -> Forall unlocated df -> out = []).
Proof.
  intros H. split; [|split].
  - unfold fill_and_filter_geo in H.
    destruct (fill_missing requests_get df) as [filled|]; [|discriminate].
    injection H as <-. exists filled. repeat split.
    intros r _ Hn Hin. apply filter_In in Hin. destruct Hin as [_ Hv].
    rewrite (missing_row_invalid r Hn) in Hv. discriminate.
  - unfold fill_and_filter_geo in H.
    destruct (fill_missing requests_get df) as [filled|]; [|discriminate].
    injection H as <-. apply Forall_forall. intros r Hin.
    apply filter_In in Hin. destruct Hin as [Hin Hv].
    split; [exact Hv|].
    apply in_map_iff in Hin. destruct Hin as (r0 & <- & _).
    exists (coerce (latitude r0)), (coerce (longitude r0)).
    split; [reflexivity|]. split; [reflexivity|].
    now apply valid_row_to_numeric.
  - intros Hf Hu. rewrite (unlocated_records_dropped df Hf Hu) in H.
    now injection H.
Qed.

(** ** Resolved input *)







End CollaboratorFacts.

(** ** When the resolver returns *)

Lemma existsb_eqb_In x l : existsb (String.eqb x) l = true <-> In x l.
Proof.
  rewrite existsb_exists. split.
  - intros (y & Hin & E). apply String.eqb_eq in E. now subst.
  - intros H. exists x. split; [exact H|apply String.eqb_refl].
Qed.

Lemma unique_from_In x l : forall seen,
  In x (unique_from seen l) <-> In x l /\ ~ In x seen.
Proof.
  induction l as [|y l IH]; intros seen; simpl.
  - tauto.
  - destruct (existsb (String.eqb y) seen) eqn:E.
    + apply existsb_eqb_In in E. rewrite IH. split.
      * intros [H1 H2]. tauto.
      * intros [[-> | H1] H2]; [contradiction|tauto].
    + assert (Hy : ~ In y seen).
      { intros H. apply existsb_eqb_In in H. congruence. }
      simpl. rewrite IH. simpl. split.
      * intros [-> | [H1 H2]]; [tauto|]. split; [tauto|]. tauto.
      * intros [[-> | H1] H2]; [tauto|].
        destruct (string_dec y x) as [-> | Hne]; [tauto|]. right. tauto.
Qed.

Lemma unique_In x l : In x (unique l) <-> In x l.
Proof. unfold unique. rewrite unique_from_In. simpl. tauto. Qed.

Lemma rename_columns renames dfc :
  columns (rename renames dfc) = map (renamed renames) (columns dfc).
Proof. reflexivity. Qed.

Lemma select_defined key enr :
  incl [key; "latitude"; "longitude"; "geographic_location"]%string
       (columns enr) ->
  exists hits, select key enr = Some hits.
Proof.
  intros H. unfold select.
  assert (E : forallb (fun c => existsb (String.eqb c) (columns enr))
                [key; "latitude"; "longitude"; "geographic_location"]%string
              = true).
  { apply forallb_forall. intros c Hc. apply existsb_eqb_In, H, Hc. }
  rewrite E. eauto.
Qed.

Section Returns.

Variable requests_get : Params -> response.
Variable coerce : pyval -> float.

Lemma fetched_columns params renames wanted todo :
  answers_fields requests_get params ->
  (forall chunk,
      incl wanted (map (renamed renames) (fields (params chunk)))) ->
  Forall (fun df => incl wanted (columns df))
         (fetched requests_get params renames todo).
Proof.
  intros Ha Hs. unfold fetched. induction todo as [|chunk todo IH]; simpl.
  - constructor.
  - destruct (requests_get (params chunk)) as [|[dfc|]] eqn:E; try exact IH.
    destruct (empty dfc); [exact IH|]. simpl. constructor; [|exact IH].
    rewrite rename_columns. intros c Hc.
    apply Hs with (chunk := chunk) in Hc. apply in_map_iff in Hc.
    destruct Hc as (c0 & <- & Hc0). apply in_map.
    now apply (Ha _ _ E).
Qed.

Lemma fill_by_lookup_defined params renames schema key_of key ids df :
  answers_fields requests_get params ->
  (forall chunk,
      incl [key; "latitude"; "longitude"; "geographic_location"]%string
           (map (renamed renames) (fields (params chunk)))) ->
  exists df',
    fill_by_lookup (enrich_coords requests_get params renames schema)
                   key_of key ids df = Some df'.
Proof.
  intros Ha Hs. unfold fill_by_lookup. destruct ids as [|i ids]; [eauto|].
  destruct (enrich_coords_spec requests_get params renames schema
              (map VStr (i :: ids)) 200 ltac:(discriminate))
    as (todo & enr & _ & _ & -> & _ & Hnil & Hcons).
  destruct (empty enr) eqn:Ee; [eauto|].
  pose proof (fetched_columns params renames _ todo Ha Hs) as Hcols.
  destruct (fetched requests_get params renames todo) as [|f fs] eqn:Ef.
  - rewrite (Hnil eq_refl) in Ee. now destruct schema.
  - rewrite (Hcons ltac:(discriminate)).
    inversion Hcols as [|? ? Hf _]; subst.
    destruct (select_defined key (pd_concat (f :: fs))) as (hits & ->);
      [|eauto].
    intros c Hc. simpl. apply unique_In, in_or_app. left. now apply Hf.
Qed.

Lemma extract_defined v :
  exists lat lon, _extract_lat_lon_from_text v = Some (lat, lon).
Proof.
  destruct v as [| | |s]; try (now eexists; eexists).
  pose proof (extract_traced_str s) as He.
  unfold _extract_lat_lon_from_text.
  destruct (findall_hemi (strip (chars s))) as [|[n1 h1] [|[n2 h2] rest]];
    try (rewrite He; now eexists; eexists).
  destruct He as (x1 & x2 & _ & _ & ->). now eexists; eexists.
Qed.

Lemma fill_by_parse_defined df : exists df', fill_by_parse df = Some df'.
Proof.
  unfold fill_by_parse. destruct (existsb needs_geo df); [|eauto].
  induction df as [|r df (df' & IH)]; simpl; [eauto|].
  assert (Hr : exists r', parse_row r = Some r').
  { unfold parse_row. destruct (needs_geo r); [|eauto].
    destruct (extract_defined (cell_value (geographic_location r)))
      as (lat & lon & ->). eauto. }
  destruct Hr as (r' & ->). rewrite IH. eauto.
Qed.

(** When every table the portal sends has the fields asked for, the
    resolver raises nothing and returns a frame. *)
Lemma fill_and_filter_geo_returns df :
  answers_fields requests_get run_params ->
  answers_fields requests_get sample_params ->
  exists out, fill_and_filter_geo requests_get coerce df = Some out.
Proof.
  intros Hrun Hsample.
  unfold fill_and_filter_geo, fill_missing, fill_by_run, fill_by_sample.
  change (enrich_coords_from_ena_by_runs requests_get)
    with (enrich_coords requests_get run_params run_renames run_schema).
  change (enrich_coords_from_ena_by_samples requests_get)
    with (enrich_coords requests_get sample_params sample_renames
                        sample_schema).
  destruct (fill_by_lookup_defined run_params run_renames run_schema
              Run "Run" (runs_to_enrich df) df Hrun) as (df1 & ->).
  { intros chunk c Hc. simpl in *. tauto. }
  destruct (fill_by_lookup_defined sample_params sample_renames sample_schema
              Sample "Sample" (samples_to_enrich df1) df1 Hsample)
    as (df2 & ->).
  { intros chunk c Hc. simpl in *. tauto. }
  destruct (fill_by_parse_defined df2) as (df3 & ->). eauto.
Qed.

End Returns.

(** ** A run of the resolver *)

Example demo_fill_missing : fill_missing run_portal demo_df = Some demo_filled.
Proof. vm_compute. reflexivity. Qed.

Example demo_fill_and_filter :
  fill_and_filter_geo run_portal coerce_as_float demo_df = Some demo_out.
Proof. vm_compute. reflexivity. Qed.

Example demo_returns :
  exists out, fill_and_filter_geo run_portal coerce_as_float demo_df = Some out.
Proof.
  apply fill_and_filter_geo_returns.
  - intros chunk dfc H. injection H as <-. intros c Hc. exact Hc.
  - intros chunk dfc H. discriminate H.
Qed.

(** Coordinates held as text are valid for the validator; the resolver
    turns them into numbers. *)
Example text_coordinates_become_numbers :
  valid_row (new_row "ERR6" (VStr "10.5") (VStr "2") None) = true /\
  fill_and_filter_geo run_portal coerce_as_float
    [new_row "ERR6" (VStr "10.5") (VStr "2") None] =
  Some [new_row "ERR6" (VFloat f10_5) (VFloat f2) None].
Proof. split; vm_compute; reflexivity. Qed.

Lemma coerce_as_float_missing v :
  pd_isna v = true -> isnan (coerce_as_float v) = true.
Proof. destruct v; simpl; trivial; discriminate. Qed.

Lemma first_source_wins_witness : expands demo_df demo_filled.
Proof.
  exact (proj2 (proj2 (proj2 (first_source_wins run_portal demo_df demo_filled)))
           demo_fill_missing).
Defined.

Lemma output_coordinates_valid_witness :
  Forall (fun r =>
            valid_row r = true /\
            exists x y,
              latitude r = VFloat x /\ longitude r = VFloat y /\
              in_bounds x y) demo_out.
Proof.
  exact (proj1 (proj2 (output_coordinates_valid run_portal coerce_as_float
                         coerce_as_float_missing demo_df demo_out
                         demo_fill_and_filter))).
Defined.


End Resolver.

(* ------------------------------------------------------------------ *)
(** * Retries: what the value returned says *)
(* ------------------------------------------------------------------ *)

Module Retries.

Import RunCmd.

Section Outcome.

Variable call : string -> nat -> Z.

Lemma run_cmd_loop_zero cmd n : forall k last,
  last <> 0 ->
  (fst (run_cmd_loop call cmd n k last) = 0 <->
   exists j, (j < n)%nat /\ call cmd (k + j) = 0) /\
  (fst (run_cmd_loop call cmd n k last) <> 0 ->
   snd (run_cmd_loop call cmd n k last) = (k + n)%nat).
Proof.
  induction n as [|n IH]; intros k last Hlast; simpl.
  - split; [|intros _; lia].
    split; [contradiction|intros (j & Hj & _); lia].
  - destruct (Z.eqb_spec (call cmd k) 0) as [E|E]; simpl.
    + split; [|intros H; now elim H].
      split; [|reflexivity]. intros _. exists 0%nat.
      rewrite Nat.add_0_r. split; [lia|exact E].
    + destruct (IH (S k) (call cmd k) E) as [Hz Hn]. split.
      * rewrite Hz. split.
        -- intros (j & Hj & Hc). exists (S j). split; [lia|].
           now replace (k + S j)%nat with (S k + j)%nat by lia.
        -- intros ([|j] & Hj & Hc).
           ++ rewrite Nat.add_0_r in Hc. contradiction.
           ++ exists j. split; [lia|].
              now replace (S k + j)%nat with (k + S j)%nat by lia.
      * intros H. rewrite (Hn H). lia.
Qed.

(** X1.  [run_cmd] reports success only for a command that succeeded: it
    returns 0 exactly when one of the attempts it is allowed exits 0.  With
    no attempt allowed it returns 1, and whenever it returns something else
    than 0 it has used every attempt. *)
Theorem run_cmd_zero_iff_success (cmd : string) (retries : Z) :
  (fst (run_cmd_with call cmd retries) = 0 <->
   exists j, (j < Z.to_nat retries)%nat /\ call cmd j = 0) /\
  (fst (run_cmd_with call cmd retries) <> 0 ->
   snd (run_cmd_with call cmd retries) = Z.to_nat retries) /\
  (retries <= 0 -> run_cmd_with call cmd retries = (1, 0%nat)).
Proof.
  unfold run_cmd_with.
  destruct (run_cmd_loop_zero cmd (Z.to_nat retries) 0 1 ltac:(lia))
    as [Hz Hn].
  split; [exact Hz|]. split; [exact Hn|].
  intros H. now replace (Z.to_nat retries) with 0%nat by lia.
Qed.

End Outcome.

Lemma run_cmd_zero_iff_success_witness :
  snd (run_cmd_with always_5 "esearch" 3) = 3%nat /\
  run_cmd_with third_time_lucky "esearch" 0 = (1, 0%nat).
Proof.
  split.
  - apply (proj1 (proj2 (run_cmd_zero_iff_success always_5 "esearch" 3))).
    discriminate.
  - apply (proj2 (proj2 (run_cmd_zero_iff_success third_time_lucky
                           "esearch" 0))).
    lia.
Defined.

End Retries.

(* ------------------------------------------------------------------ *)
(** * Rounding a decimal numeral: the sign stays apart, no NaN *)
(* ------------------------------------------------------------------ *)

Module Rounding.

Import Float64.

(** The result of a rounding: a zero, a finite number or an infinity with
    the sign given. *)
Inductive signed_as (sx : bool) : float -> Prop :=
| signed_zero : signed_as sx (S754_zero sx)
| signed_finite m e : signed_as sx (S754_finite sx m e)
| signed_infinity : signed_as sx (S754_infinity sx).

Lemma shr_1_nonneg mrs : 0 <= shr_m mrs -> 0 <= shr_m (shr_1 mrs).
Proof.
  destruct mrs as [m r s]. simpl.
  destruct m as [|p|p]; [simpl; lia| |lia].
  intros _. destruct p; simpl; lia.
Qed.

Lemma iter_shr_1_nonneg p : forall mrs,
  0 <= shr_m mrs -> 0 <= shr_m (iter_pos shr_1 p mrs).
Proof.
  induction p as [p IH|p IH|]; intros mrs H; simpl.
  - apply IH, IH, shr_1_nonneg, H.
  - apply IH, IH, H.
  - apply shr_1_nonneg, H.
Qed.

Lemma shr_fexp_nonneg m e l :
  0 <= m -> 0 <= shr_m (fst (shr_fexp prec emax m e l)).
Proof.
  intros H. unfold shr_fexp, shr.
  assert (H0 : 0 <= shr_m (shr_record_of_loc m l)).
  { destruct l as [|[]]; exact H. }
  destruct (fexp prec emax (Zdigits2 m + e) - e) as [|p|p]; simpl;
    [exact H0| |exact H0].
  now apply iter_shr_1_nonneg.
Qed.

Lemma round_nearest_even_nonneg m l : 0 <= m -> 0 <= round_nearest_even m l.
Proof.
  intros H. destruct l as [|[]]; simpl; try lia.
  destruct (Z.even m); lia.
Qed.

Lemma binary_round_aux_cases mx ex lx :
  0 <= mx ->
  exists (shape : bool -> float),
    (forall s, binary_round_aux prec emax s mx ex lx = shape s) /\
    (forall s, signed_as s (shape s)) /\
    (forall s, shape (negb s) = neg (shape s)).
Proof.
  intros H. unfold binary_round_aux.
  pose proof (shr_fexp_nonneg mx ex lx H) as H1.
  destruct (shr_fexp prec emax mx ex lx) as [mrs' e']. simpl in H1.
  pose proof (shr_fexp_nonneg
                (round_nearest_even (shr_m mrs') (loc_of_shr_record mrs'))
                e' loc_Exact (round_nearest_even_nonneg _ _ H1)) as H2.
  destruct (shr_fexp prec emax _ e' loc_Exact) as [mrs'' e'']. simpl in H2.
  destruct (shr_m mrs'') as [|m|m]; [| |lia].
  - exists (fun s => S754_zero s). repeat split; constructor.
  - destruct (e'' <=? emax - prec).
    + exists (fun s => S754_finite s m e''). repeat split; constructor.
    + exists (fun s => S754_infinity s). repeat split; constructor.
Qed.

Lemma of_decimal_cases n p :
  exists (shape : bool -> float),
    (forall s, of_decimal s n p = shape s) /\
    (forall s, signed_as s (shape s)) /\
    (forall s, shape (negb s) = neg (shape s)).
Proof.
  unfold of_decimal. destruct n as [|m].
  - exists (fun s => S754_zero s). repeat split; constructor.
  - destruct (0 <=? p).
    + unfold binary_round.
      destruct (shl_align (m * Z.to_pos (10 ^ p)) 0
                  (fexp prec emax
                     (Z.pos (digits2_pos (m * Z.to_pos (10 ^ p))) + 0)))
        as [mz ez].
      apply binary_round_aux_cases. lia.
    + unfold SFdiv.
      destruct (SFdiv_core_binary prec emax (Z.pos m) 0
                  (Z.pos (Z.to_pos (10 ^ (- p)))) 0) as [[mz ez] lz] eqn:E.
      assert (Hmz : 0 <= mz).
      { unfold SFdiv_core_binary in E.
        set (m' := match _ - _ - _ with Zpos _ => _ | Z0 => _ | Zneg _ => _ end)
          in E.
        assert (Hm' : 0 <= m').
        { subst m'. destruct (_ - _ - _); try lia.
          apply Z.shiftl_nonneg. lia. }
        pose proof (Z_div_mod m' (Z.pos (Z.to_pos (10 ^ (- p)))) ltac:(lia))
          as Hdm.
        destruct (Z.div_eucl m' (Z.pos (Z.to_pos (10 ^ (- p))))) as [q r].
        injection E as <- _ _. nia. }
      destruct (binary_round_aux_cases mz ez lz Hmz)
        as (shape & Hs & Hsig & Hneg).
      exists shape. repeat split; auto.
      intros s. rewrite <- Hs. now rewrite xorb_false_r.
Qed.

Lemma of_decimal_not_nan s n p : isnan (of_decimal s n p) = false.
Proof.
  destruct (of_decimal_cases n p) as (shape & Hs & Hsig & _).
  rewrite Hs. now destruct (Hsig s).
Qed.

Lemma of_decimal_neg s n p :
  neg (of_decimal s n p) = of_decimal (negb s) n p.
Proof.
  destruct (of_decimal_cases n p) as (shape & Hs & _ & Hneg).
  now rewrite !Hs, Hneg.
Qed.

Lemma of_decimal_abs s n p : abs (of_decimal s n p) = of_decimal false n p.
Proof.
  destruct (of_decimal_cases n p) as (shape & Hs & Hsig & Hneg).
  rewrite !Hs.
  destruct s; [|now destruct (Hsig false)].
  change true with (negb false). rewrite Hneg.
  now destruct (Hsig false).
Qed.

End Rounding.

(* ------------------------------------------------------------------ *)
(** * The coordinate extractor on texts of every kind *)
(* ------------------------------------------------------------------ *)

Module Extractor.

Import Float64 Text Geo Rounding.

(** The letter is S, s, W or w. *)
Definition south_west (h : ascii) : bool :=
  existsb (Ascii.eqb h) (chars "SsWw").

(** [s.rstrip()] *)
Definition rstrip (l : list ascii) : list ascii :=
  rev (lstrip_with isspace (rev l)).

Definition no_sign_no_digit (sep : list ascii) : Prop :=
  Forall (fun c => is_sign c = false /\ isdigit c = false) sep.

(** The text of a [str] given by its characters. *)
Definition text (l : list ascii) : pyval := VStr (string_of_list_ascii l).

(** The numeral [ip.fp] with the sign the letter [h] stands for. *)
Definition signed_by (h : ascii) (ip fp : list ascii) : list ascii :=
  numeral (if south_west h then ["-"%char] else []) ip fp.

Lemma chars_text l : chars (string_of_list_ascii l) = l.
Proof. apply list_ascii_of_string_of_list_ascii. Qed.

Lemma hemi_adjust_letter h s n p :
  is_hemi h = true ->
  hemi_adjust [h] (of_decimal s n p) = of_decimal (south_west h) n p.
Proof.
  intros Hh. apply is_hemi_facts in Hh. destruct Hh as (_ & _ & _ & Hin).
  simpl in Hin.
  repeat (destruct Hin as [<- | Hin];
          [unfold hemi_adjust; simpl;
           rewrite ?of_decimal_abs, ?of_decimal_neg; reflexivity|]).
  contradiction.
Qed.

Lemma hemi_adjust_not_nan hemi x :
  isnan x = false -> isnan (hemi_adjust hemi x) = false.
Proof.
  intros H. unfold hemi_adjust.
  repeat match goal with |- context [if ?b then _ else _] => destruct b end;
    destruct x; try reflexivity; discriminate.
Qed.

Lemma token_not_nan t x :
  token_ok t -> float_of_chars (fst t) = Some x -> isnan x = false.
Proof.
  intros [(sg & ip & fp & Hok & ->) _] H.
  rewrite (float_of_numeral _ _ _ Hok) in H. injection H as <-.
  apply of_decimal_not_nan.
Qed.

Lemma lstrip_all_space ws l :
  all_space ws -> lstrip_with isspace (ws ++ l) = lstrip_with isspace l.
Proof. induction 1 as [|c ws Hc _ IH]; simpl; [reflexivity|now rewrite Hc]. Qed.

Lemma lstrip_app l x :
  lstrip_with isspace l <> [] ->
  lstrip_with isspace (l ++ x) = lstrip_with isspace l ++ x.
Proof.
  induction l as [|c l IH]; simpl; [contradiction|].
  destruct (isspace c); [exact IH|reflexivity].
Qed.

Lemma lstrip_nil l : lstrip_with isspace l = [] -> all_space l.
Proof.
  induction l as [|c l IH]; simpl; [constructor|].
  destruct (isspace c) eqn:E; [|discriminate].
  intros H. constructor; [exact E|now apply IH].
Qed.

Lemma all_space_rev ws : all_space ws -> all_space (rev ws).
Proof. apply Forall_rev. Qed.

Lemma strip_spaces ws1 l ws2 :
  all_space ws1 -> all_space ws2 -> strip (ws1 ++ l ++ ws2) = strip l.
Proof.
  intros H1 H2. unfold strip, strip_with.
  rewrite lstrip_all_space by exact H1.
  destruct (lstrip_with isspace l) as [|c r] eqn:E.
  - apply lstrip_nil in E.
    assert (H : all_space (l ++ ws2)) by (apply Forall_app; now split).
    rewrite <- (app_nil_r (l ++ ws2)), lstrip_all_space by exact H.
    reflexivity.
  - rewrite lstrip_app by (rewrite E; discriminate).
    rewrite E, rev_app_distr.
    now rewrite lstrip_all_space by now apply all_space_rev.
Qed.

Lemma extract_traced_strip s1 s2 :
  strip (chars s1) = strip (chars s2) ->
  extract_traced (VStr s1) = extract_traced (VStr s2) /\
  _parse_ns_ew (VStr s1) = _parse_ns_ew (VStr s2).
Proof.
  intros H.
  assert (Hp : _parse_ns_ew (VStr s1) = _parse_ns_ew (VStr s2)).
  { unfold _parse_ns_ew. now rewrite H. }
  split; [|exact Hp].
  unfold extract_traced. rewrite Hp.
  rewrite <- (findall_number_strip (chars s1)), H, findall_number_strip.
  reflexivity.
Qed.

Lemma rstrip_split t : exists ws, all_space ws /\ t = rstrip t ++ ws.
Proof.
  destruct (lstrip_split (rev t)) as (ws & Hws & E).
  exists (rev ws). split; [now apply all_space_rev|].
  unfold rstrip. rewrite <- rev_app_distr, <- E. now rewrite rev_involutive.
Qed.

Lemma rstrip_not_headed p t : not_headed p t -> not_headed p (rstrip t).
Proof.
  destruct (rstrip_split t) as (ws & _ & E).
  destruct (rstrip t) as [|c r]; [intros _; exact I|].
  intros H. rewrite E in H. exact H.
Qed.

Lemma not_headed_app p a b :
  a <> [] -> Forall (fun c => p c = false) a -> not_headed p (a ++ b).
Proof. intros Hne H. destruct H; [contradiction|assumption]. Qed.

Lemma strip_front a t :
  a <> [] -> not_headed isspace a -> not_headed isspace (rev a) ->
  strip (a ++ t) = a ++ rstrip t.
Proof.
  intros Hne Hh Hl. unfold strip, strip_with, rstrip.
  assert (E : lstrip_with isspace (a ++ t) = a ++ t).
  { apply lstrip_with_id. destruct a; [contradiction|exact Hh]. }
  rewrite E, rev_app_distr.
  destruct (lstrip_with isspace (rev t)) as [|c r] eqn:Et.
  - apply lstrip_nil in Et.
    rewrite lstrip_all_space by exact Et.
    rewrite lstrip_with_id by exact Hl.
    now rewrite rev_involutive, app_nil_r.
  - rewrite lstrip_app by (rewrite Et; discriminate).
    rewrite Et, rev_app_distr. now rewrite rev_involutive.
Qed.

Lemma numeral_no_space sg ip fp :
  numeral_ok sg ip fp ->
  Forall (fun c => isspace c = false) (numeral sg ip fp).
Proof.
  intros Hok. eapply Forall_impl; [|apply (numeral_chars _ _ _ Hok)].
  intros c Hc. now apply numeral_char_facts in Hc.
Qed.

Lemma match_hemi_bare sg ip fp rest :
  numeral_ok sg ip fp ->
  not_headed isdigit rest -> not_headed is_dot rest ->
  not_headed is_hemi rest ->
  match_hemi (numeral sg ip fp ++ rest) = Some ((numeral sg ip fp, []), rest).
Proof.
  intros Hok Hd Hp Hh. unfold match_hemi.
  rewrite match_number_numeral by assumption.
  destruct rest as [|c r]; [reflexivity|]. simpl in Hh. now rewrite Hh.
Qed.

(** The tokens of the hemisphere scan of two numerals without letters
    attached. *)
Lemma findall_hemi_bare sg1 ip1 fp1 c sep sg2 ip2 fp2 tail :
  numeral_ok sg1 ip1 fp1 -> numeral_ok sg2 ip2 fp2 ->
  no_sign_no_digit (c :: sep) ->
  is_dot c = false -> is_hemi c = false ->
  not_headed isdigit tail -> not_headed is_dot tail ->
  not_headed is_hemi tail ->
  exists more,
    findall_hemi (strip (numeral sg1 ip1 fp1 ++ (c :: sep) ++
                         numeral sg2 ip2 fp2 ++ tail)) =
    (numeral sg1 ip1 fp1, []) :: (numeral sg2 ip2 fp2, []) :: more.
Proof.
  intros Hok1 Hok2 Hsep Hdot Hhemi Htd Htp Hth.
  set (n1 := numeral sg1 ip1 fp1). set (n2 := numeral sg2 ip2 fp2).
  assert (E : n1 ++ (c :: sep) ++ n2 ++ tail =
              (n1 ++ (c :: sep) ++ n2) ++ tail)
    by now rewrite <- !app_assoc.
  rewrite E, strip_front.
  - rewrite <- !app_assoc.
    assert (Hc : isdigit c = false) by (inversion Hsep; tauto).
    subst n1 n2.
    rewrite (findall_hemi_match _ _ _
               (match_hemi_bare sg1 ip1 fp1
                  ((c :: sep) ++ numeral sg2 ip2 fp2 ++ rstrip tail) Hok1 Hc Hdot Hhemi)).
    rewrite findall_hemi_skip by exact Hsep.
    rewrite (findall_hemi_match _ _ _
               (match_hemi_bare sg2 ip2 fp2 (rstrip tail) Hok2
                  (rstrip_not_headed _ _ Htd) (rstrip_not_headed _ _ Htp)
                  (rstrip_not_headed _ _ Hth))).
    now eexists.
  - pose proof (numeral_nonempty _ _ _ Hok1) as H. fold n1 in H.
    destruct n1; [contradiction|discriminate].
  - apply not_headed_app.
    + now apply numeral_nonempty.
    + now apply numeral_no_space.
  - rewrite !rev_app_distr, <- app_assoc. apply not_headed_app.
    + intros H. apply (numeral_nonempty _ _ _ Hok2).
      fold n2. rewrite <- (rev_involutive n2), H. reflexivity.
    + apply Forall_rev. now apply numeral_no_space.
Qed.

(** What the extractor finds in a text. *)
Lemma extract_found s :
  ((List.length (findall_number (chars s)) < 2)%nat /\
   _extract_lat_lon_from_text (VStr s) = Some (np_nan, np_nan)) \/
  (exists x y,
      _extract_lat_lon_from_text (VStr s) = Some (VFloat x, VFloat y) /\
      isnan x = false /\ isnan y = false).
Proof.
  pose proof (extract_traced_str s) as He.
  pose proof (findall_hemi_tokens (strip (chars s))) as Hok.
  pose proof (findall_hemi_numbers (strip (chars s))) as Hn.
  rewrite findall_number_strip in Hn. rewrite <- Hn.
  unfold _extract_lat_lon_from_text.
  destruct (findall_hemi (strip (chars s))) as [|[n1 h1] [|[n2 h2] rest]].
  - left. rewrite He. split; [simpl; lia|reflexivity].
  - left. rewrite He. split; [simpl; lia|reflexivity].
  - right. destruct He as (x1 & x2 & H1 & H2 & He).
    inversion Hok as [|? ? Ht1 Hok']; subst.
    inversion Hok' as [|? ? Ht2 _]; subst.
    exists (hemi_adjust h1 x1), (hemi_adjust h2 x2). rewrite He.
    split; [reflexivity|].
    split; apply hemi_adjust_not_nan.
    + exact (token_not_nan _ _ Ht1 H1).
    + exact (token_not_nan _ _ Ht2 H2).
Qed.

(** X2.  Neither function raises, whatever it is given.  [_parse_ns_ew]
    returns (None, None) or two floats, none of them NaN;
    [_extract_lat_lon_from_text] returns two floats, both NaN (nothing
    found) or neither. *)
Theorem extractor_never_raises (v : pyval) :
  (_parse_ns_ew v = Some (VNone, VNone) \/
   exists x y, _parse_ns_ew v = Some (VFloat x, VFloat y) /\
               isnan x = false /\ isnan y = false) /\
  (_extract_lat_lon_from_text v = Some (np_nan, np_nan) \/
   exists x y, _extract_lat_lon_from_text v = Some (VFloat x, VFloat y) /\
               isnan x = false /\ isnan y = false).
Proof.
  destruct v as [|x|z|s]; try (split; left; reflexivity).
  pose proof (parse_ns_ew_str s) as Hp.
  pose proof (extract_traced_str s) as He.
  pose proof (findall_hemi_tokens (strip (chars s))) as Hok.
  unfold _extract_lat_lon_from_text.
  destruct (findall_hemi (strip (chars s))) as [|[n1 h1] [|[n2 h2] rest]].
  - rewrite He. split; left; [exact Hp|reflexivity].
  - rewrite He. split; left; [exact Hp|reflexivity].
  - destruct Hp as (x1 & x2 & H1 & H2 & Hp).
    destruct He as (y1 & y2 & H1' & H2' & He).
    rewrite H1 in H1'. rewrite H2 in H2'.
    injection H1' as <-. injection H2' as <-.
    inversion Hok as [|? ? Ht1 Hok']; subst.
    inversion Hok' as [|? ? Ht2 _]; subst.
    assert (N1 : isnan (hemi_adjust h1 x1) = false).
    { apply hemi_adjust_not_nan. exact (token_not_nan _ _ Ht1 H1). }
    assert (N2 : isnan (hemi_adjust h2 x2) = false).
    { apply hemi_adjust_not_nan. exact (token_not_nan _ _ Ht2 H2). }
    rewrite He, Hp. split; right; eexists; eexists; now repeat split.
Qed.

(** X3.  White space around the text changes nothing: both functions return
    on [ws1 ++ l ++ ws2] what they return on [l]. *)
Theorem extract_ignores_outer_space (ws1 l ws2 : list ascii) :
  all_space ws1 -> all_space ws2 ->
  _extract_lat_lon_from_text (text (ws1 ++ l ++ ws2)) =
    _extract_lat_lon_from_text (text l) /\
  _parse_ns_ew (text (ws1 ++ l ++ ws2)) = _parse_ns_ew (text l).
Proof.
  intros H1 H2.
  destruct (extract_traced_strip (string_of_list_ascii (ws1 ++ l ++ ws2))
              (string_of_list_ascii l)) as [He Hp].
  { rewrite !chars_text. now apply strip_spaces. }
  split; [|exact Hp].
  unfold _extract_lat_lon_from_text, text. now rewrite He.
Qed.

Lemma extract_ignores_outer_space_witness :
  _extract_lat_lon_from_text (VStr "  12.5N 77W ") =
    _extract_lat_lon_from_text (VStr "12.5N 77W") /\
  _parse_ns_ew (VStr "  12.5N 77W ") = _parse_ns_ew (VStr "12.5N 77W").
Proof.
  apply (extract_ignores_outer_space (chars "  ") (chars "12.5N 77W")
           (chars " ")).
  - repeat constructor.
  - repeat constructor.
Defined.

(** X4.  In a text [<num><hemi><sep><num><hemi>] the letter alone decides
    the sign: a sign written before the number is ignored.  Each value is
    what [float] gives for the digits with a minus sign when the letter is
    S or W, and for the digits alone when it is N or E. *)
Theorem hemisphere_letter_overrides_sign
  sg1 ip1 fp1 h1 sep sg2 ip2 fp2 h2 :
  numeral_ok sg1 ip1 fp1 -> numeral_ok sg2 ip2 fp2 ->
  is_hemi h1 = true -> is_hemi h2 = true ->
  no_sign_no_digit sep ->
  exists lat lon,
    float_of_chars (signed_by h1 ip1 fp1) = Some lat /\
    float_of_chars (signed_by h2 ip2 fp2) = Some lon /\
    _extract_lat_lon_from_text
      (text (hemi_pair (numeral sg1 ip1 fp1) h1 sep
                       (numeral sg2 ip2 fp2) h2)) =
      Some (VFloat lat, VFloat lon).
Proof.
  intros Hok1 Hok2 Hh1 Hh2 Hsep.
  assert (Hs : forall h ip fp sg, numeral_ok sg ip fp ->
            float_of_chars (signed_by h ip fp) =
            Some (of_decimal (south_west h) (digits_value (ip ++ fp))
                             (- Z.of_nat (List.length fp)))).
  { intros h ip fp sg [_ Hi Hne Hf]. unfold signed_by.
    rewrite float_of_numeral.
    - now destruct (south_west h).
    - constructor; try assumption. destruct (south_west h); auto. }
  exists (of_decimal (south_west h1) (digits_value (ip1 ++ fp1))
                     (- Z.of_nat (List.length fp1))),
         (of_decimal (south_west h2) (digits_value (ip2 ++ fp2))
                     (- Z.of_nat (List.length fp2))).
  split; [now apply (Hs h1 ip1 fp1 sg1)|].
  split; [now apply (Hs h2 ip2 fp2 sg2)|].
  pose proof (extract_traced_str
                (string_of_list_ascii
                   (hemi_pair (numeral sg1 ip1 fp1) h1 sep
                              (numeral sg2 ip2 fp2) h2))) as He.
  rewrite chars_text, findall_hemi_pair in He by assumption.
  destruct He as (x1 & x2 & H1 & H2 & He).
  rewrite (float_of_numeral _ _ _ Hok1) in H1.
  rewrite (float_of_numeral _ _ _ Hok2) in H2.
  injection H1 as <-. injection H2 as <-.
  unfold _extract_lat_lon_from_text, text. rewrite He. simpl.
  now rewrite !hemi_adjust_letter by assumption.
Qed.

Lemma hemisphere_letter_overrides_sign_witness :
  exists lat lon,
    float_of_chars (chars "12.5") = Some lat /\
    float_of_chars (chars "-77") = Some lon /\
    _extract_lat_lon_from_text (VStr "-12.5N, +77w") =
      Some (VFloat lat, VFloat lon).
Proof.
  apply (hemisphere_letter_overrides_sign
           (chars "-") (chars "12") (chars "5") "N" (chars ", ")
           (chars "+") (chars "77") [] "w").
  - constructor; [tauto|repeat constructor|discriminate|repeat constructor].
  - constructor; [tauto|repeat constructor|discriminate|constructor].
  - reflexivity.
  - reflexivity.
  - repeat constructor.
Defined.

(** X5.  A hemisphere letter counts only when it follows its number at
    once.  When something else follows each of the first two numbers (a
    space before the letter, as in [12.05 S, 77.04 W]), both are returned
    with the signs they are written with. *)
Theorem detached_letter_is_ignored
  sg1 ip1 fp1 c sep sg2 ip2 fp2 tail :
  numeral_ok sg1 ip1 fp1 -> numeral_ok sg2 ip2 fp2 ->
  no_sign_no_digit (c :: sep) ->
  is_dot c = false -> is_hemi c = false ->
  not_headed isdigit tail -> not_headed is_dot tail ->
  not_headed is_hemi tail ->
  exists lat lon,
    float_of_chars (numeral sg1 ip1 fp1) = Some lat /\
    float_of_chars (numeral sg2 ip2 fp2) = Some lon /\
    _extract_lat_lon_from_text
      (text (numeral sg1 ip1 fp1 ++ (c :: sep) ++
             numeral sg2 ip2 fp2 ++ tail)) =
      Some (VFloat lat, VFloat lon).
Proof.
  intros Hok1 Hok2 Hsep Hdot Hhemi Htd Htp Hth.
  destruct (findall_hemi_bare sg1 ip1 fp1 c sep sg2 ip2 fp2 tail
              Hok1 Hok2 Hsep Hdot Hhemi Htd Htp Hth) as (more & Htok).
  pose proof (extract_traced_str
                (string_of_list_ascii
                   (numeral sg1 ip1 fp1 ++ (c :: sep) ++
                    numeral sg2 ip2 fp2 ++ tail))) as He.
  rewrite chars_text, Htok in He.
  destruct He as (x1 & x2 & H1 & H2 & He).
  exists x1, x2. split; [exact H1|]. split; [exact H2|].
  unfold _extract_lat_lon_from_text, text. now rewrite He.
Qed.

Lemma detached_letter_is_ignored_witness :
  exists lat lon,
    float_of_chars (chars "12.05") = Some lat /\
    float_of_chars (chars "77.04") = Some lon /\
    _extract_lat_lon_from_text (VStr "12.05 S, 77.04 W") =
      Some (VFloat lat, VFloat lon).
Proof.
  apply (detached_letter_is_ignored
           [] (chars "12") (chars "05") " " (chars "S, ")
           [] (chars "77") (chars "04") (chars " W")).
  - constructor; [tauto|repeat constructor|discriminate|repeat constructor].
  - constructor; [tauto|repeat constructor|discriminate|repeat constructor].
  - repeat constructor.
  - reflexivity.
  - reflexivity.
  - reflexivity.
  - reflexivity.
  - reflexivity.
Defined.

End Extractor.

(* ------------------------------------------------------------------ *)
(** * Column labels: [normalize_ena], [normalize_sra] and the lookups *)
(* ------------------------------------------------------------------ *)

Module Labels.

Import Float64 Text Geo Ena Resolver.

(** [def normalize_ena(df)] *)
Definition ena_renames : list (string * string) :=
  [("run_accession", "Run"); ("sample_accession", "Sample");
   ("study_accession", "Study"); ("library_layout", "LibraryLayout");
   ("library_strategy", "LibraryStrategy");
   ("instrument_platform", "Platform"); ("lat", "latitude");
   ("lon", "longitude"); ("location", "geographic_location")]%string.

Definition normalize_ena (df : DataFrame) : DataFrame :=
  rename ena_renames df.

(** [c in df.columns] *)
Definition has_column (c : string) (df : DataFrame) : bool :=
  existsb (String.eqb c) (columns df).

(** [def normalize_sra(df)]: the dictionary [ren] holds an entry for [lat]
    and for [lon] when the frame has the column. *)
Definition normalize_sra (df : DataFrame) : DataFrame :=
  let ren :=
    (if has_column "lat" df then [("lat", "latitude")]%string else []) ++
    (if has_column "lon" df then [("lon", "longitude")]%string else []) in
  rename ren df.

(** The labels [renames] replaces and the labels it introduces. *)
Definition old_labels (renames : list (string * string)) : list string :=
  map fst renames.

Definition new_labels (renames : list (string * string)) : list string :=
  map snd renames.

Definition mem (c : string) (l : list string) : bool :=
  existsb (String.eqb c) l.

Fixpoint distinct (l : list string) : bool :=
  match l with
  | [] => true
  | x :: r => negb (mem x r) && distinct r
  end.

(** A dictionary that renames without clash: no label is replaced twice,
    none is introduced twice, and none is both replaced and introduced. *)
Definition relabelling (renames : list (string * string)) : bool :=
  distinct (old_labels renames) && distinct (new_labels renames) &&
  forallb (fun c => negb (mem c (old_labels renames))) (new_labels renames).

(** A row as [rename] leaves it. *)
Definition relabel (renames : list (string * string))
  (row : list (string * string)) : list (string * string) :=
  map (fun kv => (renamed renames (fst kv), snd kv)) row.

(** Every cell of the rows is under a column label of the frame. *)
Definition well_formed (df : DataFrame) : Prop :=
  Forall (fun row => incl (map fst row) (columns df)) (rows df).

Definition sra_frame : DataFrame :=
  {| columns := ["Run"; "lat"; "Platform"]%string;
     rows := [[("Run", "SRR1"); ("lat", "1.5"); ("Platform", "ILLUMINA")];
              [("Run", "SRR2"); ("Platform", "ILLUMINA")]]%string |}.

(** ** Renaming *)

Lemma mem_In c l : mem c l = true <-> In c l.
Proof. apply existsb_eqb_In. Qed.

Lemma mem_false c l : mem c l = false <-> ~ In c l.
Proof.
  rewrite <- mem_In. destruct (mem c l); intuition congruence.
Qed.

Lemma distinct_NoDup l : distinct l = true -> NoDup l.
Proof.
  induction l as [|x r IH]; simpl; intros H; [constructor|].
  apply andb_true_iff in H. destruct H as [Hx Hr].
  constructor; [|now apply IH].
  apply mem_false. now apply negb_true_iff.
Qed.

Lemma rows_rename renames df :
  rows (rename renames df) = map (relabel renames) (rows df).
Proof. reflexivity. Qed.

Lemma lookup_In k v m : lookup k m = Some v -> In (k, v) m.
Proof.
  unfold lookup. destruct (find _ m) as [[k' v']|] eqn:E; [|discriminate].
  simpl. intros H. injection H as <-.
  apply find_some in E. destruct E as [Hin Heq]. simpl in Heq.
  apply String.eqb_eq in Heq. now subst.
Qed.

Lemma lookup_None k (m : list (string * string)) :
  lookup k m = None <-> ~ In k (map fst m).
Proof.
  unfold lookup. induction m as [|[k' v'] m IH]; simpl; [tauto|].
  destruct (String.eqb_spec k' k) as [->|Hne]; simpl.
  - split; [discriminate|]. intros H. elim H. now left.
  - rewrite IH. split; intros H; [intros [?|?]; [congruence|tauto]|tauto].
Qed.

Lemma lookup_NoDup k v m :
  NoDup (map fst m) -> In (k, v) m -> lookup k m = Some v.
Proof.
  unfold lookup. induction m as [|[k' v'] m IH]; simpl; [contradiction|].
  intros Hnd [Heq|Hin].
  - injection Heq as -> ->. now rewrite String.eqb_refl.
  - inversion Hnd as [|? ? Hk Hnd']; subst.
    destruct (String.eqb_spec k' k) as [->|Hne]; [|now apply IH].
    elim Hk. apply in_map_iff. now exists (k, v).
Qed.

Section Relabelling.

Variable renames : list (string * string).
Hypothesis clean : relabelling renames = true.

Lemma relabelling_facts :
  NoDup (old_labels renames) /\ NoDup (new_labels renames) /\
  forall c, In c (new_labels renames) -> ~ In c (old_labels renames).
Proof.
  unfold relabelling in clean.
  apply andb_true_iff in clean. destruct clean as [H12 H3].
  apply andb_true_iff in H12. destruct H12 as [H1 H2].
  split; [now apply distinct_NoDup|]. split; [now apply distinct_NoDup|].
  intros c Hc. rewrite forallb_forall in H3.
  apply mem_false. apply negb_true_iff. now apply H3.
Qed.

(** A label that is replaced names no column afterwards. *)
Lemma renamed_not_old c : ~ In (renamed renames c) (old_labels renames).
Proof.
  destruct relabelling_facts as (_ & _ & Hdis).
  unfold renamed. destruct (lookup c renames) as [c'|] eqn:E.
  - apply Hdis. apply lookup_In in E.
    apply in_map_iff. now exists (c, c').
  - now apply lookup_None.
Qed.

(** The labels [renamed] sends to [new], for an entry [(old, new)]. *)
Lemma renamed_new old new c :
  In (old, new) renames ->
  renamed renames c = new <-> c = old \/ c = new.
Proof.
  destruct relabelling_facts as (Hold & Hnew & Hdis).
  intros Hin. unfold renamed.
  destruct (lookup c renames) as [c'|] eqn:E.
  - apply lookup_In in E. split.
    + intros ->. left.
      (* two entries with the same new label are the same entry *)
      clear - Hnew Hin E. unfold new_labels in Hnew.
      induction renames as [|[a b] m IH]; [contradiction|].
      simpl in *. inversion Hnew as [|? ? Hb Hnew']; subst.
      destruct Hin as [Hin|Hin]; destruct E as [E|E].
      * congruence.
      * injection Hin as -> ->. elim Hb. apply in_map_iff. now exists (c, new).
      * injection E as -> ->. elim Hb. apply in_map_iff. now exists (old, new).
      * now apply IH.
    + intros [->| ->].
      * pose proof (lookup_NoDup old new renames Hold Hin) as H.
        apply lookup_In in H.
        assert (lookup old renames = Some c')
          by now apply lookup_NoDup.
        assert (lookup old renames = Some new)
          by now apply lookup_NoDup.
        congruence.
      * exfalso. apply (Hdis new).
        -- apply in_map_iff. now exists (old, new).
        -- apply in_map_iff. now exists (new, c').
  - split; [now right|]. intros [->| ->]; [|reflexivity].
    apply lookup_None in E. elim E. apply in_map_iff. now exists (old, new).
Qed.

Lemma renamed_other c c0 :
  ~ In c (old_labels renames) -> ~ In c (new_labels renames) ->
  renamed renames c0 = c <-> c0 = c.
Proof.
  intros Ho Hn. unfold renamed.
  destruct (lookup c0 renames) as [c'|] eqn:E.
  - apply lookup_In in E. split.
    + intros ->. elim Hn. apply in_map_iff. now exists (c0, c).
    + intros ->. elim Ho. apply in_map_iff. now exists (c, c').
  - tauto.
Qed.

(** The cell a row has under [old] is under [new] afterwards, when the row
    had no cell under [new]. *)
Lemma lookup_relabel_new old new row :
  In (old, new) renames -> lookup new row = None ->
  lookup new (relabel renames row) = lookup old row.
Proof.
  intros Hin Hnone. unfold lookup at 1.
  unfold relabel. unfold lookup in Hnone |- *.
  induction row as [|[k v] row IH]; [reflexivity|].
  simpl in *.
  destruct (String.eqb_spec k new) as [->|Hkn]; [discriminate|].
  destruct (String.eqb_spec k old) as [->|Hko].
  - assert (H : renamed renames old = new)
      by (apply (renamed_new old new old Hin); now left).
    rewrite H, String.eqb_refl. reflexivity.
  - destruct (String.eqb_spec (renamed renames k) new) as [H|H].
    + apply (renamed_new old new k Hin) in H. tauto.
    + now apply IH.
Qed.

(** The other cells stay where they are. *)
Lemma lookup_relabel_other c row :
  ~ In c (old_labels renames) -> ~ In c (new_labels renames) ->
  lookup c (relabel renames row) = lookup c row.
Proof.
  intros Ho Hn. unfold lookup, relabel.
  induction row as [|[k v] row IH]; [reflexivity|].
  simpl.
  destruct (String.eqb_spec (renamed renames k) c) as [H|H];
    destruct (String.eqb_spec k c) as [H'|H'].
  - reflexivity.
  - apply (renamed_other c k Ho Hn) in H. contradiction.
  - apply (renamed_other c k Ho Hn) in H'. contradiction.
  - exact IH.
Qed.

End Relabelling.

Lemma rename_ext m m' df :
  well_formed df ->
  (forall c, In c (columns df) -> renamed m c = renamed m' c) ->
  rename m df = rename m' df.
Proof.
  intros Hwf Hext. unfold rename. fold (renamed m) (renamed m'). f_equal.
  - apply map_ext_in. exact Hext.
  - apply map_ext_in. intros row Hrow.
    unfold well_formed in Hwf. rewrite Forall_forall in Hwf.
    specialize (Hwf row Hrow).
    apply map_ext_in. intros [k v] Hkv. simpl. f_equal.
    apply Hext, Hwf. apply in_map_iff. now exists (k, v).
Qed.

(** X6.  The three dictionaries the scripts rename portal columns with
    ([normalize_ena] and the two lookups) rename without clash.  After the
    renaming no column has a replaced label any more, the cell a row had
    under a replaced label is under the new one (when the row had no cell
    there already), and the other cells are where they were. *)
Theorem portal_columns_renamed renames df :
  In renames [ena_renames; run_renames; sample_renames] ->
  (forall c, In c (columns (rename renames df)) ->
             ~ In c (old_labels renames)) /\
  Forall2 (fun row row' =>
             (forall old new,
                 In (old, new) renames -> lookup new row = None ->
                 lookup new row' = lookup old row) /\
             (forall c,
                 ~ In c (old_labels renames) -> ~ In c (new_labels renames) ->
                 lookup c row' = lookup c row))
          (rows df) (rows (rename renames df)).
Proof.
  intros Hin.
  assert (clean : relabelling renames = true).
  { simpl in Hin. destruct Hin as [<-|[<-|[<-|[]]]]; reflexivity. }
  split.
  - intros c Hc. rewrite rename_columns in Hc.
    apply in_map_iff in Hc. destruct Hc as (c0 & <- & _).
    now apply renamed_not_old.
  - rewrite rows_rename.
    induction (rows df) as [|row l IH]; constructor; [|exact IH].
    split.
    + intros old new. now apply lookup_relabel_new.
    + intros c. now apply lookup_relabel_other.
Qed.

Lemma portal_columns_renamed_witness :
  (forall c, In c (columns (normalize_ena err1_frame)) ->
             ~ In c (old_labels ena_renames)) /\
  Forall2 (fun row row' =>
             (forall old new,
                 In (old, new) ena_renames -> lookup new row = None ->
                 lookup new row' = lookup old row) /\
             (forall c,
                 ~ In c (old_labels ena_renames) ->
                 ~ In c (new_labels ena_renames) ->
                 lookup c row' = lookup c row))
          (rows err1_frame) (rows (normalize_ena err1_frame)).
Proof.
  apply (portal_columns_renamed ena_renames err1_frame).
  simpl. tauto.
Defined.

(** X7.  On a frame whose cells are all under its column labels,
    [normalize_sra] is the renaming of [lat] to [latitude] and of [lon] to
    [longitude]: the tests on the columns change nothing. *)
Theorem normalize_sra_renames df :
  well_formed df ->
  normalize_sra df =
  rename [("lat", "latitude"); ("lon", "longitude")]%string df.
Proof.
  intros Hwf. unfold normalize_sra. apply rename_ext; [exact Hwf|].
  intros c Hc. unfold has_column.
  assert (Hlat : existsb (String.eqb "lat") (columns df) = false ->
                 String.eqb c "lat" = false).
  { intros H. destruct (String.eqb_spec c "lat") as [->|]; [|reflexivity].
    apply existsb_eqb_In in Hc. congruence. }
  assert (Hlon : existsb (String.eqb "lon") (columns df) = false ->
                 String.eqb c "lon" = false).
  { intros H. destruct (String.eqb_spec c "lon") as [->|]; [|reflexivity].
    apply existsb_eqb_In in Hc. congruence. }
  unfold renamed, lookup.
  destruct (existsb (String.eqb "lat") (columns df));
    destruct (existsb (String.eqb "lon") (columns df));
    cbn [app find fst]; try reflexivity;
    rewrite ?(String.eqb_sym "lat"), ?(String.eqb_sym "lon"),
            ?Hlat, ?Hlon by reflexivity; reflexivity.
Qed.

Lemma normalize_sra_renames_witness :
  normalize_sra sra_frame =
  rename [("lat", "latitude"); ("lon", "longitude")]%string sra_frame.
Proof.
  apply (normalize_sra_renames sra_frame).
  apply Forall_forall. intros row Hrow c Hc.
  destruct Hrow as [<-|[<-|[]]]; simpl in *; tauto.
Defined.

End Labels.

(* ------------------------------------------------------------------ *)
(** * Lookups and resolver: requests, records kept, exceptions *)
(* ------------------------------------------------------------------ *)

Module Records.

Import Float64 Text Geo Ena Resolver Extractor Labels.

(** The table has one row per key at most. *)
Definition one_row_per_key (enr : option DataFrame) (key : string) : Prop :=
  forall e hits,
    enr = Some e -> select key e = Some hits -> NoDup (map hit_key hits).

(** A portal whose tables have the accession column only. *)
Definition bare_frame : DataFrame :=
  {| columns := ["run_accession"]%string;
     rows := [[("run_accession", "ERR1")]%string] |}.

Definition bare_portal (_ : Params) : response := Body (Some bare_frame).

(** A portal that is out of reach. *)
Definition no_portal (_ : Params) : response := Failed.

(** [r] with the coordinates [x] and [y]. *)
Definition located (r : Row) (x y : float) : Row :=
  {| Run := Run r;
     Sample := Sample r;
     latitude := VFloat x;
     longitude := VFloat y;
     geographic_location := geographic_location r;
     others := others r |}.

(** The rows of [hits] with the key of [r]. *)
Definition matches (key_of : Row -> option string) (hits : list Hit)
  (r : Row) : list Hit :=
  filter (fun h => key_eqb (key_of r) (hit_key h)) hits.

(** ** Chunks *)

Lemma chunks_from_shape size : forall fuel l,
  (0 < size)%nat -> (List.length l <= fuel)%nat ->
  List.length (chunks_from fuel size l) =
    ((List.length l + size - 1) / size)%nat /\
  forall i, (S i < List.length (chunks_from fuel size l))%nat ->
            List.length (nth i (chunks_from fuel size l) []) = size.
Proof.
  induction fuel as [|fuel IH]; intros l Hs Hl.
  - destruct l; [|simpl in Hl; lia]. simpl. split; [|intros i Hi; lia].
    symmetry. apply Nat.div_small. lia.
  - destruct l as [|x l].
    { simpl. split; [|intros i Hi; lia].
      symmetry. apply Nat.div_small. lia. }
    cbn [chunks_from]. set (l0 := x :: l) in *.
    assert (Hl0 : (1 <= List.length l0)%nat) by (subst l0; simpl; lia).
    destruct (IH (skipn size l0) Hs) as [Hlen Hnth].
    { rewrite length_skipn. subst l0. cbn [List.length] in *. lia. }
    rewrite length_skipn in Hlen.
    cbn [List.length]. rewrite Hlen.
    destruct (Nat.le_gt_cases (List.length l0) size) as [Hle|Hgt].
    + replace (List.length l0 - size)%nat with 0%nat by lia.
      rewrite (Nat.div_small (0 + size - 1) size) by lia.
      assert (E : ((List.length l0 + size - 1) / size = 1)%nat).
      { symmetry. apply (Nat.div_unique _ _ 1 (List.length l0 - 1)%nat); lia. }
      split; [lia|].
      intros i Hi. lia.
    + assert (E : ((List.length l0 + size - 1) / size =
                   S ((List.length l0 - size + size - 1) / size))%nat).
      { replace (List.length l0 + size - 1)%nat
          with ((List.length l0 - size + size - 1) + 1 * size)%nat by lia.
        rewrite Nat.div_add by lia. lia. }
      split; [lia|].
      intros [|i] Hi; cbn [List.length] in Hi.
      * cbn [nth]. apply firstn_length_le. lia.
      * cbn [nth]. apply Hnth. lia.
Qed.

(** X8.  With a positive chunk size the identifiers are cut, in order, into
    ceil(n / chunk_size) chunks, one request each: no chunk is empty, every
    chunk but the last holds exactly [chunk_size] identifiers and the last
    at most that many.  A negative chunk size gives no chunk at all, and
    the lookup then returns the empty table without asking anything. *)
Theorem chunks_shape (size : Z) (l : list string) :
  (0 < size ->
   exists todo,
     chunks size l = Some todo /\
     List.concat todo = l /\
     Z.of_nat (List.length todo) = (Z.of_nat (List.length l) + size - 1) / size /\
     Forall (fun c => c <> [] /\ Z.of_nat (List.length c) <= size) todo /\
     forall i, (S i < List.length todo)%nat ->
               Z.of_nat (List.length (nth i todo [])) = size) /\
  (size < 0 ->
   chunks size l = Some [] /\
   forall requests_get params renames schema ids,
     enrich_coords requests_get params renames schema ids size =
     Some (DataFrame_of_columns schema)).
Proof.
  split.
  - intros Hpos. unfold chunks.
    destruct (Z.eqb_spec size 0) as [|_]; [lia|].
    destruct (Z.ltb_spec size 0) as [|_]; [lia|].
    eexists. split; [reflexivity|].
    assert (Hs : (0 < Z.to_nat size)%nat) by lia.
    destruct (chunks_from_concat (Z.to_nat size) (List.length l) l Hs
                (Nat.le_refl _)) as [Hc Hf].
    destruct (chunks_from_shape (Z.to_nat size) (List.length l) l Hs
                (Nat.le_refl _)) as [Hlen Hnth].
    split; [exact Hc|]. split; [|split].
    + rewrite Hlen, Nat2Z.inj_div.
      f_equal; lia.
    + eapply Forall_impl; [|exact Hf]. intros c [Hne Hle]. split; [exact Hne|lia].
    + intros i Hi. rewrite Hnth by exact Hi. lia.
  - intros Hneg.
    assert (E : forall l0, chunks size l0 = Some []).
    { intros l0. unfold chunks.
      destruct (Z.eqb_spec size 0) as [|_]; [lia|].
      destruct (Z.ltb_spec size 0) as [_|]; [reflexivity|lia]. }
    split; [apply E|].
    intros requests_get params renames schema ids.
    unfold enrich_coords. now rewrite E.
Qed.

Lemma chunks_shape_witness :
  exists todo,
    chunks 2 ["ERR1"; "ERR2"; "ERR3"; "ERR4"; "ERR5"]%string = Some todo /\
    List.concat todo = ["ERR1"; "ERR2"; "ERR3"; "ERR4"; "ERR5"]%string /\
    Z.of_nat (List.length todo) = (5 + 2 - 1) / 2 /\
    Forall (fun c => c <> [] /\ Z.of_nat (List.length c) <= 2) todo /\
    forall i, (S i < List.length todo)%nat ->
              Z.of_nat (List.length (nth i todo [])) = 2.
Proof.
  apply (proj1 (chunks_shape 2 ["ERR1"; "ERR2"; "ERR3"; "ERR4"; "ERR5"]%string)).
  lia.
Defined.

(** ** The accessions asked for *)

Lemma unique_from_NoDup l : forall seen, NoDup (unique_from seen l).
Proof.
  induction l as [|x r IH]; intros seen; simpl; [constructor|].
  destruct (existsb (String.eqb x) seen); [apply IH|].
  constructor; [|apply IH].
  rewrite unique_from_In. intros [_ H]. apply H. now left.
Qed.

Lemma dropna_In s l : In s (dropna l) <-> In (Some s) l.
Proof.
  unfold dropna. rewrite in_flat_map. split.
  - intros ([s'|] & Hin & Hs); simpl in Hs; [|contradiction].
    destruct Hs as [<-|[]]. exact Hin.
  - intros H. exists (Some s). split; [exact H|now left].
Qed.

(** X9.  Each accession is asked for once.  The list given to the lookup by
    run holds, without repetition, the run accessions of the rows that lack
    a coordinate; the list given to the lookup by sample, the sample
    accessions of such rows. *)
Theorem accessions_asked_once (df : list Row) :
  NoDup (runs_to_enrich df) /\
  NoDup (samples_to_enrich df) /\
  (forall s, In s (runs_to_enrich df) <->
             exists r, In r df /\ Run r = Some s /\ needs_geo r = true) /\
  (forall s, In s (samples_to_enrich df) <->
             exists r, In r df /\ Sample r = Some s /\ needs_geo r = true).
Proof.
  split; [apply unique_from_NoDup|]. split; [apply unique_from_NoDup|].
  split; intros s.
  - unfold runs_to_enrich. rewrite unique_In, dropna_In, in_map_iff. split.
    + intros (r & Hr & Hin). apply filter_In in Hin. destruct Hin as [Hin Hp].
      apply andb_true_iff in Hp. exists r. tauto.
    + intros (r & Hin & Hr & Hg). exists r. split; [exact Hr|].
      apply filter_In. split; [exact Hin|]. now rewrite Hr, Hg.
  - unfold samples_to_enrich. rewrite unique_In, dropna_In, in_map_iff. split.
    + intros (r & Hr & Hin). apply filter_In in Hin. destruct Hin as [Hin Hp].
      apply andb_true_iff in Hp. exists r. tauto.
    + intros (r & Hin & Hr & Hg). exists r. split; [exact Hr|].
      apply filter_In. split; [exact Hin|]. now rewrite Hr, Hg.
Qed.

(** ** Merging a table with one row per key *)

Lemma key_eqb_eq a b : key_eqb a b = true <-> a = b.
Proof.
  destruct a as [x|], b as [y|]; simpl; try (split; congruence).
  rewrite String.eqb_eq. split; congruence.
Qed.

Lemma filter_key_NoDup k hits :
  NoDup (map hit_key hits) ->
  (List.length (filter (fun h => key_eqb k (hit_key h)) hits) <= 1)%nat.
Proof.
  induction hits as [|h hits IH]; simpl; intros Hnd; [lia|].
  inversion Hnd as [|? ? Hh Hnd']; subst.
  destruct (key_eqb k (hit_key h)) eqn:E; [|now apply IH].
  apply key_eqb_eq in E. subst k.
  assert (Hnone : filter (fun h0 => key_eqb (hit_key h) (hit_key h0)) hits = []).
  { apply filter_none. apply Forall_forall. intros h0 Hin.
    destruct (key_eqb (hit_key h) (hit_key h0)) eqn:E'; [|reflexivity].
    apply key_eqb_eq in E'. elim Hh. rewrite E'. now apply in_map. }
  rewrite Hnone. simpl. lia.
Qed.

Lemma merge_fill_one_to_one key_of hits df :
  NoDup (map hit_key hits) -> Forall2 keeps df (merge_fill key_of hits df).
Proof.
  intros Hnd. unfold merge_fill.
  induction df as [|r df IH]; simpl; [constructor|].
  pose proof (filter_key_NoDup (key_of r) hits Hnd) as Hlen.
  destruct (filter (fun h => key_eqb (key_of r) (hit_key h)) hits)
    as [|h [|h' t]]; simpl in *; try lia.
  - constructor; [apply fill_from_keeps|exact IH].
  - constructor; [apply fill_from_keeps|exact IH].
Qed.

Lemma Forall2_keeps_refl df : Forall2 keeps df df.
Proof. induction df; constructor; [apply keeps_refl|assumption]. Qed.

Lemma Forall2_keeps_trans df1 df2 df3 :
  Forall2 keeps df1 df2 -> Forall2 keeps df2 df3 -> Forall2 keeps df1 df3.
Proof.
  intros H. revert df3. induction H as [|r1 r2 l1 l2 Hr _ IH]; intros df3 H23.
  - inversion H23. constructor.
  - inversion H23 as [|? r3 ? l3 Hr' H']; subst.
    constructor; [eapply keeps_trans; eauto|now apply IH].
Qed.

Lemma Forall2_keeps_Run df df' :
  Forall2 keeps df df' -> map Run df' = map Run df.
Proof.
  induction 1 as [|r r' l l' Hr _ IH]; simpl; [reflexivity|].
  now rewrite IH, (keeps_Run _ _ Hr).
Qed.

Lemma NoDup_map_filter {A B : Type} (f : A -> B) (p : A -> bool) l :
  NoDup (map f l) -> NoDup (map f (filter p l)).
Proof.
  induction l as [|a l IH]; simpl; intros H; [constructor|].
  inversion H as [|? ? Ha H']; subst.
  destruct (p a); simpl; [|now apply IH].
  constructor; [|now apply IH].
  intros Hin. apply Ha. apply in_map_iff in Hin.
  destruct Hin as (b & Hb & Hin). apply filter_In in Hin.
  apply in_map_iff. exists b. tauto.
Qed.

(** A row of an expanded frame keeps a row of the frame it comes from. *)
Lemma expands_In df df' f :
  expands df df' -> In f df' -> exists r, In r df /\ keeps r f.
Proof.
  intros (groups & -> & H) Hin.
  induction H as [|r g df groups [_ Hg] _ IH]; simpl in Hin; [contradiction|].
  apply in_app_or in Hin. destruct Hin as [Hin|Hin].
  - exists r. split; [now left|].
    rewrite Forall_forall in Hg. now apply Hg.
  - destruct (IH Hin) as (r0 & Hr0 & Hk). exists r0. split; [now right|exact Hk].
Qed.

(** X10.  After stage 3 a row still lacks a coordinate only when it has no
    location text, or a text in which the pattern finds fewer than two
    numbers: two numbers in the text fill whatever was missing. *)
Theorem parse_fills_from_two_numbers (df df' : list Row) :
  fill_by_parse df = Some df' ->
  Forall2 (fun r r' =>
             needs_geo r' = true ->
             geographic_location r = None \/
             exists s, geographic_location r = Some s /\
                       (List.length (findall_number (chars s)) < 2)%nat)
          df df'.
Proof.
  unfold fill_by_parse.
  destruct (existsb needs_geo df) eqn:E.
  - apply traverse_Forall2. intros r r' Hp Hneed.
    unfold parse_row in Hp.
    destruct (needs_geo r) eqn:Er; [|injection Hp as <-; congruence].
    destruct (geographic_location r) as [s|] eqn:El; [|now left].
    right. exists s. split; [reflexivity|].
    simpl in Hp.
    destruct (extract_found s) as [[Hlt _]|(x & y & Hx & Nx & Ny)];
      [exact Hlt|].
    rewrite Hx in Hp. injection Hp as <-.
    assert (F : forall v z, isnan z = false ->
                            pd_isna (fillna v (VFloat z)) = false).
    { intros v z Hz. unfold fillna.
      destruct (pd_isna v) eqn:Ev; [exact Hz|exact Ev]. }
    unfold needs_geo in Hneed. simpl in Hneed.
    rewrite !F in Hneed by assumption. discriminate.
  - intros H. injection H as <-.
    assert (Hall : Forall (fun r => needs_geo r = false) df).
    { apply Forall_forall. intros r Hin.
      destruct (needs_geo r) eqn:Er; [|reflexivity].
      assert (existsb needs_geo df = true)
        by (apply existsb_exists; now exists r).
      congruence. }
    clear E. induction Hall as [|r l Hr _ IH]; constructor; [|exact IH].
    intros H. congruence.
Qed.

Lemma parse_fills_from_two_numbers_witness :
  Forall2 (fun r r' =>
             needs_geo r' = true ->
             geographic_location r = None \/
             exists s, geographic_location r = Some s /\
                       (List.length (findall_number (chars s)) < 2)%nat)
          demo_df
          [ new_row "ERR1" np_nan np_nan None;
            new_row "ERR2" (VFloat (neg f23_5)) (VFloat (neg f45_2))
                    (Some "23.5S 45.2W"%string);
            new_row "ERR3" (VFloat f91) (VFloat f10)
                    (Some "91.0, 10.0"%string);
            new_row "ERR4" np_nan np_nan None;
            new_row "ERR5" (VStr "10.5") (VFloat f2) (Some "1N 2E"%string) ].
Proof.
  apply (parse_fills_from_two_numbers demo_df).
  vm_compute. reflexivity.
Defined.

Section OneToOne.

Variable requests_get : Params -> response.
Variable coerce : pyval -> float.

Lemma fill_by_lookup_one_to_one enrich key_of key ids df df' :
  one_row_per_key (enrich (map VStr ids) 200) key ->
  fill_by_lookup enrich key_of key ids df = Some df' ->
  Forall2 keeps df df'.
Proof.
  intros Hone. unfold fill_by_lookup.
  destruct ids as [|i ids]; [intros H; injection H as <-; apply Forall2_keeps_refl|].
  destruct (enrich (map VStr (i :: ids)) 200) as [enr|] eqn:Ee; [|discriminate].
  destruct (empty enr);
    [intros H; injection H as <-; apply Forall2_keeps_refl|].
  destruct (select key enr) as [hits|] eqn:Es; [|discriminate].
  intros H. injection H as <-.
  apply merge_fill_one_to_one. now apply (Hone enr hits).
Qed.

(** X11.  When each table the two lookups return lists an accession once,
    the resolver makes no record twice: the filled frame has one row for
    each row given, in order, and the output is what remains of them, so
    run accessions that were distinct stay distinct. *)
Theorem one_row_per_record (df out : list Row) :
  one_row_per_key
    (enrich_coords_from_ena_by_runs requests_get
       (map VStr (runs_to_enrich df)) 200) "Run" ->
  (forall df1,
      fill_by_run requests_get df = Some df1 ->
      one_row_per_key
        (enrich_coords_from_ena_by_samples requests_get
           (map VStr (samples_to_enrich df1)) 200) "Sample") ->
  fill_and_filter_geo requests_get coerce df = Some out ->
  exists filled,
    fill_missing requests_get df = Some filled /\
    Forall2 keeps df filled /\
    out = filter valid_row (map (to_numeric coerce) filled) /\
    (List.length out <= List.length df)%nat /\
    (NoDup (map Run df) -> NoDup (map Run out)).
Proof.
  intros Hrun Hsample. unfold fill_and_filter_geo, fill_missing.
  destruct (fill_by_run requests_get df) as [df1|] eqn:E1; [|discriminate].
  destruct (fill_by_sample requests_get df1) as [df2|] eqn:E2; [|discriminate].
  destruct (fill_by_parse df2) as [filled|] eqn:E3; [|discriminate].
  intros H. injection H as <-.
  assert (K : Forall2 keeps df filled).
  { apply (Forall2_keeps_trans df df1); [|apply (Forall2_keeps_trans df1 df2)].
    - eapply fill_by_lookup_one_to_one; [exact Hrun|exact E1].
    - eapply fill_by_lookup_one_to_one; [exact (Hsample df1 eq_refl)|exact E2].
    - now apply fill_by_parse_keeps. }
  exists filled. split; [reflexivity|]. split; [exact K|].
  split; [reflexivity|]. split.
  - etransitivity; [apply filter_length_le|].
    rewrite length_map. apply Forall2_length in K. lia.
  - intros Hnd.
    assert (E : forall l, map Run (filter valid_row (map (to_numeric coerce) l))
                          = map Run (filter (fun r => valid_row (to_numeric coerce r)) l)).
    { induction l as [|a l IH]; simpl; [reflexivity|].
      destruct (valid_row (to_numeric coerce a)); simpl; now rewrite IH. }
    rewrite E. apply NoDup_map_filter.
    now rewrite (Forall2_keeps_Run _ _ K).
Qed.

(** X12.  The resolver invents no record and touches no other column.
    Every row of the output comes from a row given: it has its run and
    sample accessions and its other columns, its location text when it had
    one, and for each coordinate it had the number read from that very
    coordinate. *)
Theorem output_rows_come_from_input (df out : list Row) :
  fill_and_filter_geo requests_get coerce df = Some out ->
  Forall (fun r' =>
            exists r,
              In r df /\
              Run r' = Run r /\ Sample r' = Sample r /\
              others r' = others r /\
              (forall s, geographic_location r = Some s ->
                         geographic_location r' = Some s) /\
              (pd_isna (latitude r) = false ->
               latitude r' = VFloat (coerce (latitude r))) /\
              (pd_isna (longitude r) = false ->
               longitude r' = VFloat (coerce (longitude r)))) out.
Proof.
  unfold fill_and_filter_geo.
  destruct (fill_missing requests_get df) as [filled|] eqn:E; [|discriminate].
  intros H. injection H as <-.
  assert (Hex : expands df filled).
  { unfold fill_missing in E.
    destruct (fill_by_run requests_get df) as [df1|] eqn:E1; [|discriminate].
    destruct (fill_by_sample requests_get df1) as [df2|] eqn:E2;
      [|discriminate].
    apply (expands_trans df df1); [|apply (expands_trans df1 df2)].
    - eapply fill_by_lookup_expands; exact E1.
    - eapply fill_by_lookup_expands; exact E2.
    - apply Forall2_keeps_expands. now apply fill_by_parse_keeps. }
  apply Forall_forall. intros r' Hin.
  apply filter_In in Hin. destruct Hin as [Hin _].
  apply in_map_iff in Hin. destruct Hin as (f & <- & Hf).
  destruct (expands_In _ _ _ Hex Hf) as (r & Hr & [K1 K2 K3 K4 K5 K6]).
  exists r. simpl. repeat split; try assumption.
  - intros Hna. now rewrite K4.
  - intros Hna. now rewrite K5.
Qed.

End OneToOne.

Lemma output_rows_come_from_input_witness :
  Forall (fun r' =>
            exists r,
              In r demo_df /\
              Run r' = Run r /\ Sample r' = Sample r /\
              others r' = others r /\
              (forall s, geographic_location r = Some s ->
                         geographic_location r' = Some s) /\
              (pd_isna (latitude r) = false ->
               latitude r' = VFloat (coerce_as_float (latitude r))) /\
              (pd_isna (longitude r) = false ->
               longitude r' = VFloat (coerce_as_float (longitude r))))
         demo_out.
Proof.
  apply (output_rows_come_from_input run_portal coerce_as_float demo_df).
  vm_compute. reflexivity.
Defined.

Lemma one_row_per_record_witness :
  exists filled,
    fill_missing run_portal demo_df = Some filled /\
    Forall2 keeps demo_df filled /\
    demo_out = filter valid_row (map (to_numeric coerce_as_float) filled) /\
    (List.length demo_out <= List.length demo_df)%nat /\
    (NoDup (map Run demo_df) -> NoDup (map Run demo_out)).
Proof.
  apply (one_row_per_record run_portal coerce_as_float demo_df demo_out).
  - intros e hits He Hs. vm_compute in He. injection He as <-.
    vm_compute in Hs. injection Hs as <-.
    repeat constructor. simpl. tauto.
  - intros df1 H1 e hits He Hs. vm_compute in H1. injection H1 as <-.
    vm_compute in He. injection He as <-.
    vm_compute in Hs. injection Hs as <-. constructor.
  - vm_compute. reflexivity.
Defined.

Lemma unique_from_nonempty l : forall seen x,
  In x l -> ~ In x seen -> unique_from seen l <> [].
Proof.
  intros seen x Hin Hs H.
  assert (Hx : In x (unique_from seen l)) by (apply unique_from_In; tauto).
  rewrite H in Hx. contradiction.
Qed.

Lemma str_ids_In s ids :
  In s (str_ids ids) <-> In (VStr s) ids /\ strip (chars s) <> [].
Proof.
  unfold str_ids. rewrite in_flat_map. split.
  - intros (v & Hin & Hs). destruct v as [| | |s0]; try contradiction.
    destruct (strip (chars s0)) eqn:E; [contradiction|].
    destruct Hs as [<-|[]]. split; [exact Hin|]. rewrite E. discriminate.
  - intros [Hin Hne]. exists (VStr s). split; [exact Hin|].
    destruct (strip (chars s)); [contradiction|now left].
Qed.

Section Raising.

Variable requests_get : Params -> response.
Variable coerce : pyval -> float.


(** X14.  The resolver raises ([KeyError]) when a table comes without the
    coordinate columns: if every request by run is answered by a table that
    is not empty and has no column [lat] nor [latitude], and some row
    lacking a coordinate has a run accession that is not blank, the
    resolver does not return. *)
Theorem resolver_raises_without_lat (df : list Row) (r : Row) (s : string) :
  In r df -> Run r = Some s -> needs_geo r = true ->
  strip (chars s) <> [] ->
  (forall chunk, exists dfc,
      requests_get (run_params chunk) = Body (Some dfc) /\
      empty dfc = false /\
      ~ In "lat"%string (columns dfc) /\
      ~ In "latitude"%string (columns dfc)) ->
  fill_and_filter_geo requests_get coerce df = None.
Proof.
  intros Hin Hrun Hneed Hs Hportal.
  assert (Hid : In s (runs_to_enrich df)).
  { unfold runs_to_enrich. rewrite unique_In, dropna_In, in_map_iff.
    exists r. split; [exact Hrun|]. apply filter_In. split; [exact Hin|].
    now rewrite Hrun, Hneed. }
  assert (Hstr : In s (str_ids (map VStr (runs_to_enrich df)))).
  { apply str_ids_In. split; [now apply in_map|exact Hs]. }
  assert (Hnone : fill_by_run requests_get df = None).
  { unfold fill_by_run, fill_by_lookup.
    destruct (runs_to_enrich df) as [|i ids] eqn:Eids; [contradiction|].
    rewrite <- Eids in *.
    change (enrich_coords_from_ena_by_runs requests_get)
      with (enrich_coords requests_get run_params run_renames run_schema).
    destruct (enrich_coords_spec requests_get run_params run_renames run_schema
                (map VStr (runs_to_enrich df)) 200 ltac:(discriminate))
      as (todo & enr & Ht & Hc & He & Hrows & _ & Hcat).
    rewrite He.
    specialize (Hc ltac:(lia)).
    (* every frame fetched lacks the column, and there is one *)
    assert (Hf : Forall (fun f => empty f = false /\
                                  ~ In "latitude"%string (columns f))
                        (fetched requests_get run_params run_renames todo)).
    { unfold fetched. apply Forall_forall. intros f Hfin.
      apply in_flat_map in Hfin. destruct Hfin as (chunk & _ & Hfin).
      destruct (Hportal chunk) as (dfc & Hr & Hne & Hlat & Hlat').
      rewrite Hr, Hne in Hfin. destruct Hfin as [<-|[]]. split.
      - unfold empty in *. simpl.
        destruct (columns dfc), (rows dfc); try discriminate. reflexivity.
      - rewrite rename_columns. intros H. apply in_map_iff in H.
        destruct H as (c & Hc' & Hcin).
        apply (renamed_new run_renames eq_refl "lat" "latitude" c) in Hc';
          [|simpl; tauto].
        destruct Hc' as [->| ->]; contradiction. }
    assert (Hne : fetched requests_get run_params run_renames todo <> []).
    { destruct todo as [|chunk todo]; [simpl in Hc; rewrite <- Hc in Hstr;
                                         contradiction|].
      unfold fetched. simpl.
      destruct (Hportal chunk) as (dfc & Hr & Hne & _).
      rewrite Hr, Hne. discriminate. }
    rewrite (Hcat Hne).
    destruct (fetched requests_get run_params run_renames todo) as [|f fs];
      [contradiction|].
    inversion Hf as [|? ? [Hfe Hfl] Hfs]; subst.
    assert (Hemp : empty (pd_concat (f :: fs)) = false).
    { unfold empty in *. simpl.
      destruct (columns f) as [|c cs] eqn:Ec; [discriminate|].
      destruct (rows f) as [|w ws] eqn:Er; [discriminate|].
      simpl.
      destruct (unique (c :: cs ++ flat_map columns fs)) eqn:Eu;
        [|reflexivity].
      exfalso. revert Eu. apply (unique_from_nonempty _ [] c); simpl; tauto. }
    rewrite Hemp.
    assert (Hsel : select "Run" (pd_concat (f :: fs)) = None).
    { unfold select.
      assert (Hlat : existsb (String.eqb "latitude")
                       (columns (pd_concat (f :: fs))) = false).
      { destruct (existsb _ _) eqn:Ex; [|reflexivity].
        apply existsb_eqb_In in Ex.
        unfold pd_concat in Ex. cbn [columns] in Ex.
        rewrite unique_In in Ex.
        apply in_flat_map in Ex. destruct Ex as (g & Hg & Hgl).
        rewrite Forall_forall in Hf. destruct (Hf g Hg) as [_ H]. contradiction. }
      cbn [forallb]. rewrite Hlat. now rewrite andb_false_r. }
    now rewrite Hsel. }
  unfold fill_and_filter_geo, fill_missing. now rewrite Hnone.
Qed.

End Raising.


Lemma resolver_raises_without_lat_witness :
  fill_and_filter_geo bare_portal coerce_as_float demo_df = None.
Proof.
  apply (resolver_raises_without_lat bare_portal coerce_as_float demo_df
           (new_row "ERR1" np_nan np_nan None) "ERR1"%string).
  - simpl. tauto.
  - reflexivity.
  - reflexivity.
  - discriminate.
  - intros chunk. exists bare_frame. split; [reflexivity|].
    split; [reflexivity|].
    split; intros [H|[]]; discriminate H.
Defined.

(** ** No record that can be resolved is lost *)

Lemma expands_covers df df' r :
  expands df df' -> In r df -> exists f, In f df' /\ keeps r f.
Proof.
  intros (groups & -> & H) Hin.
  induction H as [|r0 g df groups [Hne Hg] _ IH]; [contradiction|].
  simpl. destruct Hin as [->|Hin].
  - destruct g as [|f g]; [contradiction|].
    exists f. split; [now left|]. now inversion Hg.
  - destruct (IH Hin) as (f & Hf & Hk). exists f.
    split; [apply in_or_app; now right|exact Hk].
Qed.

Lemma traverse_In {A B : Type} (f : A -> option B) l l' a :
  traverse f l = Some l' -> In a l -> exists b, f a = Some b /\ In b l'.
Proof.
  revert l'. induction l as [|x l IH]; intros l' H Hin; [contradiction|].
  simpl in H. destruct (f x) as [y|] eqn:Ex; [|discriminate].
  destruct (traverse f l) as [ys|]; [|discriminate].
  injection H as <-. destruct Hin as [->|Hin].
  - exists y. split; [exact Ex|now left].
  - destruct (IH ys eq_refl Hin) as (b & Hb & Hin'). exists b.
    split; [exact Hb|now right].
Qed.

Section Completeness.

Variable requests_get : Params -> response.
Variable coerce : pyval -> float.

Lemma fill_missing_expands df filled :
  fill_missing requests_get df = Some filled -> expands df filled.
Proof.
  unfold fill_missing. intros E.
  destruct (fill_by_run requests_get df) as [df1|] eqn:E1; [|discriminate].
  destruct (fill_by_sample requests_get df1) as [df2|] eqn:E2; [|discriminate].
  apply (expands_trans df df1); [|apply (expands_trans df1 df2)].
  - eapply fill_by_lookup_expands; exact E1.
  - eapply fill_by_lookup_expands; exact E2.
  - apply Forall2_keeps_expands. now apply fill_by_parse_keeps.
Qed.

(** X15.  No valid record is lost.  A row given with both coordinates,
    when the numbers read in them pass the validator, is in the output
    with these numbers, its accessions and its other columns, whatever
    the portal answers. *)
Theorem valid_records_survive (df out : list Row) (r : Row) :
  fill_and_filter_geo requests_get coerce df = Some out ->
  In r df ->
  pd_isna (latitude r) = false -> pd_isna (longitude r) = false ->
  _valid_lat_lon (VFloat (coerce (latitude r)))
                 (VFloat (coerce (longitude r))) = true ->
  exists r',
    In r' out /\
    Run r' = Run r /\ Sample r' = Sample r /\ others r' = others r /\
    latitude r' = VFloat (coerce (latitude r)) /\
    longitude r' = VFloat (coerce (longitude r)).
Proof.
  unfold fill_and_filter_geo.
  destruct (fill_missing requests_get df) as [filled|] eqn:E; [|discriminate].
  intros H Hin Hx Hy Hv. injection H as <-.
  destruct (expands_covers _ _ r (fill_missing_expands _ _ E) Hin)
    as (f & Hf & [K1 K2 K3 K4 K5 _]).
  exists (to_numeric coerce f). split.
  - apply filter_In. split; [now apply in_map|].
    unfold valid_row, to_numeric. simpl. now rewrite K4, K5.
  - unfold to_numeric. simpl. rewrite K4, K5 by assumption. now repeat split.
Qed.

(** [pd.to_numeric] leaves a number as it is. *)
Hypothesis coerce_float : forall x, coerce (VFloat x) = x.

(** X16.  With the portal out of reach, a row without coordinates whose
    location text holds two numbers the validator accepts is in the
    output, located at these two numbers. *)
Theorem text_coordinates_are_kept (df : list Row) (r : Row)
  (s : string) (x y : float) :
  (forall p, requests_get p = Failed) ->
  In r df ->
  pd_isna (latitude r) = true -> pd_isna (longitude r) = true ->
  geographic_location r = Some s ->
  _extract_lat_lon_from_text (VStr s) = Some (VFloat x, VFloat y) ->
  _valid_lat_lon (VFloat x) (VFloat y) = true ->
  exists out,
    fill_and_filter_geo requests_get coerce df = Some out /\
    In (located r x y) out.
Proof.
  intros Hoff Hin Hlat Hlon Hloc Hext Hv.
  assert (Hfill : fill_missing requests_get df = fill_by_parse df).
  { unfold fill_missing, fill_by_run, fill_by_sample.
    change (enrich_coords_from_ena_by_runs requests_get)
      with (enrich_coords requests_get run_params run_renames run_schema).
    change (enrich_coords_from_ena_by_samples requests_get)
      with (enrich_coords requests_get sample_params sample_renames
                          sample_schema).
    now rewrite !fill_by_lookup_all_failed by exact Hoff. }
  assert (Hneed : needs_geo r = true) by (unfold needs_geo; now rewrite Hlat).
  assert (Hany : existsb needs_geo df = true)
    by (apply existsb_exists; now exists r).
  destruct (fill_by_parse_defined df) as (filled & Hp).
  unfold fill_and_filter_geo. rewrite Hfill, Hp.
  eexists. split; [reflexivity|].
  unfold fill_by_parse in Hp. rewrite Hany in Hp.
  destruct (traverse_In _ _ _ r Hp Hin) as (r' & Hr' & Hin').
  unfold parse_row in Hr'. rewrite Hneed, Hloc in Hr'. simpl in Hr'.
  rewrite Hext in Hr'. injection Hr' as <-.
  apply filter_In. split.
  - apply in_map_iff. eexists. split; [|exact Hin'].
    unfold to_numeric, located, fillna. simpl.
    now rewrite Hlat, Hlon, !coerce_float, Hloc.
  - unfold valid_row, located. simpl. exact Hv.
Qed.

End Completeness.

Lemma valid_records_survive_witness :
  exists r',
    In r' [new_row "ERR6" (VFloat f10_5) (VFloat f2) None] /\
    Run r' = Some "ERR6"%string /\ Sample r' = None /\
    others r' = [("source", "ENA")]%string /\
    latitude r' = VFloat (coerce_as_float (VStr "10.5")) /\
    longitude r' = VFloat (coerce_as_float (VStr "2")).
Proof.
  apply (valid_records_survive run_portal coerce_as_float
           [new_row "ERR6" (VStr "10.5") (VStr "2") None]
           [new_row "ERR6" (VFloat f10_5) (VFloat f2) None]
           (new_row "ERR6" (VStr "10.5") (VStr "2") None)).
  - vm_compute. reflexivity.
  - left. reflexivity.
  - reflexivity.
  - reflexivity.
  - reflexivity.
Defined.

Lemma text_coordinates_are_kept_witness :
  exists out,
    fill_and_filter_geo no_portal coerce_as_float demo_df = Some out /\
    In (located (new_row "ERR2" np_nan np_nan (Some "23.5S 45.2W"%string))
                (neg f23_5) (neg f45_2)) out.
Proof.
  apply (text_coordinates_are_kept no_portal coerce_as_float
           (fun x => eq_refl) demo_df
           (new_row "ERR2" np_nan np_nan (Some "23.5S 45.2W"%string))
           "23.5S 45.2W"%string (neg f23_5) (neg f45_2)).
  - reflexivity.
  - simpl. tauto.
  - reflexivity.
  - reflexivity.
  - reflexivity.
  - reflexivity.
  - reflexivity.
Defined.

(** ** The left merge *)



Section Priority.

Variable requests_get : Params -> response.

(** X18.  The lookup by run comes first.  When the table it returns has one
    row for the run of a record without coordinates, and that row gives
    both, the filled frame has the record with these two texts as its
    coordinates, whatever the lookup by sample and the location text would
    have given. *)
Theorem run_lookup_comes_first (df filled : list Row) (r : Row)
  (enr : DataFrame) (hits : list Hit) (h : Hit) (a b : string) :
  In r df ->
  notna (Run r) = true ->
  pd_isna (latitude r) = true -> pd_isna (longitude r) = true ->
  enrich_coords_from_ena_by_runs requests_get
    (map VStr (runs_to_enrich df)) 200 = Some enr ->
  empty enr = false ->
  select "Run" enr = Some hits ->
  matches Run hits r = [h] ->
  hit_latitude h = Some a -> hit_longitude h = Some b ->
  fill_missing requests_get df = Some filled ->
  exists r',
    In r' filled /\
    Run r' = Run r /\ Sample r' = Sample r /\ others r' = others r /\
    latitude r' = VStr a /\ longitude r' = VStr b.
Proof.
  intros Hin Hrun Hlat Hlon Henr Hemp Hsel Hm Ha Hb Hfill.
  unfold fill_missing in Hfill.
  destruct (fill_by_run requests_get df) as [df1|] eqn:E1; [|discriminate].
  destruct (fill_by_sample requests_get df1) as [df2|] eqn:E2; [|discriminate].
  assert (Hid : runs_to_enrich df <> []).
  { destruct (Run r) as [s|] eqn:Er; [|discriminate].
    intros H.
    assert (Hs : In s (runs_to_enrich df)).
    { unfold runs_to_enrich. rewrite unique_In, dropna_In, in_map_iff.
      exists r. split; [exact Er|]. apply filter_In. split; [exact Hin|].
      unfold needs_geo. now rewrite Er, Hlat. }
    rewrite H in Hs. contradiction. }
  assert (H1 : df1 = merge_fill Run hits df).
  { unfold fill_by_run, fill_by_lookup in E1.
    destruct (runs_to_enrich df) as [|i ids]; [now elim Hid|].
    rewrite Henr, Hemp, Hsel in E1. now injection E1 as <-. }
  set (r1 := fill_from r h).
  assert (Hin1 : In r1 df1).
  { rewrite H1. apply in_flat_map. exists r. split; [exact Hin|].
    unfold matches in Hm. rewrite Hm. now left. }
  assert (L1 : latitude r1 = VStr a).
  { unfold r1, fill_from, fillna. simpl. now rewrite Hlat, Ha. }
  assert (L2 : longitude r1 = VStr b).
  { unfold r1, fill_from, fillna. simpl. now rewrite Hlon, Hb. }
  assert (Hex : expands df1 filled).
  { apply (expands_trans df1 df2).
    - eapply fill_by_lookup_expands; exact E2.
    - apply Forall2_keeps_expands. now apply fill_by_parse_keeps. }
  destruct (expands_covers _ _ r1 Hex Hin1) as (f & Hf & [K1 K2 K3 K4 K5 _]).
  exists f. split; [exact Hf|].
  rewrite K1, K2, K3, K4, K5 by (rewrite ?L1, ?L2; reflexivity).
  now repeat split.
Qed.

End Priority.

Lemma run_lookup_comes_first_witness :
  exists r',
    In r' demo_filled /\
    Run r' = Some "ERR1"%string /\ Sample r' = None /\
    others r' = [("source", "ENA")]%string /\
    latitude r' = VStr "-12.05" /\ longitude r' = VStr "-77.04".
Proof.
  apply (run_lookup_comes_first run_portal demo_df demo_filled
           (new_row "ERR1" np_nan np_nan None)
           {| columns := run_schema;
              rows := [[("Run", "ERR1"); ("latitude", "-12.05");
                        ("longitude", "-77.04")]%string] |}
           [{| hit_key := Some "ERR1"%string;
               hit_latitude := Some "-12.05"%string;
               hit_longitude := Some "-77.04"%string;
               hit_location := None |}]
           {| hit_key := Some "ERR1"%string;
              hit_latitude := Some "-12.05"%string;
              hit_longitude := Some "-77.04"%string;
              hit_location := None |}
           "-12.05"%string "-77.04"%string).
  - left. reflexivity.
  - reflexivity.
  - reflexivity.
  - reflexivity.
  - vm_compute. reflexivity.
  - reflexivity.
  - reflexivity.
  - reflexivity.
  - reflexivity.
  - reflexivity.
  - vm_compute. reflexivity.
Defined.

End Records.

(* ------------------------------------------------------------------ *)
(** * From the tables read to the frame resolved *)
(* ------------------------------------------------------------------ *)

Module Unify.

Import Float64 Text Geo Ena Resolver Records.

(** [c.upper()] for a character below U+0100, as code points: the letters
    a-z and the accented letters U+00E0..U+00FE (but the division sign) lose
    32; the sharp s becomes SS; y with diaeresis and the micro sign leave the
    range. *)
Definition upper_points (c : ascii) : list N :=
  let n := code c in
  if (((97 <=? n) && (n <=? 122))
      || ((224 <=? n) && (n <=? 254) && negb (n =? 247)))%N
  then [(n - 32)%N]
  else if (n =? 223)%N then [83; 83]%N
  else if (n =? 255)%N then [376%N]
  else if (n =? 181)%N then [924%N]
  else [n].

(** [s.upper()] *)
Definition str_upper (l : list ascii) : list N := flat_map upper_points l.

(** The code points of a text. *)
Definition points (s : string) : list N := map code (chars s).

Fixpoint starts_with (p l : list N) : bool :=
  match p, l with
  | [], _ => true
  | a :: p', b :: l' => (a =? b)%N && starts_with p' l'
  | _ :: _, [] => false
  end.

(** [needle in hay], and [re.search(needle, hay)] for a pattern of letters. *)
Fixpoint contains (needle hay : list N) : bool :=
  starts_with needle hay ||
  match hay with
  | [] => false
  | _ :: r => contains needle r
  end.

(** [v or EmptyString], and [fillna] with the empty text. *)
Definition or_empty (v : option string) : string :=
  match v with Some s => s | None => EmptyString end.

(** The test on the two cells: [WGS] in the one, [ILLUMINA] in the other,
    both in upper case. *)
Definition wgs_illumina (ls pf : option string) : bool :=
  contains (points "WGS") (str_upper (chars (or_empty ls))) &&
  contains (points "ILLUMINA") (str_upper (chars (or_empty pf))).

(** A row of [csv.DictReader]: the cell under each field name, [None]
    where the line is short. *)
Definition csv_row : Type := list (string * option string).

(** [row.get(k)] *)
Definition row_get (k : string) (row : csv_row) : option string :=
  match find (fun kv => String.eqb (fst kv) k) row with
  | Some (_, v) => v
  | None => None
  end.

(** [def ok(row)] of [postfilter_wgs_illumina_csv], and the rows kept. *)
Definition ok (row : csv_row) : bool :=
  wgs_illumina (row_get "LibraryStrategy" row) (row_get "Platform" row).

Definition kept (rows : list csv_row) : list csv_row := filter ok rows.

(** The [mask] of [main] on a row of [all_df]. *)
Definition mask (r : Row) : bool :=
  wgs_illumina (lookup "LibraryStrategy" (others r))
               (lookup "Platform" (others r)).

(** [Series.astype(str)] on a cell: a missing cell becomes the text
    [nan]. *)
Definition astype_str (c : option string) : string :=
  match c with Some s => s | None => "nan"%string end.

Definition run_astype_str (r : Row) : Row :=
  {| Run := Some (astype_str (Run r));
     Sample := Sample r;
     latitude := latitude r;
     longitude := longitude r;
     geographic_location := geographic_location r;
     others := others r |}.

Definition seen_key (k : option string) (seen : list (option string)) : bool :=
  existsb (key_eqb k) seen.

(** [drop_duplicates(subset=["Run"], keep="first")], with the keys met so
    far. *)
Fixpoint drop_duplicates_from (seen : list (option string)) (df : list Row)
  : list Row :=
  match df with
  | [] => []
  | r :: rest =>
      if seen_key (Run r) seen then drop_duplicates_from seen rest
      else r :: drop_duplicates_from (Run r :: seen) rest
  end.

Definition drop_duplicates (df : list Row) : list Row :=
  drop_duplicates_from [] df.

(** The rows of a frame that reach the deduplication. *)
Definition prepared (df : list Row) : list Row :=
  map run_astype_str (filter mask df).

(** [main], from [pd.concat(frames)] to the frame given to
    [fill_and_filter_geo]. *)
Definition unify (frames : list (list Row)) : list Row :=
  drop_duplicates (prepared (List.concat frames)).

(** ** The test for WGS and ILLUMINA *)

Lemma starts_with_spec p : forall l,
  starts_with p l = true <-> exists b, l = p ++ b.
Proof.
  induction p as [|a p IH]; intros l; simpl.
  - split; [intros _; now exists l|reflexivity].
  - destruct l as [|c l].
    + split; [discriminate|intros (b & H); discriminate].
    + rewrite andb_true_iff, N.eqb_eq, IH. split.
      * intros (-> & b & ->). now exists b.
      * intros (b & H). injection H as -> ->. split; [reflexivity|now exists b].
Qed.

Lemma contains_spec needle : forall hay,
  contains needle hay = true <-> exists a b, hay = a ++ needle ++ b.
Proof.
  induction hay as [|c hay IH]; simpl; rewrite orb_true_iff, starts_with_spec.
  - split.
    + intros [(b & H)|H]; [|discriminate]. now exists [], b.
    + intros (a & b & H). left.
      destruct a; [now exists b|discriminate].
  - rewrite IH. split.
    + intros [(b & H)|(a & b & H)].
      * now exists [], b.
      * exists (c :: a), b. simpl. now rewrite H.
    + intros (a & b & H). destruct a as [|c' a].
      * left. now exists b.
      * right. injection H as _ H. now exists a, b.
Qed.

Lemma chars_append s t : chars (s ++ t) = chars s ++ chars t.
Proof.
  unfold chars. induction s as [|c s IH]; simpl; [reflexivity|].
  now rewrite IH.
Qed.

(** X19.  A row passes the test for WGS and ILLUMINA exactly when the text
    [WGS] occurs somewhere in its library strategy put in upper case and
    the text [ILLUMINA] somewhere in its platform put in upper case.  So
    the case of the letters does not matter, text around the word does
    not either, and a row without one of the two cells does not pass. *)
Theorem wgs_illumina_is_substring_test (ls pf : option string) :
  (wgs_illumina ls pf = true <->
   (exists a b, str_upper (chars (or_empty ls)) = a ++ points "WGS" ++ b) /\
   (exists a b, str_upper (chars (or_empty pf)) =
                a ++ points "ILLUMINA" ++ b)) /\
  (forall a1 w1 b1 a2 w2 b2,
      str_upper (chars w1) = points "WGS" ->
      str_upper (chars w2) = points "ILLUMINA" ->
      wgs_illumina (Some (a1 ++ w1 ++ b1)%string)
                   (Some (a2 ++ w2 ++ b2)%string) = true) /\
  wgs_illumina None pf = false /\
  wgs_illumina ls None = false /\
  (forall row, ok row = wgs_illumina (row_get "LibraryStrategy" row)
                                     (row_get "Platform" row)) /\
  (forall r, mask r = wgs_illumina (lookup "LibraryStrategy" (others r))
                                   (lookup "Platform" (others r))).
Proof.
  assert (Hiff : forall l p,
            wgs_illumina l p = true <->
            (exists a b, str_upper (chars (or_empty l)) =
                         a ++ points "WGS" ++ b) /\
            (exists a b, str_upper (chars (or_empty p)) =
                         a ++ points "ILLUMINA" ++ b)).
  { intros l p. unfold wgs_illumina.
    now rewrite andb_true_iff, !contains_spec. }
  split; [apply Hiff|]. split; [|split; [|split]].
  - intros a1 w1 b1 a2 w2 b2 H1 H2. apply Hiff. simpl or_empty.
    unfold str_upper in *. rewrite !chars_append, !flat_map_app, H1, H2.
    split; eexists; eexists; reflexivity.
  - reflexivity.
  - unfold wgs_illumina. simpl (contains (points "ILLUMINA") _).
    apply andb_false_r.
  - split; reflexivity.
Qed.

Lemma wgs_illumina_is_substring_test_witness :
  wgs_illumina (Some "wgs; amplicon"%string)
               (Some "Illumina HiSeq"%string) = true.
Proof.
  apply (proj1 (proj2 (wgs_illumina_is_substring_test None None))
           EmptyString "wgs"%string "; amplicon"%string
           EmptyString "Illumina"%string " HiSeq"%string).
  - reflexivity.
  - reflexivity.
Defined.

(** ** One row per run *)

Lemma seen_key_In k seen : seen_key k seen = true <-> In k seen.
Proof.
  unfold seen_key. rewrite existsb_exists. split.
  - intros (x & Hin & He). apply key_eqb_eq in He. now subst.
  - intros H. exists k. split; [exact H|now apply key_eqb_eq].
Qed.

Lemma seen_key_false k seen : seen_key k seen = false <-> ~ In k seen.
Proof.
  rewrite <- seen_key_In. destruct (seen_key k seen); intuition congruence.
Qed.

Lemma drop_duplicates_from_In r df : forall seen,
  In r (drop_duplicates_from seen df) -> In r df /\ ~ In (Run r) seen.
Proof.
  induction df as [|a df IH]; intros seen; simpl; [contradiction|].
  destruct (seen_key (Run a) seen) eqn:E.
  - intros H. apply IH in H. tauto.
  - intros [<-|H].
    + split; [now left|now apply seen_key_false].
    + apply IH in H. simpl in H. tauto.
Qed.

Lemma drop_duplicates_from_NoDup df : forall seen,
  NoDup (map Run (drop_duplicates_from seen df)).
Proof.
  induction df as [|a df IH]; intros seen; simpl; [constructor|].
  destruct (seen_key (Run a) seen); [apply IH|].
  simpl. constructor; [|apply IH].
  intros H. apply in_map_iff in H. destruct H as (r & Hr & Hin).
  apply drop_duplicates_from_In in Hin. destruct Hin as [_ Hn].
  apply Hn. rewrite Hr. now left.
Qed.

Lemma drop_duplicates_from_covers df : forall seen r,
  In r df -> ~ In (Run r) seen ->
  exists r', In r' (drop_duplicates_from seen df) /\ Run r' = Run r.
Proof.
  induction df as [|a df IH]; intros seen r; simpl; [contradiction|].
  intros [->|Hin] Hs.
  - apply seen_key_false in Hs. rewrite Hs. exists r. split; [now left|reflexivity].
  - destruct (seen_key (Run a) seen) eqn:E; [now apply IH|].
    destruct (key_eqb (Run r) (Run a)) eqn:Ek.
    + apply key_eqb_eq in Ek. exists a. split; [now left|now symmetry].
    + destruct (IH (Run a :: seen) r Hin) as (r' & H' & E').
      * simpl. intros [H|H]; [|contradiction].
        rewrite H in Ek. assert (key_eqb (Run r) (Run r) = true)
          by now apply key_eqb_eq. congruence.
      * exists r'. split; [now right|exact E'].
Qed.

Lemma drop_duplicates_from_first pre r post : forall seen,
  ~ In (Run r) (map Run pre) -> ~ In (Run r) seen ->
  In r (drop_duplicates_from seen (pre ++ r :: post)).
Proof.
  induction pre as [|a pre IH]; intros seen Hpre Hs; simpl.
  - apply seen_key_false in Hs. rewrite Hs. now left.
  - simpl in Hpre.
    destruct (seen_key (Run a) seen).
    + apply IH; tauto.
    + right. apply IH; [tauto|]. simpl. intros [H|H]; [|contradiction].
      apply Hpre. now left.
Qed.

(** Only the keys in [seen] matter, not their order or number. *)
Lemma drop_duplicates_from_ext df : forall s1 s2,
  (forall k, In k s1 <-> In k s2) ->
  drop_duplicates_from s1 df = drop_duplicates_from s2 df.
Proof.
  induction df as [|a df IH]; intros s1 s2 H; simpl; [reflexivity|].
  assert (E : seen_key (Run a) s1 = seen_key (Run a) s2).
  { destruct (seen_key (Run a) s2) eqn:E2.
    - apply seen_key_In. apply H. now apply seen_key_In.
    - apply seen_key_false. rewrite H. now apply seen_key_false. }
  rewrite E. destruct (seen_key (Run a) s2); [now apply IH|].
  f_equal. apply IH. intros k. simpl. now rewrite H.
Qed.

Lemma drop_duplicates_from_filter df : forall s1 s2,
  drop_duplicates_from (s1 ++ s2) df =
  filter (fun r => negb (seen_key (Run r) s2)) (drop_duplicates_from s1 df).
Proof.
  induction df as [|a df IH]; intros s1 s2; simpl; [reflexivity|].
  destruct (seen_key (Run a) s1) eqn:E1.
  - assert (E : seen_key (Run a) (s1 ++ s2) = true).
    { apply seen_key_In, in_or_app. left. now apply seen_key_In. }
    rewrite E. apply IH.
  - simpl. destruct (seen_key (Run a) s2) eqn:E2; simpl.
    + assert (E : seen_key (Run a) (s1 ++ s2) = true).
      { apply seen_key_In, in_or_app. right. now apply seen_key_In. }
      rewrite E. rewrite <- (IH (Run a :: s1) s2).
      apply drop_duplicates_from_ext. intros k. simpl.
      rewrite !in_app_iff. apply seen_key_In in E2. split; [tauto|].
      intros [H|H]; [subst k|]; tauto.
    + assert (E : seen_key (Run a) (s1 ++ s2) = false).
      { apply seen_key_false. rewrite in_app_iff.
        apply seen_key_false in E1. apply seen_key_false in E2. tauto. }
      rewrite E. f_equal. apply (IH (Run a :: s1) s2).
Qed.

Lemma drop_duplicates_from_app a b : forall seen,
  drop_duplicates_from seen (a ++ b) =
  drop_duplicates_from seen a ++
  drop_duplicates_from (map Run a ++ seen) b.
Proof.
  induction a as [|r a IH]; intros seen; simpl; [reflexivity|].
  destruct (seen_key (Run r) seen) eqn:E.
  - rewrite IH. f_equal. apply drop_duplicates_from_ext.
    intros k. simpl. rewrite !in_app_iff. apply seen_key_In in E.
    split; [tauto|]. intros [H|H]; [subst k|]; tauto.
  - simpl. f_equal. rewrite IH. f_equal. apply drop_duplicates_from_ext.
    intros k. simpl. rewrite !in_app_iff. simpl. tauto.
Qed.

Lemma drop_duplicates_from_fixed df : forall seen,
  NoDup (map Run df) -> (forall r, In r df -> ~ In (Run r) seen) ->
  drop_duplicates_from seen df = df.
Proof.
  induction df as [|a df IH]; intros seen Hnd Hs; simpl; [reflexivity|].
  simpl in Hnd. inversion Hnd as [|? ? Ha Hnd']; subst.
  assert (E : seen_key (Run a) seen = false).
  { apply seen_key_false. apply Hs. now left. }
  rewrite E. f_equal. apply IH; [exact Hnd'|].
  intros r Hr [H|H].
  - apply Ha. rewrite H. now apply in_map.
  - apply (Hs r); [now right|exact H].
Qed.

(** X20.  After [drop_duplicates] no two rows have the same run: of the rows
    with one run the first is kept and the others are dropped, the rows
    kept stay in order, every run of the frame is still there, and doing it
    again changes nothing. *)
Theorem one_row_per_run (df : list Row) :
  NoDup (map Run (drop_duplicates df)) /\
  (forall r, In r (drop_duplicates df) -> In r df) /\
  (forall r, In r df ->
             exists r', In r' (drop_duplicates df) /\ Run r' = Run r) /\
  (forall pre r post,
      df = pre ++ r :: post -> ~ In (Run r) (map Run pre) ->
      In r (drop_duplicates df) /\
      forall r', In r' post -> Run r' = Run r -> r' <> r ->
                 ~ In r' (drop_duplicates df)) /\
  drop_duplicates (drop_duplicates df) = drop_duplicates df.
Proof.
  unfold drop_duplicates.
  split; [apply drop_duplicates_from_NoDup|].
  split; [intros r H; now apply drop_duplicates_from_In in H|].
  split; [intros r H; apply drop_duplicates_from_covers; auto|].
  split.
  - intros pre r post -> Hpre.
    assert (Hin : In r (drop_duplicates_from [] (pre ++ r :: post)))
      by (apply drop_duplicates_from_first; auto).
    split; [exact Hin|].
    intros r' _ Hrun Hne Hin'.
    pose proof (drop_duplicates_from_NoDup (pre ++ r :: post) []) as Hnd.
    (* two rows of the result with the same run are the same row *)
    revert Hnd Hin Hin'.
    generalize (drop_duplicates_from [] (pre ++ r :: post)).
    induction l as [|a l IH]; simpl; [contradiction|].
    intros Hnd [Ha|Hr] [Ha'|Hr'].
    + congruence.
    + subst a. inversion Hnd as [|? ? Hx _]; subst. apply Hx.
      rewrite <- Hrun. now apply in_map.
    + subst a. inversion Hnd as [|? ? Hx _]; subst. apply Hx.
      rewrite Hrun. now apply in_map.
    + inversion Hnd; subst. now apply IH.
  - apply drop_duplicates_from_fixed.
    + apply drop_duplicates_from_NoDup.
    + intros r _ H. exact H.
Qed.

Lemma one_row_per_run_witness :
  In (new_row "ERR1" np_nan np_nan None)
     (drop_duplicates [new_row "ERR1" np_nan np_nan None;
                       new_row "ERR2" np_nan np_nan None;
                       new_row "ERR1" (VStr "1") (VStr "2") None]) /\
  forall r',
    In r' [new_row "ERR2" np_nan np_nan None;
           new_row "ERR1" (VStr "1") (VStr "2") None] ->
    Run r' = Run (new_row "ERR1" np_nan np_nan None) ->
    r' <> new_row "ERR1" np_nan np_nan None ->
    ~ In r' (drop_duplicates [new_row "ERR1" np_nan np_nan None;
                              new_row "ERR2" np_nan np_nan None;
                              new_row "ERR1" (VStr "1") (VStr "2") None]).
Proof.
  apply (proj1 (proj2 (proj2 (proj2
           (one_row_per_run [new_row "ERR1" np_nan np_nan None;
                             new_row "ERR2" np_nan np_nan None;
                             new_row "ERR1" (VStr "1") (VStr "2") None]))))
           [] (new_row "ERR1" np_nan np_nan None)
           [new_row "ERR2" np_nan np_nan None;
            new_row "ERR1" (VStr "1") (VStr "2") None]).
  - reflexivity.
  - simpl. tauto.
Defined.

Lemma mask_run_astype_str r : mask (run_astype_str r) = mask r.
Proof. reflexivity. Qed.

(** X21.  The frame [main] gives to the resolver: every row passed the test
    for WGS and ILLUMINA and carries a run accession (the text [nan] where
    it had none), no two rows have the same one, and each row is a row of
    the tables read.  The tables come first to last, so a run found in the
    ENA table and in the SRA table keeps its ENA row: what is left of the
    later tables are the runs the first one does not have. *)
Theorem unify_first_table_wins (first : list Row) (later : list (list Row)) :
  Forall (fun r =>
            mask r = true /\
            exists r0, In r0 (List.concat (first :: later)) /\
                       r = run_astype_str r0)
         (unify (first :: later)) /\
  NoDup (map Run (unify (first :: later))) /\
  unify (first :: later) =
    drop_duplicates (prepared first) ++
    filter (fun r => negb (seen_key (Run r) (map Run (prepared first))))
           (unify later).
Proof.
  split; [|split].
  - apply Forall_forall. intros r Hin. unfold unify, drop_duplicates in Hin.
    apply drop_duplicates_from_In in Hin. destruct Hin as [Hin _].
    unfold prepared in Hin. apply in_map_iff in Hin.
    destruct Hin as (r0 & <- & Hin). apply filter_In in Hin.
    destruct Hin as [Hin Hm]. split; [exact Hm|]. now exists r0.
  - apply drop_duplicates_from_NoDup.
  - unfold unify, drop_duplicates, prepared. cbn [List.concat].
    rewrite filter_app, map_app, drop_duplicates_from_app. f_equal.
    rewrite <- drop_duplicates_from_filter. now rewrite app_nil_r.
Qed.

End Unify.
